(** * CNAlign: the optimisation model, its objectives, the stagnation
    callback and the solution-pool table of [src/CNAlign/core.py].

    Floating-point numbers are rendered as exact rationals ([Q]); the
    Gurobi model the function builds is rendered as data (declared
    variables, constraints, objectives) together with the meaning the
    solver gives to them over an assignment of the variables. *)

From Stdlib Require Import List String Ascii ZArith QArith Qround Qabs Qpower Bool Lia Lqa.
Import ListNotations.

Local Open Scope Q_scope.

(** ** Comparisons on floats, as booleans *)

Definition Qlt_bool (x y : Q) : bool := negb (Qle_bool y x).

(** * Floats

    The numbers of the program are IEEE binary64 floats.  A finite float
    is carried as the rational it denotes; where the rounding of an
    operation decides what the code does, the operation is followed by
    [round64]. *)

Module Float.

(** A float is a finite number, [nan], [inf] or [-inf]. *)
Inductive float := Num (q : Q) | nan | inf | neg_inf.

Definition is_finite (x : float) : bool :=
  match x with Num _ => true | _ => false end.

Definition isnan (x : float) : bool :=
  match x with nan => true | _ => false end.

(** The rational a finite float denotes. *)
Definition to_Q (x : float) : Q :=
  match x with Num q => q | _ => 0 end.

Definition exp2 (k : Z) : Q := 2 ^ k.

(** The exponent of the leading bit: [2^k <= x < 2^(k+1)] for [x > 0]. *)
Definition ilog2 (x : Q) : Z :=
  let k := (Z.log2 (Qnum x) - Z.log2 (Zpos (Qden x)))%Z in
  if Qle_bool (exp2 k) x then k else (k - 1)%Z.

(** To the nearest integer, a tie to the even one. *)
Definition round_half_even (x : Q) : Z :=
  let f := Qfloor x in
  let d := x - inject_Z f in
  if Qlt_bool d (1#2) then f
  else if Qlt_bool (1#2) d then (f + 1)%Z
  else if Z.even f then f else (f + 1)%Z.

(** The float nearest to [x], a tie to the even significand: 53 bits
    above the leading one, the spacing [2^-1074] below [2^-1022]; [None]
    when the result is beyond the largest float, that is infinite. *)
Definition round64 (x : Q) : option Q :=
  if Qeq_bool x 0 then Some 0
  else
    let e := Z.max (ilog2 (Qabs x) - 52) (-1074) in
    let y := inject_Z (round_half_even (x / exp2 e)) * exp2 e in
    if Qle_bool (exp2 1024) (Qabs y) then None else Some y.

#[global] Arguments round64 : simpl never.

(** The float result of an operation whose exact result is [q]: the
    result is carried exactly while it is finite, and is an infinity when
    [q] rounds beyond the largest float. *)
Definition of_Q (q : Q) : float :=
  match round64 q with
  | Some _ => Num q
  | None => if Qlt_bool q 0 then neg_inf else inf
  end.

Definition opp (x : float) : float :=
  match x with
  | Num q => Num (- q)
  | nan => nan
  | inf => neg_inf
  | neg_inf => inf
  end.

Definition is_zero (x : float) : bool :=
  match x with Num q => Qeq_bool q 0 | _ => false end.

Definition negative (x : float) : bool :=
  match x with
  | Num q => Qlt_bool q 0
  | neg_inf => true
  | _ => false
  end.

(** [x * y]: [nan] when a factor is [nan] and for zero times an
    infinity. *)
Definition mul (x y : float) : float :=
  match x, y with
  | nan, _ | _, nan => nan
  | Num a, Num b => of_Q (a * b)
  | _, _ =>
      if is_zero x || is_zero y then nan
      else if xorb (negative x) (negative y) then neg_inf else inf
  end.

(** [x + y]: [nan] when a term is [nan] and for [inf + -inf]. *)
Definition add (x y : float) : float :=
  match x, y with
  | nan, _ | _, nan => nan
  | Num a, Num b => of_Q (a + b)
  | inf, neg_inf | neg_inf, inf => nan
  | inf, _ | _, inf => inf
  | neg_inf, _ | _, neg_inf => neg_inf
  end.

(** [x == y]; [nan] equals nothing. *)
Definition eqb (x y : float) : bool :=
  match x, y with
  | Num a, Num b => Qeq_bool a b
  | inf, inf | neg_inf, neg_inf => true
  | _, _ => false
  end.

End Float.

(** * The stagnation callback (class [StagnationCallback]) *)

Module Callback.

(** [self.best_obj] starts at [float('inf')] and later holds floats. *)
Inductive bound := Fin (q : Q) | PInf.

(** [GRB.INFINITY] is 1e100. *)
Definition GRB_INFINITY : Q := inject_Z (10 ^ 100).

(** The literal [1e-5]: the float nearest to 1/100000, which is
    [5902958103587057 / 2^69], slightly above it. *)
Definition eps : Q := 5902958103587057 # 590295810358705651712.

Record StagnationCallback := {
  max_stagnation : Q;
  obj_count : Z;
  last_improve_time : Q;
  best_obj : bound;
  stagnated : bool
}.

(** [__init__]: [now] is the value of [time.time()] at construction. *)
Definition init (max_stagnation_seconds now : Q) : StagnationCallback :=
  {| max_stagnation := max_stagnation_seconds;
     obj_count := 0;
     last_improve_time := now;
     best_obj := PInf;
     stagnated := false |}.

(** The [where] code of one invocation together with what [model.cbGet]
    returns there: [MULTIOBJ] carries [MULTIOBJ_OBJCNT]; [MIP] carries
    [MIP_OBJBST], or [None] when the read raises (caught by the [try]);
    every other code is [OTHER]. *)
Inductive where_ :=
| MULTIOBJ (objcnt : Z)
| MIP (objbst : option Q)
| OTHER.

(** [abs(current_obj - self.best_obj) > 1e-5]: the difference is a
    float, the exact difference rounded; against [inf], and when it is
    beyond the largest float, it is infinite. *)
Definition differs (current_obj : Q) (best : bound) : bool :=
  match best with
  | PInf => true
  | Fin b =>
      match Float.round64 (current_obj - b) with
      | Some d => Qlt_bool eps (Qabs d)
      | None => true
      end
  end.

(** [__call__]: the new state and, when [model.cbStopOneMultiObj] is
    called, the level it is called with. *)
Definition call (self : StagnationCallback) (now : Q) (w : where_)
  : StagnationCallback * option Z :=
  match w with
  | MULTIOBJ objcnt =>
      ({| max_stagnation := max_stagnation self;
          obj_count := objcnt;
          last_improve_time := now;
          best_obj := PInf;
          stagnated := false |}, None)
  | MIP (Some current_obj) =>
      if Qlt_bool current_obj GRB_INFINITY then
        if differs current_obj (best_obj self) then
          ({| max_stagnation := max_stagnation self;
              obj_count := obj_count self;
              last_improve_time := now;
              best_obj := Fin current_obj;
              stagnated := stagnated self |}, None)
        else if Qlt_bool (max_stagnation self) (now - last_improve_time self)
                && negb (stagnated self) then
          ({| max_stagnation := max_stagnation self;
              obj_count := obj_count self;
              last_improve_time := last_improve_time self;
              best_obj := best_obj self;
              stagnated := true |}, Some (obj_count self))
        else (self, None)
      else (self, None)
  | MIP None => (self, None)
  | OTHER => (self, None)
  end.

(** A solve feeds the callback a sequence of invocations, each at its own
    clock reading; [run] collects the stop signals with their times. *)
Fixpoint run (self : StagnationCallback) (evs : list (Q * where_))
  : StagnationCallback * list (Q * Z) :=
  match evs with
  | [] => (self, [])
  | (now, w) :: rest =>
      let '(self', sig) := call self now w in
      let '(final, sigs) := run self' rest in
      (final, match sig with Some k => (now, k) :: sigs | None => sigs end)
  end.

Definition is_MULTIOBJ (w : where_) : bool :=
  match w with MULTIOBJ _ => true | _ => false end.

(** The number of level starts among the invocations. *)
Definition level_starts (evs : list (Q * where_)) : nat :=
  List.length (filter (fun e => is_MULTIOBJ (snd e)) evs).

(** The invocation restarts the stagnation clock: a level start, or a
    report below [GRB.INFINITY] that differs from the stored best. *)
Definition resets (self : StagnationCallback) (w : where_) : bool :=
  match w with
  | MULTIOBJ _ => true
  | MIP (Some current_obj) =>
      Qlt_bool current_obj GRB_INFINITY && differs current_obj (best_obj self)
  | _ => false
  end.

(** No invocation in [evs], run from [self], restarts the clock. *)
Fixpoint quiet (self : StagnationCallback) (evs : list (Q * where_)) : bool :=
  match evs with
  | [] => true
  | (now, w) :: rest =>
      negb (resets self w) && quiet (fst (call self now w)) rest
  end.

(** Under [ModelSense = MAXIMIZE] a report improves on the stored best
    when it exceeds it by more than [eps]; under a minimising sense when
    it undercuts it by more than [eps]; the excess is the float
    [current_obj - best].  Nothing improves on [inf] under
    maximisation. *)
Definition improves_max (current_obj : Q) (best : bound) : Prop :=
  match best with
  | PInf => False
  | Fin b =>
      match Float.round64 (current_obj - b) with
      | Some d => eps < d
      | None => b < current_obj
      end
  end.

Definition improves_min (current_obj : Q) (best : bound) : Prop :=
  match best with
  | PInf => True
  | Fin b =>
      match Float.round64 (current_obj - b) with
      | Some d => d < - eps
      | None => current_obj < b
      end
  end.

(** An invocation [__call__] does nothing on: a code other than
    [MULTIOBJ] and [MIP], a read that raised, a report not below
    [GRB.INFINITY]. *)
Definition ignored (w : where_) : bool :=
  match w with
  | MULTIOBJ _ => false
  | MIP (Some current_obj) => negb (Qlt_bool current_obj GRB_INFINITY)
  | MIP None => true
  | OTHER => true
  end.

(** Three states within level 1, with stored best 10, 5 and 0. *)
Definition at10 : StagnationCallback :=
  {| max_stagnation := 60; obj_count := 1; last_improve_time := 0;
     best_obj := Fin 10; stagnated := false |}.

Definition at5 : StagnationCallback :=
  {| max_stagnation := 60; obj_count := 1; last_improve_time := 0;
     best_obj := Fin 5; stagnated := false |}.

Definition at0 : StagnationCallback :=
  {| max_stagnation := 60; obj_count := 1; last_improve_time := 0;
     best_obj := Fin 0; stagnated := false |}.

End Callback.

(** * The Gurobi model: variables, constraints, objectives *)

Module Model.

Inductive vtype := CONTINUOUS | INTEGER | BINARY.

(** The families of variables indexed by (sample, segment), named as the
    [name=] arguments of [model.addVars]. *)
Inductive cell_var :=
| n1 | tcn | tcn_avg | tcn_int | tcn_int_err | tcn_spread | tcn_avg_int
| tcn_avg_int_err | tcn_close_to_int | tcn_close_to_avg
| tcn_avg_close_to_int | tcn_match | tcn_match_and_avg_at_int | tcn_gain
| tcn_loss | tcn_cna
| mcn | mcn_avg | mcn_int | mcn_int_err | mcn_spread | mcn_avg_int
| mcn_avg_int_err | mcn_close_to_int | mcn_close_to_avg
| mcn_avg_close_to_int | mcn_match | mcn_match_and_avg_at_int | mcn_gain
| mcn_loss | mcn_cna
| match_both | match_both_and_large_enough
| match_both_and_large_enough_and_cna | is_homdel | is_cna | large_enough
| tcn_int_err_term | mcn_int_err_term.

Inductive sample_var := pl | z | homdel_mb | n_cna_segments_per_sample.

Inductive global_var :=
| tcn_error_clonal | mcn_error_clonal | avg_ploidy | n_clonal.

Inductive var :=
| Cell (f : cell_var) (t s : string)
| allmatch (s : string)
| Sample (f : sample_var) (t : string)
| Global (f : global_var).

(** A declared variable; [ub = None] is the default upper bound
    [float('inf')]. *)
Record vardecl := {
  v_id : var;
  v_type : vtype;
  v_lb : Q;
  v_ub : option Q
}.

(** [addVar]/[addVars] default to [lb=0.0, ub=float('inf')]. *)
Definition default_lb : Q := 0.
Definition default_ub : option Q := None.

(** A solution gives every variable a value; a linear expression is read
    through its value under a solution. *)
Definition assignment := var -> Q.
Definition expr := assignment -> Q.

(** [gb.quicksum]: the sum of the terms; on exact rationals the order of
    the additions does not matter. *)
Definition quicksum (terms : list expr) : expr :=
  fun a => fold_right (fun e acc => e a + acc) 0 terms.

Inductive sense := LESS_EQUAL | GREATER_EQUAL | EQUAL.

Inductive constr :=
| Lin (lhs : expr) (sn : sense) (rhs : expr)
| Indicator (binvar : var) (binval : Q) (lhs : expr) (sn : sense) (rhs : Q)
| And_ (resvar : var) (args : list var)
| Or_ (resvar : var) (args : list var).

Record objective := {
  o_expr : expr;
  o_priority : Z;
  o_weight : Q;
  o_name : string
}.

Inductive model_sense := MINIMIZE | MAXIMIZE.

Record model := {
  vars : list vardecl;
  constrs : list constr;
  objectives : list (nat * objective);
  ModelSense : model_sense;
  PoolSolutions : Z
}.

(** [gb.Model(env=env)]: no variables, no constraints, one zero objective
    to minimise, a pool of 10 solutions. *)
Definition new_model : model :=
  {| vars := []; constrs := []; objectives := [];
     ModelSense := MINIMIZE; PoolSolutions := 10 |}.

(** ** What the solver takes the model to mean *)

Definition cmp (sn : sense) (x y : Q) : bool :=
  match sn with
  | LESS_EQUAL => Qle_bool x y
  | GREATER_EQUAL => Qle_bool y x
  | EQUAL => Qeq_bool x y
  end.

Definition is_integral (x : Q) : bool := Qeq_bool x (inject_Z (Qfloor x)).

Definition is_true (a : assignment) (b : var) : bool := Qeq_bool (a b) 1.

Definition bit (b : bool) : Q := if b then 1 else 0.

(** A linear constraint compares both sides; an indicator constraint
    binds its linear part only when the binary has the stated value; an
    AND/OR constraint fixes the result to the conjunction/disjunction. *)
Definition holds (a : assignment) (c : constr) : bool :=
  match c with
  | Lin lhs sn rhs => cmp sn (lhs a) (rhs a)
  | Indicator b binval lhs sn rhs =>
      if Qeq_bool (a b) binval then cmp sn (lhs a) rhs else true
  | And_ r args => Qeq_bool (a r) (bit (forallb (is_true a) args))
  | Or_ r args => Qeq_bool (a r) (bit (existsb (is_true a) args))
  end.

Definition within (a : assignment) (d : vardecl) : bool :=
  let x := a (v_id d) in
  match v_type d with
  | CONTINUOUS =>
      Qle_bool (v_lb d) x
      && match v_ub d with None => true | Some u => Qle_bool x u end
  | INTEGER =>
      Qle_bool (v_lb d) x
      && match v_ub d with None => true | Some u => Qle_bool x u end
      && is_integral x
  | BINARY =>
      Qle_bool (v_lb d) x
      && match v_ub d with None => true | Some u => Qle_bool x u end
      && (Qeq_bool x 0 || Qeq_bool x 1)
  end.

Definition feasible (m : model) (a : assignment) : bool :=
  forallb (within a) (vars m) && forallb (holds a) (constrs m).

(** ** The modelling calls, as updates of the model under construction *)

Inductive error :=
| OSError | IndexError | ValueError | KeyError | ZeroDivisionError
| GurobiError.

Definition M (A : Type) : Type := model -> model * (error + A).

Definition ret {A} (x : A) : M A := fun m => (m, inr x).

Definition bind {A B} (c : M A) (f : A -> M B) : M B :=
  fun m =>
    match c m with
    | (m', inl e) => (m', inl e)
    | (m', inr x) => f x m'
    end.

Definition lift {A} (r : error + A) : M A := fun m => (m, r).

Declare Scope model_scope.
Delimit Scope model_scope with model.
Notation "x <- c ;; k" := (bind c (fun x => k))
  (at level 61, c at next level, right associativity) : model_scope.
Notation "c ;; k" := (bind c (fun _ => k))
  (at level 61, right associativity) : model_scope.

Fixpoint forM_ {A} (l : list A) (body : A -> M unit) : M unit :=
  match l with
  | [] => ret tt
  | x :: rest => bind (body x) (fun _ => forM_ rest body)
  end.

Definition add_vars (ds : list vardecl) : M unit :=
  fun m =>
    ({| vars := vars m ++ ds; constrs := constrs m;
        objectives := objectives m; ModelSense := ModelSense m;
        PoolSolutions := PoolSolutions m |}, inr tt).

Definition addVar (vt : vtype) (lb : Q) (ub : option Q) (name : var) : M unit :=
  add_vars [ {| v_id := name; v_type := vt; v_lb := lb; v_ub := ub |} ].

(** [addVars(I, ...)]: one variable per index, in index order. *)
Definition addVars1 (I : list string) (vt : vtype) (lb : Q) (ub : option Q)
    (name : string -> var) : M unit :=
  add_vars (map (fun i => {| v_id := name i; v_type := vt;
                             v_lb := lb; v_ub := ub |}) I).

(** [addVars(I, J, ...)]: one variable per pair, first index outermost. *)
Definition addVars2 (I J : list string) (vt : vtype) (lb : Q) (ub : option Q)
    (name : string -> string -> var) : M unit :=
  add_vars (flat_map (fun i =>
              map (fun j => {| v_id := name i j; v_type := vt;
                               v_lb := lb; v_ub := ub |}) J) I).

Definition add_constr (c : constr) : M unit :=
  fun m =>
    ({| vars := vars m; constrs := constrs m ++ [c];
        objectives := objectives m; ModelSense := ModelSense m;
        PoolSolutions := PoolSolutions m |}, inr tt).

Definition addConstr (lhs : expr) (sn : sense) (rhs : expr) : M unit :=
  add_constr (Lin lhs sn rhs).

Definition addGenConstrIndicator (binvar : var) (binval : Q) (lhs : expr)
    (sn : sense) (rhs : Q) : M unit :=
  add_constr (Indicator binvar binval lhs sn rhs).

Definition addGenConstrAnd (resvar : var) (args : list var) : M unit :=
  add_constr (And_ resvar args).

Definition addGenConstrOr (resvar : var) (args : list var) : M unit :=
  add_constr (Or_ resvar args).

(** [setObjectiveN(expr, index, priority, weight, name)] replaces the
    whole objective stored at [index]: the objectives of a model are
    numbered, and a second call with the same index overwrites the
    first. *)
Definition set_at (index : nat) (o : objective)
    (os : list (nat * objective)) : list (nat * objective) :=
  filter (fun io => negb (Nat.eqb (fst io) index)) os ++ [(index, o)].

Definition setObjectiveN (e : expr) (index : nat) (priority : Z) (weight : Q)
    (name : string) : M unit :=
  fun m =>
    ({| vars := vars m; constrs := constrs m;
        objectives := set_at index {| o_expr := e; o_priority := priority;
                                      o_weight := weight; o_name := name |}
                             (objectives m);
        ModelSense := ModelSense m;
        PoolSolutions := PoolSolutions m |}, inr tt).

Definition setModelSense (sn : model_sense) : M unit :=
  fun m =>
    ({| vars := vars m; constrs := constrs m; objectives := objectives m;
        ModelSense := sn; PoolSolutions := PoolSolutions m |}, inr tt).

Definition setPoolSolutions (n : Z) : M unit :=
  fun m =>
    ({| vars := vars m; constrs := constrs m; objectives := objectives m;
        ModelSense := ModelSense m; PoolSolutions := n |}, inr tt).

(** ** Reading the objectives back

    Objectives are grouped by priority: a higher priority is optimised
    first; objectives of one priority are blended by their weights. *)
Definition NumObj (m : model) : nat := List.length (objectives m).

Definition priorities (m : model) : list Z :=
  nodup Z.eq_dec (map (fun io => o_priority (snd io)) (objectives m)).

Definition level_value (m : model) (priority : Z) : expr :=
  fun a =>
    fold_right (fun io acc =>
                  if Z.eqb (o_priority (snd io)) priority
                  then o_weight (snd io) * o_expr (snd io) a + acc
                  else acc)
               0 (objectives m).

(** ** What a construction step adds

    The steps that declare variables and add constraints only append to
    the model; [extend] is that append, and [out_vars], [out_constrs] and
    [result] read what a step does on the solver's empty model. *)
Definition extend (m : model) (vs : list vardecl) (cs : list constr) : model :=
  {| vars := vars m ++ vs; constrs := constrs m ++ cs;
     objectives := objectives m; ModelSense := ModelSense m;
     PoolSolutions := PoolSolutions m |}.

Definition out_vars {A} (c : M A) : list vardecl := vars (fst (c new_model)).
Definition out_constrs {A} (c : M A) : list constr :=
  constrs (fst (c new_model)).
Definition result {A} (c : M A) : error + A := snd (c new_model).

Definition Uniform {A} (c : M A) : Prop :=
  forall m, c m = (extend m (out_vars c) (out_constrs c), result c).

(** A step that declares no variable. *)
Definition NoVars {A} (c : M A) : Prop :=
  forall m, vars (fst (c m)) = vars m.

(** A step that succeeds and adds [nv] variables and [nc] constraints. *)
Definition Counts {A} (c : M A) (nv nc : nat) : Prop :=
  Uniform c /\ (exists x, result c = inr x)
  /\ List.length (out_vars c) = nv /\ List.length (out_constrs c) = nc.

End Model.

(** * The function [CNAlign]: inputs, licence file, model construction *)

Module CNAlign.
Import Model.
Local Open Scope model_scope.

(** ** Text helpers of the licence reader *)

(** The ASCII characters [str.rstrip()] removes. *)
Definition is_space (ch : ascii) : bool :=
  let n := nat_of_ascii ch in
  ((9 <=? n) && (n <=? 13) || (28 <=? n) && (n <=? 32))%nat.

Fixpoint rstrip (line : string) : string :=
  match line with
  | EmptyString => EmptyString
  | String ch rest =>
      match rstrip rest with
      | EmptyString => if is_space ch then EmptyString
                       else String ch EmptyString
      | r => String ch r
      end
  end.

(** [line.split(sep)] for a one-character separator. *)
Fixpoint split (sep : ascii) (line : string) : list string :=
  match line with
  | EmptyString => [EmptyString]
  | String ch rest =>
      if Ascii.eqb ch sep then EmptyString :: split sep rest
      else match split sep rest with
           | [] => [String ch EmptyString]
           | w :: ws => String ch w :: ws
           end
  end.

(** Whether a character occurs in a string, and whether a string is made
    of whitespace only. *)
Fixpoint mentions (ch : ascii) (s : string) : bool :=
  match s with
  | EmptyString => false
  | String c rest => Ascii.eqb c ch || mentions ch rest
  end.


Record license := {
  WLSACCESSID : string;
  WLSSECRET : string;
  LICENSEID : Z
}.

(** What the function takes from outside itself: the float power
    [2**x] at a finite [x] (a value beyond the largest float stands for
    the result [inf]), the builtin [int(s)] ([None] when it raises
    [ValueError]), whether [gb.Env(params=...)] accepts the credentials,
    whether Gurobi takes a constraint whose constant is [nan] or
    infinite, and what [DataFrame.round(6)] makes of one entry. *)
Class Platform := {
  pow2 : Q -> Q;
  py_int : string -> option Z;
  gb_Env : license -> bool;
  gb_constant : Float.float -> bool;
  round6 : Q -> Q
}.

(** ** The input table *)

(** One row of [dat]; [F] is the type of the BAF column: [option Q] on
    input ([None] is NaN), [Q] once NaN has been recoded. *)
Record row {F : Type} := {
  sample : string;
  segment : string;
  logR : Q;
  BAF : F;
  GC : Q;
  mb : Q
}.
Arguments row : clear implicits.

(** [Series.unique()]: the distinct values in order of first appearance. *)
Fixpoint unique_from (seen : list string) (l : list string) : list string :=
  match l with
  | [] => []
  | x :: rest =>
      if existsb (String.eqb x) seen then unique_from seen rest
      else x :: unique_from (x :: seen) rest
  end.

Definition unique (l : list string) : list string := unique_from [] l.

(** [dat.loc[np.isnan(dat['BAF']),'BAF'] = -9] *)
Definition recode_row (r : row (option Q)) : row Q :=
  {| sample := sample r; segment := segment r; logR := logR r;
     BAF := match BAF r with None => -9 | Some b => b end;
     GC := GC r; mb := mb r |}.

Definition recode (dat : list (row (option Q))) : list (row Q) :=
  map recode_row dat.

(** A table with every BAF equal to the sentinel replaced by a missing
    value, and a recoded table with every such BAF written [-9]. *)
Definition sentinel_to_missing (r : row (option Q)) : row (option Q) :=
  {| sample := sample r; segment := segment r; logR := logR r;
     BAF := match BAF r with
            | Some b => if Qeq_bool b (-9) then None else Some b
            | None => None
            end;
     GC := GC r; mb := mb r |}.

Definition canonical_sentinel (r : row Q) : row Q :=
  {| sample := sample r; segment := segment r; logR := logR r;
     BAF := if Qeq_bool (BAF r) (-9) then -9 else BAF r;
     GC := GC r; mb := mb r |}.

(** [dat.loc[t,s]] on the (sample, segment) index: the row of the pair;
    [KeyError] when there is none; with several rows the lookup yields a
    frame, on which the first use as a number raises. *)
Definition loc (dat : list (row Q)) (t s : string) : error + row Q :=
  match filter (fun r => String.eqb (sample r) t && String.eqb (segment r) s)
               dat with
  | [] => inl KeyError
  | [r] => inr r
  | _ => inl GurobiError
  end.

Definition fmap {A B} (f : A -> B) (r : error + A) : error + B :=
  match r with inl e => inl e | inr x => inr (f x) end.

Fixpoint traverse {A B} (f : A -> error + B) (l : list A) : error + list B :=
  match l with
  | [] => inr []
  | x :: rest =>
      match f x with
      | inl e => inl e
      | inr y => fmap (cons y) (traverse f rest)
      end
  end.

(** ** The arguments of [CNAlign] other than [dat] and the licence *)
Record args := {
  min_ploidy : Q; max_ploidy : Q;
  min_purity : Q; max_purity : Q;
  min_aligned_seg_mb : Q; max_homdel_mb : Q;
  delta_tcn_to_int : Q; delta_tcn_to_avg : Q; delta_tcnavg_to_int : Q;
  delta_mcn_to_int : Q; delta_mcn_to_avg : Q; delta_mcnavg_to_int : Q;
  mcn_weight : Q; rho : Q; timeout : Q;
  min_cna_segments_per_sample : Q;
  obj2_clonalonly : bool;
  sol_count : Z
}.

Definition of_nat (n : nat) : Q := inject_Z (Z.of_nat n).

(** The same arguments with another [rho]. *)
Definition with_rho (p : args) (r : Q) : args :=
  {| min_ploidy := min_ploidy p; max_ploidy := max_ploidy p;
     min_purity := min_purity p; max_purity := max_purity p;
     min_aligned_seg_mb := min_aligned_seg_mb p;
     max_homdel_mb := max_homdel_mb p;
     delta_tcn_to_int := delta_tcn_to_int p;
     delta_tcn_to_avg := delta_tcn_to_avg p;
     delta_tcnavg_to_int := delta_tcnavg_to_int p;
     delta_mcn_to_int := delta_mcn_to_int p;
     delta_mcn_to_avg := delta_mcn_to_avg p;
     delta_mcnavg_to_int := delta_mcnavg_to_int p;
     mcn_weight := mcn_weight p; rho := r; timeout := timeout p;
     min_cna_segments_per_sample := min_cna_segments_per_sample p;
     obj2_clonalonly := obj2_clonalonly p;
     sol_count := sol_count p |}.

(** In a solution, the samples whose cell at segment [s] has
    [match_both], [large_enough] and [is_cna] all set, and their number. *)
Definition eligible (a : assignment) (s t : string) : bool :=
  is_true a (Cell match_both t s) && is_true a (Cell large_enough t s)
  && is_true a (Cell is_cna t s).

Definition eligible_count (a : assignment) (Samples : list string)
    (s : string) : nat :=
  List.length (filter (eligible a s) Samples).

(** [p'] asks no more than [p]: wider ranges for ploidy and purity,
    wider tolerances, shorter segments, more deleted length and fewer
    altered segments allowed, a lower quorum, the same error mode. *)
Definition relaxes (p p' : args) : Prop :=
  min_ploidy p' <= min_ploidy p /\ max_ploidy p <= max_ploidy p'
  /\ 0 < min_purity p' /\ min_purity p' <= min_purity p
  /\ 0 < max_purity p /\ max_purity p <= max_purity p'
  /\ min_aligned_seg_mb p' <= min_aligned_seg_mb p
  /\ max_homdel_mb p <= max_homdel_mb p'
  /\ delta_tcn_to_int p <= delta_tcn_to_int p'
  /\ delta_tcn_to_avg p <= delta_tcn_to_avg p'
  /\ delta_tcnavg_to_int p <= delta_tcnavg_to_int p'
  /\ delta_mcn_to_int p <= delta_mcn_to_int p'
  /\ delta_mcn_to_avg p <= delta_mcn_to_avg p'
  /\ delta_mcnavg_to_int p <= delta_mcnavg_to_int p'
  /\ rho p' <= rho p
  /\ min_cna_segments_per_sample p' <= min_cna_segments_per_sample p
  /\ obj2_clonalonly p' = obj2_clonalonly p.

(** A solution with every [is_homdel] flag cleared and every [homdel_mb]
    at zero, the other variables as they are. *)
Definition without_homdel (a : assignment) : assignment :=
  fun v =>
    match v with
    | Cell is_homdel _ _ => 0
    | Sample homdel_mb _ => 0
    | _ => a v
    end.

(** [1/x] on floats raises on zero. *)
Definition recip (x : Q) : error + Q :=
  if Qeq_bool x 0 then inl ZeroDivisionError else inr (1 / x).

Section Build.
Context `{Platform}.

(** Lines 36-43: [gurobi_license] is [None] when the file cannot be
    opened, otherwise its lines. *)
Definition entry (lines : list string) (i : nat) : error + string :=
  match nth_error lines i with
  | None => inl IndexError
  | Some line =>
      match nth_error (split "=" line) 1 with
      | None => inl IndexError
      | Some v => inr v
      end
  end.

Definition read_license (gurobi_license : option (list string))
  : error + license :=
  match gurobi_license with
  | None => inl OSError
  | Some file =>
      let lines := map rstrip file in
      match entry lines 3 with
      | inl e => inl e
      | inr id =>
          match entry lines 4 with
          | inl e => inl e
          | inr secret =>
              match entry lines 5 with
              | inl e => inl e
              | inr lid =>
                  match py_int lid with
                  | None => inl ValueError
                  | Some n => inr {| WLSACCESSID := id; WLSSECRET := secret;
                                     LICENSEID := n |}
                  end
              end
          end
      end
  end.

(** Lines 117-179: the declarations. *)
Definition declare (p : args) (Samples Segments : list string) : M unit :=
  let n_Samples := List.length Samples in
  let n_Segments := List.length Segments in
  addVars2 Samples Segments CONTINUOUS default_lb default_ub (Cell n1) ;;
  addVars2 Samples Segments CONTINUOUS default_lb default_ub (Cell tcn) ;;
  addVars2 Samples Segments CONTINUOUS default_lb default_ub (Cell tcn_avg) ;;
  addVars2 Samples Segments INTEGER default_lb default_ub (Cell tcn_int) ;;
  addVars2 Samples Segments CONTINUOUS 0 default_ub (Cell tcn_int_err) ;;
  addVars2 Samples Segments CONTINUOUS 0 default_ub (Cell tcn_spread) ;;
  addVars2 Samples Segments INTEGER 0 default_ub (Cell tcn_avg_int) ;;
  addVars2 Samples Segments CONTINUOUS 0 default_ub (Cell tcn_avg_int_err) ;;

  addVars2 Samples Segments BINARY default_lb default_ub (Cell tcn_close_to_int) ;;
  addVars2 Samples Segments BINARY default_lb default_ub (Cell tcn_close_to_avg) ;;
  addVars2 Samples Segments BINARY default_lb default_ub (Cell tcn_avg_close_to_int) ;;
  addVars2 Samples Segments BINARY default_lb default_ub (Cell tcn_match) ;;
  addVars2 Samples Segments BINARY default_lb default_ub (Cell tcn_match_and_avg_at_int) ;;
  addVars2 Samples Segments BINARY default_lb default_ub (Cell tcn_gain) ;;
  addVars2 Samples Segments BINARY default_lb default_ub (Cell tcn_loss) ;;
  addVars2 Samples Segments BINARY default_lb default_ub (Cell tcn_cna) ;;
  addVar CONTINUOUS 0 default_ub (Global tcn_error_clonal) ;;

  addVars2 Samples Segments CONTINUOUS default_lb default_ub (Cell mcn) ;;
  addVars2 Samples Segments CONTINUOUS default_lb default_ub (Cell mcn_avg) ;;
  addVars2 Samples Segments INTEGER default_lb default_ub (Cell mcn_int) ;;
  addVars2 Samples Segments CONTINUOUS 0 default_ub (Cell mcn_int_err) ;;
  addVars2 Samples Segments CONTINUOUS 0 default_ub (Cell mcn_spread) ;;
  addVars2 Samples Segments INTEGER 0 default_ub (Cell mcn_avg_int) ;;
  addVars2 Samples Segments CONTINUOUS 0 default_ub (Cell mcn_avg_int_err) ;;

  addVars2 Samples Segments BINARY default_lb default_ub (Cell mcn_close_to_int) ;;
  addVars2 Samples Segments BINARY default_lb default_ub (Cell mcn_close_to_avg) ;;
  addVars2 Samples Segments BINARY default_lb default_ub (Cell mcn_avg_close_to_int) ;;
  addVars2 Samples Segments BINARY default_lb default_ub (Cell mcn_match) ;;
  addVars2 Samples Segments BINARY default_lb default_ub (Cell mcn_match_and_avg_at_int) ;;
  addVars2 Samples Segments BINARY default_lb default_ub (Cell mcn_gain) ;;
  addVars2 Samples Segments BINARY default_lb default_ub (Cell mcn_loss) ;;
  addVars2 Samples Segments BINARY default_lb default_ub (Cell mcn_cna) ;;
  addVar CONTINUOUS 0 default_ub (Global mcn_error_clonal) ;;

  addVars2 Samples Segments BINARY default_lb default_ub (Cell match_both) ;;
  addVars2 Samples Segments BINARY default_lb default_ub (Cell match_both_and_large_enough) ;;
  addVars2 Samples Segments BINARY default_lb default_ub (Cell match_both_and_large_enough_and_cna) ;;
  addVars2 Samples Segments BINARY default_lb default_ub (Cell is_homdel) ;;
  addVars2 Samples Segments BINARY default_lb default_ub (Cell is_cna) ;;
  addVars2 Samples Segments BINARY default_lb default_ub (Cell large_enough) ;;

  addVars1 Segments BINARY default_lb default_ub allmatch ;;

  addVars1 Samples CONTINUOUS (min_ploidy p) (Some (max_ploidy p)) (Sample pl) ;;
  z_lb <- lift (recip (max_purity p)) ;;
  z_ub <- lift (recip (min_purity p)) ;;
  addVars1 Samples CONTINUOUS z_lb (Some z_ub) (Sample z) ;;
  addVars1 Samples CONTINUOUS 0 (Some (max_homdel_mb p)) (Sample homdel_mb) ;;
  addVars1 Samples INTEGER (min_cna_segments_per_sample p)
           (Some (of_nat n_Segments)) (Sample n_cna_segments_per_sample) ;;

  addVar CONTINUOUS (min_ploidy p) (Some (max_ploidy p)) (Global avg_ploidy) ;;

  (if Nat.eqb n_Samples 0 then lift (inl ZeroDivisionError) else ret tt) ;;
  addConstr (fun a => a (Global avg_ploidy)) EQUAL
            (fun a => quicksum (map (fun t a => a (Sample pl t)) Samples) a
                      / of_nat n_Samples) ;;

  addVar INTEGER 0 (Some (of_nat n_Segments)) (Global n_clonal).

(** Lines 185-295: the body of the loop over segments and samples. *)
Definition cell (dat : list (row Q)) (p : args) (Samples : list string)
    (t s : string) : M unit :=
  let n_Samples := List.length Samples in
  r <- lift (fmap logR (loc dat t s)) ;;
  b <- lift (fmap BAF (loc dat t s)) ;;
  g <- lift (fmap GC (loc dat t s)) ;;
  let c := pow2 r in
  let c1 := pow2 (r + 1) in

  l <- lift (fmap mb (loc dat t s)) ;;
  addGenConstrIndicator (Cell large_enough t s) 1 (fun _ => l)
                        GREATER_EQUAL (min_aligned_seg_mb p) ;;

  wt <- (if negb (Qeq_bool b (-9)) then
           addConstr (fun a => a (Cell n1 t s)) EQUAL
             (fun a => - b * c * a (Sample pl t) + b * c1
                       - b * c1 * a (Sample z t) + c * a (Sample pl t) - c1
                       + c1 * a (Sample z t) + g - g * a (Sample z t) - 1
                       + a (Sample z t)) ;;
           addConstr (fun a => a (Cell mcn t s)) EQUAL
             (fun a => b * c * a (Sample pl t) - b * c1
                       + b * c1 * a (Sample z t) + 1 - a (Sample z t)) ;;
           ret (g, g - 1)
         else
           addConstr (fun a => a (Cell n1 t s)) EQUAL
             (fun a => a (Sample z t) * c * 2 + c * a (Sample pl t) - 2 * c
                       - g * a (Sample z t) + g) ;;
           addConstr (fun a => a (Cell mcn t s)) EQUAL (fun _ => 0) ;;
           ret (g, 0)) ;;
  let tcn_wt_copies := fst wt in
  let mcn_wt_copies := snd wt in

  addConstr (fun a => a (Cell tcn t s)) EQUAL
            (fun a => a (Cell n1 t s) + a (Cell mcn t s)) ;;

  (* TCN *)
  addConstr (fun a => a (Cell tcn_int t s)) LESS_EQUAL
            (fun a => a (Cell tcn t s) + (1#2)) ;;
  addConstr (fun a => a (Cell tcn_int t s)) GREATER_EQUAL
            (fun a => a (Cell tcn t s) - (1#2)) ;;
  addConstr (fun a => a (Cell tcn_int_err t s)) GREATER_EQUAL
            (fun a => a (Cell tcn_int t s) - a (Cell tcn t s)) ;;
  addConstr (fun a => a (Cell tcn_int_err t s)) GREATER_EQUAL
            (fun a => - a (Cell tcn_int t s) + a (Cell tcn t s)) ;;
  addGenConstrIndicator (Cell tcn_close_to_int t s) 1
            (fun a => a (Cell tcn_int_err t s)) LESS_EQUAL (delta_tcn_to_int p) ;;

  addConstr (fun a => a (Cell tcn_avg t s)) EQUAL
            (fun a => quicksum (map (fun t' a => a (Cell tcn t' s)) Samples) a
                      / of_nat n_Samples) ;;
  addConstr (fun a => a (Cell tcn_spread t s)) GREATER_EQUAL
            (fun a => a (Cell tcn_avg t s) - a (Cell tcn t s)) ;;
  addConstr (fun a => a (Cell tcn_spread t s)) GREATER_EQUAL
            (fun a => - a (Cell tcn_avg t s) + a (Cell tcn t s)) ;;
  addGenConstrIndicator (Cell tcn_close_to_avg t s) 1
            (fun a => a (Cell tcn_spread t s)) LESS_EQUAL (delta_tcn_to_avg p) ;;

  addConstr (fun a => a (Cell tcn_avg_int t s)) LESS_EQUAL
            (fun a => a (Cell tcn_avg t s) + (1#2)) ;;
  addConstr (fun a => a (Cell tcn_avg_int t s)) GREATER_EQUAL
            (fun a => a (Cell tcn_avg t s) - (1#2)) ;;
  addConstr (fun a => a (Cell tcn_avg_int_err t s)) GREATER_EQUAL
            (fun a => a (Cell tcn_avg t s) - a (Cell tcn_avg_int t s)) ;;
  addConstr (fun a => a (Cell tcn_avg_int_err t s)) GREATER_EQUAL
            (fun a => - a (Cell tcn_avg t s) + a (Cell tcn_avg_int t s)) ;;
  addGenConstrIndicator (Cell tcn_avg_close_to_int t s) 1
            (fun a => a (Cell tcn_avg_int_err t s)) LESS_EQUAL
            (delta_tcnavg_to_int p) ;;

  addGenConstrAnd (Cell tcn_match t s)
            [Cell tcn_close_to_int t s; Cell tcn_close_to_avg t s] ;;
  addGenConstrAnd (Cell tcn_match_and_avg_at_int t s)
            [Cell tcn_match t s; Cell tcn_avg_close_to_int t s] ;;

  addGenConstrIndicator (Cell tcn_gain t s) 1
            (fun a => a (Cell tcn_int t s)) GREATER_EQUAL (tcn_wt_copies + 1) ;;
  addGenConstrIndicator (Cell tcn_loss t s) 1
            (fun a => a (Cell tcn_int t s)) LESS_EQUAL (tcn_wt_copies - 1) ;;
  addGenConstrOr (Cell tcn_cna t s) [Cell tcn_gain t s; Cell tcn_loss t s] ;;

  (* MCN *)
  addConstr (fun a => a (Cell mcn_int t s)) LESS_EQUAL
            (fun a => a (Cell mcn t s) + (1#2)) ;;
  addConstr (fun a => a (Cell mcn_int t s)) GREATER_EQUAL
            (fun a => a (Cell mcn t s) - (1#2)) ;;
  addConstr (fun a => a (Cell mcn_int_err t s)) GREATER_EQUAL
            (fun a => a (Cell mcn_int t s) - a (Cell mcn t s)) ;;
  addConstr (fun a => a (Cell mcn_int_err t s)) GREATER_EQUAL
            (fun a => - a (Cell mcn_int t s) + a (Cell mcn t s)) ;;
  addGenConstrIndicator (Cell mcn_close_to_int t s) 1
            (fun a => a (Cell mcn_int_err t s)) LESS_EQUAL (delta_mcn_to_int p) ;;

  addConstr (fun a => a (Cell mcn_avg t s)) EQUAL
            (fun a => quicksum (map (fun t' a => a (Cell mcn t' s)) Samples) a
                      / of_nat n_Samples) ;;
  addConstr (fun a => a (Cell mcn_spread t s)) GREATER_EQUAL
            (fun a => a (Cell mcn_avg t s) - a (Cell mcn t s)) ;;
  addConstr (fun a => a (Cell mcn_spread t s)) GREATER_EQUAL
            (fun a => - a (Cell mcn_avg t s) + a (Cell mcn t s)) ;;
  addGenConstrIndicator (Cell mcn_close_to_avg t s) 1
            (fun a => a (Cell mcn_spread t s)) LESS_EQUAL (delta_mcn_to_avg p) ;;

  addConstr (fun a => a (Cell mcn_avg_int t s)) LESS_EQUAL
            (fun a => a (Cell mcn_avg t s) + (1#2)) ;;
  addConstr (fun a => a (Cell mcn_avg_int t s)) GREATER_EQUAL
            (fun a => a (Cell mcn_avg t s) - (1#2)) ;;
  addConstr (fun a => a (Cell mcn_avg_int_err t s)) GREATER_EQUAL
            (fun a => a (Cell mcn_avg t s) - a (Cell mcn_avg_int t s)) ;;
  addConstr (fun a => a (Cell mcn_avg_int_err t s)) GREATER_EQUAL
            (fun a => - a (Cell mcn_avg t s) + a (Cell mcn_avg_int t s)) ;;
  addGenConstrIndicator (Cell mcn_avg_close_to_int t s) 1
            (fun a => a (Cell mcn_avg_int_err t s)) LESS_EQUAL
            (delta_mcnavg_to_int p) ;;

  addGenConstrAnd (Cell mcn_match t s)
            [Cell mcn_close_to_int t s; Cell mcn_close_to_avg t s] ;;
  addGenConstrAnd (Cell mcn_match_and_avg_at_int t s)
            [Cell mcn_match t s; Cell mcn_avg_close_to_int t s] ;;

  addGenConstrIndicator (Cell mcn_gain t s) 1
            (fun a => a (Cell mcn_int t s)) GREATER_EQUAL (mcn_wt_copies + 1) ;;
  addGenConstrIndicator (Cell mcn_loss t s) 1
            (fun a => a (Cell mcn_int t s)) LESS_EQUAL (mcn_wt_copies - 1) ;;
  addGenConstrOr (Cell mcn_cna t s) [Cell mcn_gain t s; Cell mcn_loss t s] ;;

  (* combined TCN and MCN *)
  addGenConstrAnd (Cell match_both t s)
            [Cell tcn_match_and_avg_at_int t s;
             Cell mcn_match_and_avg_at_int t s] ;;
  addGenConstrOr (Cell is_cna t s) [Cell tcn_cna t s; Cell mcn_cna t s] ;;
  addGenConstrIndicator (Cell is_homdel t s) 1
            (fun a => a (Cell tcn t s)) LESS_EQUAL (1#2) ;;
  addGenConstrAnd (Cell match_both_and_large_enough t s)
            [Cell match_both t s; Cell large_enough t s] ;;
  addGenConstrAnd (Cell match_both_and_large_enough_and_cna t s)
            [Cell match_both_and_large_enough t s; Cell is_cna t s].

(** Lines 297-298. *)
Definition segment_level (p : args) (Samples : list string) (s : string)
  : M unit :=
  addGenConstrIndicator (allmatch s) 1
    (quicksum (map (fun t a => a (Cell match_both_and_large_enough_and_cna t s))
                   Samples))
    GREATER_EQUAL (rho p * of_nat (List.length Samples)).

(** Lines 301-303. *)
Definition sample_level (dat : list (row Q)) (Segments : list string)
    (t : string) : M unit :=
  mbs <- lift (traverse (fun s => fmap mb (loc dat t s)) Segments) ;;
  addConstr (fun a => a (Sample homdel_mb t)) EQUAL
    (quicksum (map (fun sl a => snd sl * a (Cell is_homdel t (fst sl)))
                   (combine Segments mbs))) ;;
  addConstr (fun a => a (Sample n_cna_segments_per_sample t)) EQUAL
    (quicksum (map (fun s a => a (Cell is_cna t s)) Segments)).

Definition pairs (Samples Segments : list string) : list (string * string) :=
  flat_map (fun t => map (fun s => (t, s)) Segments) Samples.

(** Lines 311-333. *)
Definition errors (p : args) (Samples Segments : list string) : M unit :=
  addConstr (fun a => a (Global n_clonal)) EQUAL
            (quicksum (map (fun s a => a (allmatch s)) Segments)) ;;
  if negb (obj2_clonalonly p) then
    addConstr (fun a => a (Global tcn_error_clonal)) EQUAL
      (quicksum (map (fun ts a => a (Cell tcn_int_err (fst ts) (snd ts)))
                     (pairs Samples Segments))) ;;
    addConstr (fun a => a (Global mcn_error_clonal)) EQUAL
      (quicksum (map (fun ts a => a (Cell mcn_int_err (fst ts) (snd ts)))
                     (pairs Samples Segments)))
  else
    addVars2 Samples Segments CONTINUOUS default_lb default_ub
             (Cell tcn_int_err_term) ;;
    addVars2 Samples Segments CONTINUOUS default_lb default_ub
             (Cell mcn_int_err_term) ;;
    forM_ Samples (fun t =>
      forM_ Segments (fun s =>
        addConstr (fun a => a (Cell tcn_int_err_term t s)) LESS_EQUAL
                  (fun a => a (Cell tcn_int_err t s)) ;;
        addConstr (fun a => a (Cell tcn_int_err_term t s)) LESS_EQUAL
                  (fun a => a (allmatch s)) ;;
        addConstr (fun a => a (Cell tcn_int_err_term t s)) GREATER_EQUAL
                  (fun a => a (Cell tcn_int_err t s) - (1 - a (allmatch s))) ;;
        addConstr (fun a => a (Cell tcn_int_err_term t s)) GREATER_EQUAL
                  (fun _ => 0) ;;
        addConstr (fun a => a (Cell mcn_int_err_term t s)) LESS_EQUAL
                  (fun a => a (Cell mcn_int_err t s)) ;;
        addConstr (fun a => a (Cell mcn_int_err_term t s)) LESS_EQUAL
                  (fun a => a (allmatch s)) ;;
        addConstr (fun a => a (Cell mcn_int_err_term t s)) GREATER_EQUAL
                  (fun a => a (Cell mcn_int_err t s) - (1 - a (allmatch s))) ;;
        addConstr (fun a => a (Cell mcn_int_err_term t s)) GREATER_EQUAL
                  (fun _ => 0))) ;;
    addConstr (fun a => a (Global tcn_error_clonal)) EQUAL
      (quicksum (map (fun ts a => a (Cell tcn_int_err_term (fst ts) (snd ts)))
                     (pairs Samples Segments))) ;;
    addConstr (fun a => a (Global mcn_error_clonal)) EQUAL
      (quicksum (map (fun ts a => a (Cell mcn_int_err_term (fst ts) (snd ts)))
                     (pairs Samples Segments))).

(** Lines 336-340. *)
Definition set_objectives (p : args) : M unit :=
  setObjectiveN (fun a => a (Global n_clonal)) 0 2 1 "N clonal segs" ;;
  setObjectiveN (fun a => - a (Global tcn_error_clonal)) 1 1
                (1 - mcn_weight p) "TCN error" ;;
  setObjectiveN (fun a => - a (Global mcn_error_clonal)) 1 1
                (mcn_weight p) "MCN error" ;;
  setModelSense MAXIMIZE.

(** Lines 117-333: the variables and the constraints. *)
Definition build (dat : list (row Q)) (p : args)
    (Samples Segments : list string) : M unit :=
  declare p Samples Segments ;;
  forM_ Segments (fun s => forM_ Samples (fun t => cell dat p Samples t s)) ;;
  forM_ Segments (segment_level p Samples) ;;
  forM_ Samples (sample_level dat Segments) ;;
  errors p Samples Segments.

(** The model [CNAlign] hands to [model.optimize], lines 36-341; the
    construction starts from the solver's empty model. *)
Definition CNAlign (dat : list (row (option Q)))
    (gurobi_license : option (list string)) (p : args) : M unit :=
  params <- lift (read_license gurobi_license) ;;
  let Samples := unique (map sample dat) in
  let Segments := unique (map segment dat) in
  let dat := recode dat in
  (if gb_Env params then ret tt else lift (inl GurobiError)) ;;
  setPoolSolutions (sol_count p) ;;
  build dat p Samples Segments ;;
  set_objectives p.

(** The declarations and constraints of every block of [build] hold
    under [a]. *)
Definition blocks_hold (a : assignment) (dat : list (row Q)) (p : args)
    (Samples Segments : list string) : Prop :=
  (forall v, In v (out_vars (declare p Samples Segments)) ->
             within a v = true)
  /\ (forall v, In v (out_vars (errors p Samples Segments)) ->
                within a v = true)
  /\ (forall c, In c (out_constrs (declare p Samples Segments)) ->
                holds a c = true)
  /\ (forall t s, In t Samples -> In s Segments ->
      forall c, In c (out_constrs (cell dat p Samples t s)) ->
                holds a c = true)
  /\ (forall s c, In s Segments ->
      In c (out_constrs (segment_level p Samples s)) -> holds a c = true)
  /\ (forall t c, In t Samples ->
      In c (out_constrs (sample_level dat Segments t)) -> holds a c = true)
  /\ (forall c, In c (out_constrs (errors p Samples Segments)) ->
                holds a c = true).

End Build.
End CNAlign.

(** * The function on a table as it arrives

    [CNAlign.cell] reads a table of finite numbers.  A table read from a
    file may hold [nan] and infinities, and [2**logR] may be infinite;
    Gurobi refuses a constraint with a coefficient that is [nan] or
    infinite ([GurobiError]).  This module follows lines 82-333 on such a
    table, to tell which runs end in an exception, and where.  The
    constraints a run adds are those of [CNAlign.cell], written with the
    rationals the finite floats denote. *)

Module Raw.
Import Model CNAlign.
Local Open Scope model_scope.

(** One row of [dat]. *)
Record row := {
  sample : string;
  segment : string;
  logR : Float.float;
  BAF : Float.float;
  GC : Float.float;
  mb : Float.float
}.

(** [dat.loc[np.isnan(dat['BAF']),'BAF'] = -9] *)
Definition recode_row (r : row) : row :=
  {| sample := sample r; segment := segment r; logR := logR r;
     BAF := if Float.isnan (BAF r) then Float.Num (-9) else BAF r;
     GC := GC r; mb := mb r |}.

Definition recode (dat : list row) : list row := map recode_row dat.

(** [dat.loc[t,s]], as [CNAlign.loc]. *)
Definition loc (dat : list row) (t s : string) : error + row :=
  match filter (fun r => String.eqb (sample r) t && String.eqb (segment r) s)
               dat with
  | [] => inl KeyError
  | [r] => inr r
  | _ => inl GurobiError
  end.

(** The coefficients of a linear expression reach Gurobi when the
    constraint is added. *)
Definition coefficients (numbers : list Float.float) : M unit :=
  if forallb Float.is_finite numbers then ret tt
  else lift (inl GurobiError).

(** A table of finite numbers as a table of floats, before and after
    [CNAlign.recode]. *)
Definition of_row (r : CNAlign.row (option Q)) : row :=
  {| sample := CNAlign.sample r; segment := CNAlign.segment r;
     logR := Float.Num (CNAlign.logR r);
     BAF := match CNAlign.BAF r with
            | Some b => Float.Num b
            | None => Float.nan
            end;
     GC := Float.Num (CNAlign.GC r); mb := Float.Num (CNAlign.mb r) |}.

Definition of_recoded (r : CNAlign.row Q) : row :=
  {| sample := CNAlign.sample r; segment := CNAlign.segment r;
     logR := Float.Num (CNAlign.logR r); BAF := Float.Num (CNAlign.BAF r);
     GC := Float.Num (CNAlign.GC r); mb := Float.Num (CNAlign.mb r) |}.

Section Build.
Context `{Platform}.

(** [2**x] on a float. *)
Definition pow2_float (x : Float.float) : Float.float :=
  match x with
  | Float.Num r => Float.of_Q (pow2 r)
  | Float.nan => Float.nan
  | Float.inf => Float.inf
  | Float.neg_inf => Float.Num 0
  end.

(** Lines 185-295: the body of the loop over segments and samples. *)
Definition cell (dat : list row) (p : args) (Samples : list string)
    (t s : string) : M unit :=
  let n_Samples := List.length Samples in
  r <- lift (fmap logR (loc dat t s)) ;;
  b <- lift (fmap BAF (loc dat t s)) ;;
  g <- lift (fmap GC (loc dat t s)) ;;
  let c := pow2_float r in
  let c1 := pow2_float (Float.add r (Float.Num 1)) in

  l <- lift (fmap mb (loc dat t s)) ;;
  (* [l] is the constant side of the indicator constraint *)
  (if Float.is_finite l || gb_constant l then ret tt
   else lift (inl GurobiError)) ;;
  addGenConstrIndicator (Cell large_enough t s) 1 (fun _ => Float.to_Q l)
                        GREATER_EQUAL (min_aligned_seg_mb p) ;;

  wt <- (if negb (Float.eqb b (Float.Num (-9))) then
           coefficients [Float.mul (Float.opp b) c; Float.mul b c1;
                         c; c1; g] ;;
           (let b := Float.to_Q b in
            let c := Float.to_Q c in
            let c1 := Float.to_Q c1 in
            let g := Float.to_Q g in
            addConstr (fun a => a (Cell n1 t s)) EQUAL
              (fun a => - b * c * a (Sample pl t) + b * c1
                        - b * c1 * a (Sample z t) + c * a (Sample pl t) - c1
                        + c1 * a (Sample z t) + g - g * a (Sample z t) - 1
                        + a (Sample z t)) ;;
            addConstr (fun a => a (Cell mcn t s)) EQUAL
              (fun a => b * c * a (Sample pl t) - b * c1
                        + b * c1 * a (Sample z t) + 1 - a (Sample z t)) ;;
            ret (g, g - 1))
         else
           coefficients [Float.mul c (Float.Num 2); c; g] ;;
           (let c := Float.to_Q c in
            let g := Float.to_Q g in
            addConstr (fun a => a (Cell n1 t s)) EQUAL
              (fun a => a (Sample z t) * c * 2 + c * a (Sample pl t) - 2 * c
                        - g * a (Sample z t) + g) ;;
            addConstr (fun a => a (Cell mcn t s)) EQUAL (fun _ => 0) ;;
            ret (g, 0))) ;;
  let tcn_wt_copies := fst wt in
  let mcn_wt_copies := snd wt in

  addConstr (fun a => a (Cell tcn t s)) EQUAL
            (fun a => a (Cell n1 t s) + a (Cell mcn t s)) ;;

  (* TCN *)
  addConstr (fun a => a (Cell tcn_int t s)) LESS_EQUAL
            (fun a => a (Cell tcn t s) + (1#2)) ;;
  addConstr (fun a => a (Cell tcn_int t s)) GREATER_EQUAL
            (fun a => a (Cell tcn t s) - (1#2)) ;;
  addConstr (fun a => a (Cell tcn_int_err t s)) GREATER_EQUAL
            (fun a => a (Cell tcn_int t s) - a (Cell tcn t s)) ;;
  addConstr (fun a => a (Cell tcn_int_err t s)) GREATER_EQUAL
            (fun a => - a (Cell tcn_int t s) + a (Cell tcn t s)) ;;
  addGenConstrIndicator (Cell tcn_close_to_int t s) 1
            (fun a => a (Cell tcn_int_err t s)) LESS_EQUAL (delta_tcn_to_int p) ;;

  addConstr (fun a => a (Cell tcn_avg t s)) EQUAL
            (fun a => quicksum (map (fun t' a => a (Cell tcn t' s)) Samples) a
                      / of_nat n_Samples) ;;
  addConstr (fun a => a (Cell tcn_spread t s)) GREATER_EQUAL
            (fun a => a (Cell tcn_avg t s) - a (Cell tcn t s)) ;;
  addConstr (fun a => a (Cell tcn_spread t s)) GREATER_EQUAL
            (fun a => - a (Cell tcn_avg t s) + a (Cell tcn t s)) ;;
  addGenConstrIndicator (Cell tcn_close_to_avg t s) 1
            (fun a => a (Cell tcn_spread t s)) LESS_EQUAL (delta_tcn_to_avg p) ;;

  addConstr (fun a => a (Cell tcn_avg_int t s)) LESS_EQUAL
            (fun a => a (Cell tcn_avg t s) + (1#2)) ;;
  addConstr (fun a => a (Cell tcn_avg_int t s)) GREATER_EQUAL
            (fun a => a (Cell tcn_avg t s) - (1#2)) ;;
  addConstr (fun a => a (Cell tcn_avg_int_err t s)) GREATER_EQUAL
            (fun a => a (Cell tcn_avg t s) - a (Cell tcn_avg_int t s)) ;;
  addConstr (fun a => a (Cell tcn_avg_int_err t s)) GREATER_EQUAL
            (fun a => - a (Cell tcn_avg t s) + a (Cell tcn_avg_int t s)) ;;
  addGenConstrIndicator (Cell tcn_avg_close_to_int t s) 1
            (fun a => a (Cell tcn_avg_int_err t s)) LESS_EQUAL
            (delta_tcnavg_to_int p) ;;

  addGenConstrAnd (Cell tcn_match t s)
            [Cell tcn_close_to_int t s; Cell tcn_close_to_avg t s] ;;
  addGenConstrAnd (Cell tcn_match_and_avg_at_int t s)
            [Cell tcn_match t s; Cell tcn_avg_close_to_int t s] ;;

  addGenConstrIndicator (Cell tcn_gain t s) 1
            (fun a => a (Cell tcn_int t s)) GREATER_EQUAL (tcn_wt_copies + 1) ;;
  addGenConstrIndicator (Cell tcn_loss t s) 1
            (fun a => a (Cell tcn_int t s)) LESS_EQUAL (tcn_wt_copies - 1) ;;
  addGenConstrOr (Cell tcn_cna t s) [Cell tcn_gain t s; Cell tcn_loss t s] ;;

  (* MCN *)
  addConstr (fun a => a (Cell mcn_int t s)) LESS_EQUAL
            (fun a => a (Cell mcn t s) + (1#2)) ;;
  addConstr (fun a => a (Cell mcn_int t s)) GREATER_EQUAL
            (fun a => a (Cell mcn t s) - (1#2)) ;;
  addConstr (fun a => a (Cell mcn_int_err t s)) GREATER_EQUAL
            (fun a => a (Cell mcn_int t s) - a (Cell mcn t s)) ;;
  addConstr (fun a => a (Cell mcn_int_err t s)) GREATER_EQUAL
            (fun a => - a (Cell mcn_int t s) + a (Cell mcn t s)) ;;
  addGenConstrIndicator (Cell mcn_close_to_int t s) 1
            (fun a => a (Cell mcn_int_err t s)) LESS_EQUAL (delta_mcn_to_int p) ;;

  addConstr (fun a => a (Cell mcn_avg t s)) EQUAL
            (fun a => quicksum (map (fun t' a => a (Cell mcn t' s)) Samples) a
                      / of_nat n_Samples) ;;
  addConstr (fun a => a (Cell mcn_spread t s)) GREATER_EQUAL
            (fun a => a (Cell mcn_avg t s) - a (Cell mcn t s)) ;;
  addConstr (fun a => a (Cell mcn_spread t s)) GREATER_EQUAL
            (fun a => - a (Cell mcn_avg t s) + a (Cell mcn t s)) ;;
  addGenConstrIndicator (Cell mcn_close_to_avg t s) 1
            (fun a => a (Cell mcn_spread t s)) LESS_EQUAL (delta_mcn_to_avg p) ;;

  addConstr (fun a => a (Cell mcn_avg_int t s)) LESS_EQUAL
            (fun a => a (Cell mcn_avg t s) + (1#2)) ;;
  addConstr (fun a => a (Cell mcn_avg_int t s)) GREATER_EQUAL
            (fun a => a (Cell mcn_avg t s) - (1#2)) ;;
  addConstr (fun a => a (Cell mcn_avg_int_err t s)) GREATER_EQUAL
            (fun a => a (Cell mcn_avg t s) - a (Cell mcn_avg_int t s)) ;;
  addConstr (fun a => a (Cell mcn_avg_int_err t s)) GREATER_EQUAL
            (fun a => - a (Cell mcn_avg t s) + a (Cell mcn_avg_int t s)) ;;
  addGenConstrIndicator (Cell mcn_avg_close_to_int t s) 1
            (fun a => a (Cell mcn_avg_int_err t s)) LESS_EQUAL
            (delta_mcnavg_to_int p) ;;

  addGenConstrAnd (Cell mcn_match t s)
            [Cell mcn_close_to_int t s; Cell mcn_close_to_avg t s] ;;
  addGenConstrAnd (Cell mcn_match_and_avg_at_int t s)
            [Cell mcn_match t s; Cell mcn_avg_close_to_int t s] ;;

  addGenConstrIndicator (Cell mcn_gain t s) 1
            (fun a => a (Cell mcn_int t s)) GREATER_EQUAL (mcn_wt_copies + 1) ;;
  addGenConstrIndicator (Cell mcn_loss t s) 1
            (fun a => a (Cell mcn_int t s)) LESS_EQUAL (mcn_wt_copies - 1) ;;
  addGenConstrOr (Cell mcn_cna t s) [Cell mcn_gain t s; Cell mcn_loss t s] ;;

  (* combined TCN and MCN *)
  addGenConstrAnd (Cell match_both t s)
            [Cell tcn_match_and_avg_at_int t s;
             Cell mcn_match_and_avg_at_int t s] ;;
  addGenConstrOr (Cell is_cna t s) [Cell tcn_cna t s; Cell mcn_cna t s] ;;
  addGenConstrIndicator (Cell is_homdel t s) 1
            (fun a => a (Cell tcn t s)) LESS_EQUAL (1#2) ;;
  addGenConstrAnd (Cell match_both_and_large_enough t s)
            [Cell match_both t s; Cell large_enough t s] ;;
  addGenConstrAnd (Cell match_both_and_large_enough_and_cna t s)
            [Cell match_both_and_large_enough t s; Cell is_cna t s].

(** Lines 301-303: the lengths are the coefficients of the first sum. *)
Definition sample_level (dat : list row) (Segments : list string)
    (t : string) : M unit :=
  mbs <- lift (traverse (fun s => fmap mb (loc dat t s)) Segments) ;;
  coefficients mbs ;;
  addConstr (fun a => a (Sample homdel_mb t)) EQUAL
    (quicksum (map (fun sl a => snd sl * a (Cell is_homdel t (fst sl)))
                   (combine Segments (map Float.to_Q mbs)))) ;;
  addConstr (fun a => a (Sample n_cna_segments_per_sample t)) EQUAL
    (quicksum (map (fun s a => a (Cell is_cna t s)) Segments)).

(** Lines 117-333: the variables and the constraints. *)
Definition build (dat : list row) (p : args)
    (Samples Segments : list string) : M unit :=
  declare p Samples Segments ;;
  forM_ Segments (fun s => forM_ Samples (fun t => cell dat p Samples t s)) ;;
  forM_ Segments (segment_level p Samples) ;;
  forM_ Samples (sample_level dat Segments) ;;
  errors p Samples Segments.

(** Lines 36-341, from the solver's empty model. *)
Definition CNAlign (dat : list row)
    (gurobi_license : option (list string)) (p : args) : M unit :=
  params <- lift (read_license gurobi_license) ;;
  let Samples := unique (map sample dat) in
  let Segments := unique (map segment dat) in
  let dat := recode dat in
  (if gb_Env params then ret tt else lift (inl GurobiError)) ;;
  setPoolSolutions (sol_count p) ;;
  build dat p Samples Segments ;;
  set_objectives p.

(** The coefficients of lines 198-204 for one row (after recoding) are
    all finite. *)
Definition cell_coefficients (x : row) : bool :=
  let c := pow2_float (logR x) in
  let c1 := pow2_float (Float.add (logR x) (Float.Num 1)) in
  if negb (Float.eqb (BAF x) (Float.Num (-9))) then
    forallb Float.is_finite
            [Float.mul (Float.opp (BAF x)) c; Float.mul (BAF x) c1;
             c; c1; GC x]
  else forallb Float.is_finite [Float.mul c (Float.Num 2); c; GC x].

(** Gurobi takes every coefficient the row contributes: those of lines
    198-204 and its length at line 302. *)
Definition accepted (x : row) : bool :=
  Float.is_finite (mb x) && cell_coefficients x.

(** The numbers of a row of rationals stay in range as floats: its
    coefficients and [logR + 1] are finite. *)
Definition in_range (y : CNAlign.row Q) : Prop :=
  accepted (of_recoded y) = true
  /\ Float.is_finite (Float.of_Q (CNAlign.logR y + 1)) = true.

End Build.

End Raw.

(** * The solution-pool table (lines 352-427) *)

Module Pool.
Import Model.

Definition cell_name (f : cell_var) : string :=
  match f with
  | n1 => "n1" | tcn => "tcn" | tcn_avg => "tcn_avg" | tcn_int => "tcn_int"
  | tcn_int_err => "tcn_int_err" | tcn_spread => "tcn_spread"
  | tcn_avg_int => "tcn_avg_int" | tcn_avg_int_err => "tcn_avg_int_err"
  | tcn_close_to_int => "tcn_close_to_int"
  | tcn_close_to_avg => "tcn_close_to_avg"
  | tcn_avg_close_to_int => "tcn_avg_close_to_int"
  | tcn_match => "tcn_match"
  | tcn_match_and_avg_at_int => "tcn_match_and_avg_at_int"
  | tcn_gain => "tcn_gain" | tcn_loss => "tcn_loss" | tcn_cna => "tcn_cna"
  | mcn => "mcn" | mcn_avg => "mcn_avg" | mcn_int => "mcn_int"
  | mcn_int_err => "mcn_int_err" | mcn_spread => "mcn_spread"
  | mcn_avg_int => "mcn_avg_int" | mcn_avg_int_err => "mcn_avg_int_err"
  | mcn_close_to_int => "mcn_close_to_int"
  | mcn_close_to_avg => "mcn_close_to_avg"
  | mcn_avg_close_to_int => "mcn_avg_close_to_int"
  | mcn_match => "mcn_match"
  | mcn_match_and_avg_at_int => "mcn_match_and_avg_at_int"
  | mcn_gain => "mcn_gain" | mcn_loss => "mcn_loss" | mcn_cna => "mcn_cna"
  | match_both => "match_both"
  | match_both_and_large_enough => "match_both_and_large_enough"
  | match_both_and_large_enough_and_cna =>
      "match_both_and_large_enough_and_cna"
  | is_homdel => "is_homdel" | is_cna => "is_cna"
  | large_enough => "large_enough"
  | tcn_int_err_term => "tcn_int_err_term"
  | mcn_int_err_term => "mcn_int_err_term"
  end.

Definition sample_name (f : sample_var) : string :=
  match f with
  | pl => "pl" | z => "z" | homdel_mb => "homdel_mb"
  | n_cna_segments_per_sample => "n_cna_segments_per_sample"
  end.

Definition global_name (f : global_var) : string :=
  match f with
  | tcn_error_clonal => "tcn_error_clonal"
  | mcn_error_clonal => "mcn_error_clonal"
  | avg_ploidy => "avg_ploidy" | n_clonal => "n_clonal"
  end.

(** [addVars] names a variable [name[i]] or [name[i,j]]. *)
Definition VarName (v : var) : string :=
  match v with
  | Cell f t s =>
      (cell_name f ++ String "[" (t ++ String "," (s ++ "]")))%string
  | allmatch s => String.append "allmatch" (String "[" (s ++ "]"))%string
  | Sample f t => (sample_name f ++ String "[" (t ++ "]"))%string
  | Global f => global_name f
  end.

Definition getVars (m : model) : list var := map v_id (vars m).

Definition getVarByName (m : model) (name : string) : option var :=
  find (fun v => String.eqb (VarName v) name) (getVars m).

Fixpoint startswith (s pre : string) {struct pre} : bool :=
  match pre with
  | EmptyString => true
  | String c pre' =>
      match s with
      | EmptyString => false
      | String d s' => Ascii.eqb c d && startswith s' pre'
      end
  end.

(** [Series.replace('z\\[', 'pu[', regex=True)]: every occurrence of
    [z[] becomes [pu[]. *)
Fixpoint replace_z (s : string) : string :=
  match s with
  | EmptyString => EmptyString
  | String ch rest =>
      match rest with
      | String ch' rest' =>
          if Ascii.eqb ch "z" && Ascii.eqb ch' "["
          then String "p" (String "u" (String "[" (replace_z rest')))
          else String ch (replace_z rest)
      | EmptyString => String ch EmptyString
      end
  end.

(** A data frame with a [Variable] column and the columns [Solution_1],
    [Solution_2], ... in this order, each as long as [Variable]. *)
Record frame := {
  Variable_ : list string;
  Solution_ : list (list Q)
}.

Inductive error := AttributeError | ZeroDivisionError.

Fixpoint traverse {A B} (f : A -> error + B) (l : list A) : error + list B :=
  match l with
  | [] => inr []
  | x :: rest =>
      match f x with
      | inl e => inl e
      | inr y =>
          match traverse f rest with
          | inl e => inl e
          | inr ys => inr (y :: ys)
          end
      end
  end.

(** [pd.concat([f, g], axis=0, ignore_index=True)]: the frames carry the
    same column names in the same order, so the columns are joined
    position by position. *)
Definition concat2 (f g : frame) : frame :=
  {| Variable_ := Variable_ f ++ Variable_ g;
     Solution_ := map (fun cc => fst cc ++ snd cc)
                      (combine (Solution_ f) (Solution_ g)) |}.

(** One block of the table: the variables whose name starts with
    [pre], one column of [.Xn] values per solution. *)
Definition block (m : model) (pool : list assignment) (pre : string)
    (rename : string -> string) (Xn : assignment -> var -> error + Q)
  : error + frame :=
  let group := filter (fun v => startswith (VarName v) pre) (getVars m) in
  match traverse (fun sol => traverse (Xn sol) group) pool with
  | inl e => inl e
  | inr cols => inr {| Variable_ := map (fun v => rename (VarName v)) group;
                       Solution_ := cols |}
  end.

Definition Xn (sol : assignment) (v : var) : error + Q := inr (sol v).

Definition inv_Xn (sol : assignment) (v : var) : error + Q :=
  if Qeq_bool (sol v) 0 then inl ZeroDivisionError else inr (1 / sol v).

Definition Xn_by_name (m : model) (sol : assignment) (name : string)
  : error + Q :=
  match getVarByName m name with
  | None => inl AttributeError
  | Some v => inr (sol v)
  end.

(** The objective rows: [Obj1] is the value of [n_clonal]; [Obj2] is
    recomputed from the two error variables. *)
Definition obj_column (m : model) (mcn_weight : Q) (sol : assignment)
  : error + list Q :=
  match Xn_by_name m sol "tcn_error_clonal" with
  | inl e => inl e
  | inr te =>
      match Xn_by_name m sol "mcn_error_clonal" with
      | inl e => inl e
      | inr me =>
          inr [ sol (Global n_clonal);
                - (1 - mcn_weight) * te - mcn_weight * me ]
      end
  end.

Definition obj_frame (m : model) (mcn_weight : Q) (pool : list assignment)
  : error + frame :=
  match traverse (obj_column m mcn_weight) pool with
  | inl e => inl e
  | inr cols => inr {| Variable_ := ["Obj1"; "Obj2"]%string;
                       Solution_ := cols |}
  end.

Section Round.
Context `{CNAlign.Platform}.

(** [out.round(6)]: every entry of the solution columns goes through the
    rounding of the data-frame library. *)
Definition round_frame (f : frame) : frame :=
  {| Variable_ := Variable_ f;
     Solution_ := map (map CNAlign.round6) (Solution_ f) |}.

(** The table [CNAlign] returns; [pool] lists the solver's solutions by
    [SolutionNumber], so [model.SolCount] is its length. *)
Definition ExtractSolutions (m : model) (mcn_weight : Q)
    (pool : list assignment) : error + frame :=
  match obj_frame m mcn_weight pool with
  | inl e => inl e
  | inr obj_df =>
  match block m pool "pl[" (fun n => n) Xn with
  | inl e => inl e
  | inr pl_df =>
  match block m pool "z[" replace_z inv_Xn with
  | inl e => inl e
  | inr pu_df =>
  match block m pool "allmatch[" (fun n => n) Xn with
  | inl e => inl e
  | inr allmatch_df =>
  match block m pool "tcn[" (fun n => n) Xn with
  | inl e => inl e
  | inr tcn_df =>
  match block m pool "mcn[" (fun n => n) Xn with
  | inl e => inl e
  | inr mcn_df =>
      inr (round_frame
             (concat2 obj_df (concat2 pl_df (concat2 pu_df
               (concat2 allmatch_df (concat2 tcn_df mcn_df))))))
  end end end end end end.

End Round.

(** The number of solution columns of a table. *)
Definition column_count (f : frame) : nat := List.length (Solution_ f).

End Pool.

(** * A small instance: one sample, two segments *)

Module Examples.
Import Model CNAlign.

(** Decimal digits, as [int] reads them. *)
Fixpoint digits (acc : Z) (s : string) : option Z :=
  match s with
  | EmptyString => Some acc
  | String ch rest =>
      let n := nat_of_ascii ch in
      if ((48 <=? n) && (n <=? 57))%nat
      then digits (10 * acc + Z.of_nat (n - 48))%Z rest
      else None
  end.

(** Rounding to 6 decimals the way numpy does it: times 1e6, to the
    nearest integer with a tie to the even one, divided by 1e6, each
    step a float operation.  The entries of the instance are far from
    the size at which the product is infinite. *)
Definition np_round6 (x : Q) : Q :=
  match Float.round64 (x * 1000000) with
  | Some y =>
      match Float.round64
              (inject_Z (Float.round_half_even y) / 1000000) with
      | Some v => v
      | None => x
      end
  | None => x
  end.

(** The platform of the instance: powers of two at integer exponents,
    [int] on digit strings, an environment that accepts every licence, a
    solver that refuses every constant that is [nan] or infinite, and
    numpy's rounding. *)
Definition platform : Platform :=
  {| pow2 := fun x => Qpower 2 (Qfloor x);
     py_int := fun s => match s with
                        | EmptyString => None
                        | _ => digits 0 s
                        end;
     gb_Env := fun _ => true;
     gb_constant := fun _ => false;
     round6 := np_round6 |}.

Definition license_file : option (list string) :=
  Some [ "# Gurobi WLS license file"; "# for the cluster";
         "# version 1"; "WLSACCESSID=0a1b2c  "; "WLSSECRET=s3cr3t";
         "LICENSEID=123456" ]%string.

(** A file without the three key lines. *)
Definition short_file : option (list string) :=
  Some [ "WLSACCESSID=0a1b2c"; "WLSSECRET=s3cr3t"; "LICENSEID=123456" ]%string.

(** Sample A: segment s1 is a balanced gain seen with its BAF, segment
    s2 has no BAF. *)
Definition dat : list (row (option Q)) :=
  [ {| sample := "A"; segment := "s1"; logR := 1; BAF := Some (1#2);
       GC := 2; mb := 10 |};
    {| sample := "A"; segment := "s2"; logR := 0; BAF := None;
       GC := 2; mb := 10 |} ].

(** The same table with the sentinel written in place of the missing
    BAF. *)
Definition dat_sentinel : list (row (option Q)) :=
  [ {| sample := "A"; segment := "s1"; logR := 1; BAF := Some (1#2);
       GC := 2; mb := 10 |};
    {| sample := "A"; segment := "s2"; logR := 0; BAF := Some (-9);
       GC := 2; mb := 10 |} ].





(** A deep loss signal with no BAF. *)
Definition dat_negative : list (row (option Q)) :=
  [ {| sample := "A"; segment := "s1"; logR := -3; BAF := None;
       GC := 2; mb := 10 |} ].

Definition arguments (rho_ : Q) : args :=
  {| min_ploidy := 1; max_ploidy := 4;
     min_purity := 1#2; max_purity := 1;
     min_aligned_seg_mb := 5; max_homdel_mb := 20;
     delta_tcn_to_int := 1#10; delta_tcn_to_avg := 1#10;
     delta_tcnavg_to_int := 1#10;
     delta_mcn_to_int := 1#10; delta_mcn_to_avg := 1#10;
     delta_mcnavg_to_int := 1#10;
     mcn_weight := 1#2; rho := rho_; timeout := 60;
     min_cna_segments_per_sample := 0;
     obj2_clonalonly := false;
     sol_count := 5 |}.

(** Purity pinned at one half, ploidy at two. *)
Definition arguments_half_pure : args :=
  {| min_ploidy := 2; max_ploidy := 2;
     min_purity := 1#2; max_purity := 1#2;
     min_aligned_seg_mb := 5; max_homdel_mb := 20;
     delta_tcn_to_int := 1#10; delta_tcn_to_avg := 1#10;
     delta_tcnavg_to_int := 1#10;
     delta_mcn_to_int := 1#10; delta_mcn_to_avg := 1#10;
     delta_mcnavg_to_int := 1#10;
     mcn_weight := 1#2; rho := 1#2; timeout := 60;
     min_cna_segments_per_sample := 0;
     obj2_clonalonly := false;
     sol_count := 5 |}.

(** Wider tolerances, a quorum of one half. *)
Definition arguments_relaxed : args :=
  {| min_ploidy := 1; max_ploidy := 5;
     min_purity := 1#4; max_purity := 1;
     min_aligned_seg_mb := 1; max_homdel_mb := 50;
     delta_tcn_to_int := 1#5; delta_tcn_to_avg := 1#5;
     delta_tcnavg_to_int := 1#5;
     delta_mcn_to_int := 1#5; delta_mcn_to_avg := 1#5;
     delta_mcnavg_to_int := 1#5;
     mcn_weight := 1#2; rho := 1#2; timeout := 60;
     min_cna_segments_per_sample := 0;
     obj2_clonalonly := false;
     sol_count := 5 |}.

(** The ploidy and purity ranges given upside down. *)
Definition arguments_swapped : args :=
  {| min_ploidy := 4; max_ploidy := 1;
     min_purity := 1; max_purity := 1#2;
     min_aligned_seg_mb := 5; max_homdel_mb := 20;
     delta_tcn_to_int := 1#10; delta_tcn_to_avg := 1#10;
     delta_tcnavg_to_int := 1#10;
     delta_mcn_to_int := 1#10; delta_mcn_to_avg := 1#10;
     delta_mcnavg_to_int := 1#10;
     mcn_weight := 1#2; rho := 1#2; timeout := 60;
     min_cna_segments_per_sample := 0;
     obj2_clonalonly := false;
     sol_count := 5 |}.

(** Ploidy 2 and purity 1 for sample A: s1 is 2+2 copies, s2 is 2 copies
    in total.  [clonal] is the value given to [allmatch[s1]] and to
    [n_clonal]. *)
Definition solution (clonal : Q) : assignment :=
  fun v =>
    match v with
    | Cell f t s =>
        if String.eqb s "s1" then
          match f with
          | n1 => 2 | tcn => 4 | tcn_avg => 4 | tcn_int => 4
          | tcn_avg_int => 4
          | mcn => 2 | mcn_avg => 2 | mcn_int => 2 | mcn_avg_int => 2
          | tcn_int_err | tcn_spread | tcn_avg_int_err
          | mcn_int_err | mcn_spread | mcn_avg_int_err => 0
          | tcn_loss | mcn_loss | is_homdel => 0
          | tcn_int_err_term | mcn_int_err_term => 0
          | _ => 1
          end
        else
          match f with
          | n1 => 2 | tcn => 2 | tcn_avg => 2 | tcn_int => 2
          | tcn_avg_int => 2
          | mcn => 0 | mcn_avg => 0 | mcn_int => 0 | mcn_avg_int => 0
          | tcn_int_err | tcn_spread | tcn_avg_int_err
          | mcn_int_err | mcn_spread | mcn_avg_int_err => 0
          | tcn_gain | tcn_loss | tcn_cna | mcn_gain | mcn_loss | mcn_cna
          | is_cna | is_homdel | match_both_and_large_enough_and_cna => 0
          | tcn_int_err_term | mcn_int_err_term => 0
          | _ => 1
          end
    | allmatch s => if String.eqb s "s1" then clonal else 0
    | Sample f t =>
        match f with
        | pl => 2 | z => 1 | homdel_mb => 0
        | n_cna_segments_per_sample => 1
        end
    | Global f =>
        match f with
        | tcn_error_clonal => 0 | mcn_error_clonal => 0
        | avg_ploidy => 2 | n_clonal => clonal
        end
    end.

(** The same cell values with a deviation of 1/20 recorded for the total
    copy number of s1. *)
Definition solution_with_errors : assignment :=
  fun v =>
    match v with
    | Global tcn_error_clonal => 1#20
    | Cell tcn_int_err t s => if String.eqb s "s1" then 1#20 else 0
    | _ => solution 1 v
    end.

(** The model built for the instance. *)
Definition built (rho_ : Q) : model :=
  fst (@CNAlign.CNAlign platform dat license_file (arguments rho_) new_model).

(** The model built for the deep loss at purity one half. *)
Definition built_negative : model :=
  fst (@CNAlign.CNAlign platform dat_negative license_file
         arguments_half_pure new_model).

(** The errors counted on clonal segments only. *)
Definition arguments_clonal_only : args :=
  {| min_ploidy := 1; max_ploidy := 4;
     min_purity := 1#2; max_purity := 1;
     min_aligned_seg_mb := 5; max_homdel_mb := 20;
     delta_tcn_to_int := 1#10; delta_tcn_to_avg := 1#10;
     delta_tcnavg_to_int := 1#10;
     delta_mcn_to_int := 1#10; delta_mcn_to_avg := 1#10;
     delta_mcnavg_to_int := 1#10;
     mcn_weight := 1#2; rho := 1; timeout := 60;
     min_cna_segments_per_sample := 0;
     obj2_clonalonly := true;
     sol_count := 5 |}.

Definition built_clonal_only : model :=
  fst (@CNAlign.CNAlign platform dat license_file arguments_clonal_only
         new_model).

Definition built_relaxed : model :=
  fst (@CNAlign.CNAlign platform dat license_file arguments_relaxed
         new_model).

(** The model built with the ranges upside down. *)
Definition built_swapped : model :=
  fst (@CNAlign.CNAlign platform dat license_file arguments_swapped
         new_model).

End Examples.

(** * Properties *)

Lemma Qlt_bool_iff (x y : Q) : Qlt_bool x y = true <-> x < y.
Proof.
  unfold Qlt_bool. rewrite negb_true_iff.
  split; intro H.
  - apply Qnot_le_lt. intro Hle. apply Qle_bool_iff in Hle. congruence.
  - destruct (Qle_bool y x) eqn:E; [|reflexivity].
    apply Qle_bool_iff in E. exfalso. apply (Qlt_not_le _ _ H E).
Qed.

Lemma Qlt_bool_false_iff (x y : Q) : Qlt_bool x y = false <-> y <= x.
Proof.
  unfold Qlt_bool. rewrite negb_false_iff. apply Qle_bool_iff.
Qed.

(** ** Rounding to a float *)

Section FloatFacts.
Import Float.

Lemma exp2_pos k : 0 < exp2 k.
Proof. apply Qpower_0_lt. reflexivity. Qed.

Lemma exp2_add a b : exp2 (a + b) == exp2 a * exp2 b.
Proof. apply Qpower_plus. discriminate. Qed.

Lemma exp2_le a b : (a <= b)%Z -> exp2 a <= exp2 b.
Proof. intros H. apply Qpower_le_compat_l; [exact H|]. discriminate. Qed.

Lemma exp2_lt a b : (a < b)%Z -> exp2 a < exp2 b.
Proof. intros H. apply Qpower_lt_compat_l; [exact H|]. reflexivity. Qed.

Lemma exp2_Z a : (0 <= a)%Z -> exp2 a == inject_Z (2 ^ a).
Proof. intros H. unfold exp2. rewrite Zpower_Qpower by exact H. reflexivity. Qed.

(** [ilog2] never overshoots. *)
Lemma ilog2_le x : 0 < x -> exp2 (ilog2 x) <= x.
Proof.
  intros Hx. unfold ilog2. cbv zeta.
  destruct (Qle_bool _ x) eqn:E; [apply Qle_bool_iff in E; exact E|].
  clear E. destruct x as [n d]. cbn [Qnum Qden].
  assert (Hn : (0 < n)%Z).
  { unfold Qlt in Hx. simpl in Hx. lia. }
  pose proof (Z.log2_spec n Hn) as [Ha _].
  pose proof (Z.log2_spec (Zpos d) (Pos2Z.is_pos d)) as [_ Hb].
  pose proof (Z.log2_nonneg n) as Na.
  pose proof (Z.log2_nonneg (Zpos d)) as Nb.
  set (a := Z.log2 n) in *. set (b := Z.log2 (Zpos d)) in *.
  replace (a - b - 1)%Z with (a - Z.succ b)%Z by lia.
  unfold exp2. rewrite Qpower_minus by discriminate.
  apply Qle_shift_div_r; [apply Qpower_0_lt; reflexivity|].
  fold (exp2 a). fold (exp2 (Z.succ b)).
  rewrite (exp2_Z a) by lia. rewrite (exp2_Z (Z.succ b)) by lia.
  unfold Qle, Qmult, inject_Z. cbn [Qnum Qden].
  rewrite !Z.mul_1_r, Pos.mul_1_r.
  assert (0 < 2 ^ a)%Z by (apply Z.pow_pos_nonneg; lia).
  nia.
Qed.

(** Rounding to the nearest integer stays within integer bounds. *)
Lemma round_half_even_between (u : Q) (K : Z) :
  - inject_Z K <= u -> u <= inject_Z K ->
  (- K <= round_half_even u <= K)%Z.
Proof.
  intros Hl Hu.
  pose proof (Qfloor_le u) as Hf. pose proof (Qlt_floor u) as Hc.
  assert (Hlo : (- K <= Qfloor u)%Z).
  { rewrite <- (Qfloor_Z (- K)). apply Qfloor_resp_le.
    rewrite inject_Z_opp. exact Hl. }
  assert (Hhi : (Qfloor u <= K)%Z).
  { rewrite <- (Qfloor_Z K). apply Qfloor_resp_le. exact Hu. }
  assert (Hup : 0 < u - inject_Z (Qfloor u) -> (Qfloor u + 1 <= K)%Z).
  { intros Hd. assert (Qfloor u < K)%Z; [|lia].
    rewrite Zlt_Qlt. lra. }
  unfold round_half_even. cbv zeta.
  destruct (Qlt_bool _ (1#2)) eqn:E1; [lia|].
  apply Qlt_bool_false_iff in E1.
  assert (Hd : 0 < u - inject_Z (Qfloor u)) by lra.
  specialize (Hup Hd).
  destruct (Qlt_bool (1#2) _); [lia|].
  destruct (Z.even _); lia.
Qed.

(** A float [m * 2^k] with a 53-bit [m] bounds the floats of all the
    numbers it bounds. *)
Lemma round64_bounded (x : Q) (m k : Z) :
  Z.log2 m = 52%Z -> (-1074 <= k)%Z -> (k + 53 <= 1024)%Z ->
  Qabs x <= inject_Z m * exp2 k ->
  exists y, round64 x = Some y /\ Qabs y <= inject_Z m * exp2 k.
Proof.
  intros Hm Hk Hk' Hx. unfold round64.
  destruct (Qeq_bool x 0) eqn:E0.
  { exists 0. split; [reflexivity|].
    eapply Qle_trans; [|exact Hx]. apply Qabs_nonneg. }
  cbv zeta.
  assert (Hm0 : (0 < m)%Z).
  { destruct m; simpl in Hm; try discriminate. lia. }
  pose proof (Z.log2_spec m Hm0) as [_ Hm53]. rewrite Hm in Hm53.
  assert (Hx0 : 0 < Qabs x).
  { destruct (Qlt_le_dec 0 (Qabs x)) as [H|H]; [exact H|].
    assert (Hz : x == 0).
    { apply Qabs_Qle_condition in H. lra. }
    apply Qeq_bool_iff in Hz. congruence. }
  pose proof (ilog2_le _ Hx0) as Hlog.
  set (l := ilog2 (Qabs x)) in *.
  assert (Hl : (l < k + 53)%Z).
  { destruct (Z_lt_le_dec l (k + 53)) as [H|H]; [exact H|exfalso].
    apply exp2_le in H. rewrite exp2_add in H.
    pose proof (exp2_pos k) as Pk.
    assert (inject_Z m < exp2 53).
    { rewrite (exp2_Z 53) by lia. rewrite <- Zlt_Qlt. exact Hm53. }
    assert (inject_Z m * exp2 k < exp2 53 * exp2 k).
    { apply Qmult_lt_compat_r; assumption. }
    lra. }
  set (e := Z.max (l - 52) (-1074)).
  assert (He : (e <= k)%Z) by lia.
  pose proof (exp2_pos e) as Pe.
  set (K := (m * 2 ^ (k - e))%Z).
  assert (HK : inject_Z K * exp2 e == inject_Z m * exp2 k).
  { unfold K. rewrite inject_Z_mult, <- (exp2_Z (k - e)) by lia.
    rewrite <- Qmult_assoc, <- exp2_add.
    replace (k - e + e)%Z with k by lia. reflexivity. }
  assert (Hu : - inject_Z K <= x / exp2 e /\ x / exp2 e <= inject_Z K).
  { apply Qabs_Qle_condition in Hx. destruct Hx as [Hx1 Hx2].
    rewrite <- HK in Hx1, Hx2. split.
    - apply Qle_shift_div_l; [exact Pe|]. lra.
    - apply Qle_shift_div_r; [exact Pe|]. lra. }
  destruct Hu as [Hu1 Hu2].
  pose proof (round_half_even_between _ _ Hu1 Hu2) as [Hr1 Hr2].
  set (r := round_half_even (x / exp2 e)) in *.
  assert (Hy : Qabs (inject_Z r * exp2 e) <= inject_Z m * exp2 k).
  { rewrite <- HK. apply Qabs_Qle_condition.
    rewrite Zle_Qle in Hr1, Hr2. rewrite inject_Z_opp in Hr1.
    split.
    - setoid_replace (- (inject_Z K * exp2 e)) with ((- inject_Z K) * exp2 e) by ring.
      apply Qmult_le_compat_r; [exact Hr1|]. apply Qlt_le_weak, Pe.
    - apply Qmult_le_compat_r; [exact Hr2|]. apply Qlt_le_weak, Pe. }
  destruct (Qle_bool (exp2 1024) _) eqn:Eo.
  { exfalso. apply Qle_bool_iff in Eo.
    assert (inject_Z m * exp2 k < exp2 1024); [|lra].
    eapply Qlt_le_trans; [|apply (exp2_le (53 + k)); lia].
    rewrite exp2_add. apply Qmult_lt_compat_r; [apply exp2_pos|].
    rewrite (exp2_Z 53) by lia. rewrite <- Zlt_Qlt. exact Hm53. }
  eexists. split; [reflexivity|exact Hy].
Qed.

End FloatFacts.

(** ** The stagnation callback *)

Section CallbackFacts.
Import Callback.

Lemma call_max_stagnation self now w :
  max_stagnation (fst (call self now w)) = max_stagnation self.
Proof.
  destruct w as [k | [cur|] | ]; simpl; try reflexivity.
  destruct (Qlt_bool cur GRB_INFINITY); [|reflexivity].
  destruct (differs cur (best_obj self)); [reflexivity|].
  destruct (_ && _); reflexivity.
Qed.

(** What a stop signal presupposes in the state it is emitted from. *)
Lemma call_stop self now w k :
  snd (call self now w) = Some k ->
  max_stagnation self < now - last_improve_time self
  /\ stagnated self = false /\ k = obj_count self
  /\ stagnated (fst (call self now w)) = true
  /\ resets self w = false.
Proof.
  destruct w as [c | [cur|] | ]; simpl; try discriminate.
  destruct (Qlt_bool cur GRB_INFINITY); [|discriminate].
  destruct (differs cur (best_obj self)); [discriminate|].
  destruct (Qlt_bool (max_stagnation self) (now - last_improve_time self)) eqn:Et;
    simpl; [|discriminate].
  destruct (stagnated self) eqn:Es; simpl; [discriminate|].
  intros [= <-]. apply Qlt_bool_iff in Et. auto.
Qed.

(** Within a level nothing clears the stagnated flag. *)
Lemma call_keeps_stagnated self now w :
  is_MULTIOBJ w = false -> stagnated self = true ->
  stagnated (fst (call self now w)) = true /\ snd (call self now w) = None.
Proof.
  intros Hw Hs. destruct w as [c | [cur|] | ]; simpl in *;
    try discriminate; auto.
  destruct (Qlt_bool cur GRB_INFINITY); auto.
  destruct (differs cur (best_obj self)); auto.
  rewrite Hs, andb_false_r. auto.
Qed.

Lemma run_cons self now w rest :
  run self ((now, w) :: rest) =
  (fst (run (fst (call self now w)) rest),
   match snd (call self now w) with
   | Some k => (now, k) :: snd (run (fst (call self now w)) rest)
   | None => snd (run (fst (call self now w)) rest)
   end).
Proof.
  simpl. destruct (call self now w) as [self' sig]. simpl.
  destruct (run self' rest) as [final sigs]. reflexivity.
Qed.

Lemma run_stagnated_silent evs : forall self,
  forallb (fun e => negb (is_MULTIOBJ (snd e))) evs = true ->
  stagnated self = true -> snd (run self evs) = [].
Proof.
  induction evs as [|[now w] rest IH]; intros self Hev Hs; [reflexivity|].
  simpl in Hev. apply andb_true_iff in Hev as [Hw Hrest].
  apply negb_true_iff in Hw.
  destruct (call_keeps_stagnated self now w Hw Hs) as [Hs' Hnone].
  rewrite run_cons, Hnone. simpl. apply IH; assumption.
Qed.

Lemma run_one_stop_per_level evs : forall self,
  forallb (fun e => negb (is_MULTIOBJ (snd e))) evs = true ->
  (List.length (snd (run self evs)) <= 1)%nat.
Proof.
  induction evs as [|[now w] rest IH]; intros self Hev; [simpl; lia|].
  pose proof Hev as Hev'. simpl in Hev'.
  apply andb_true_iff in Hev' as [Hw Hrest].
  rewrite run_cons. destruct (snd (call self now w)) as [k|] eqn:Ek; simpl.
  - apply call_stop in Ek as (_ & _ & _ & Hs' & _).
    rewrite (run_stagnated_silent rest _ Hrest Hs'). simpl. lia.
  - apply IH. assumption.
Qed.

Lemma run_stops_bound evs : forall self,
  (List.length (snd (run self evs))
   <= (if stagnated self then 0 else 1) + level_starts evs)%nat.
Proof.
  unfold level_starts.
  induction evs as [|[now w] rest IH]; intros self; [simpl; lia|].
  rewrite run_cons. specialize (IH (fst (call self now w))).
  cbn [filter snd]. destruct (is_MULTIOBJ w) eqn:Ew.
  - destruct w as [k| |]; try discriminate. cbn [call snd fst] in *.
    cbn [stagnated] in IH. cbn [List.length]. destruct (stagnated self); lia.
  - destruct (snd (call self now w)) as [k|] eqn:Ek.
    + apply call_stop in Ek as (_ & Hs & _ & Hs' & _).
      rewrite Hs' in IH. rewrite Hs. cbn [List.length]. lia.
    + destruct (stagnated self) eqn:Hs.
      * destruct (call_keeps_stagnated self now w Ew Hs) as [Hs' _].
        rewrite Hs' in IH. exact IH.
      * destruct (stagnated (fst (call self now w))); lia.
Qed.

Lemma call_quiet self now w :
  resets self w = false ->
  last_improve_time (fst (call self now w)) = last_improve_time self
  /\ best_obj (fst (call self now w)) = best_obj self.
Proof.
  destruct w as [c | [cur|] | ]; simpl; try discriminate; auto.
  destruct (Qlt_bool cur GRB_INFINITY); simpl; auto.
  destruct (differs cur (best_obj self)); simpl; [discriminate|].
  destruct (_ && _); auto.
Qed.

Lemma call_resets self now w :
  resets self w = true ->
  last_improve_time (fst (call self now w)) = now
  /\ snd (call self now w) = None.
Proof.
  destruct w as [c | [cur|] | ]; simpl; try discriminate; auto.
  intros Hr. apply andb_true_iff in Hr as [-> ->]. auto.
Qed.

Lemma run_quiet evs : forall self,
  quiet self evs = true ->
  last_improve_time (fst (run self evs)) = last_improve_time self
  /\ max_stagnation (fst (run self evs)) = max_stagnation self.
Proof.
  induction evs as [|[now w] rest IH]; intros self Hq; [auto|].
  simpl in Hq. apply andb_true_iff in Hq as [Hr Hq].
  apply negb_true_iff in Hr.
  rewrite run_cons. simpl.
  destruct (IH _ Hq) as [-> ->].
  rewrite call_max_stagnation. split; [|reflexivity].
  apply call_quiet; assumption.
Qed.

Lemma improves_differs cur best :
  improves_max cur best \/ improves_min cur best -> differs cur best = true.
Proof.
  destruct best as [b|]; [|reflexivity].
  unfold differs, improves_max, improves_min.
  destruct (Float.round64 (cur - b)) as [d|]; [|reflexivity].
  intros Hi. apply Qlt_bool_iff.
  pose proof (Qle_Qabs d) as Hp.
  pose proof (Qle_Qabs (- d)) as Hn.
  rewrite Qabs_opp in Hn.
  destruct Hi as [Hi|Hi]; lra.
Qed.

(** A report within [eps] of the stored best does not differ from it:
    [eps] is a float, so the float difference is within [eps] too. *)
Lemma differs_near c c1 : Qabs (c - c1) <= eps -> differs c (Fin c1) = false.
Proof.
  intros Hn. unfold differs.
  destruct (round64_bounded (c - c1) 5902958103587057 (-69)) as (d & -> & Hd);
    [reflexivity|lia|lia| |].
  - eapply Qle_trans; [exact Hn|]. vm_compute. discriminate.
  - apply Qlt_bool_false_iff. eapply Qle_trans; [exact Hd|].
    vm_compute. discriminate.
Qed.

End CallbackFacts.

Section CallbackClaims.
Import Callback.

(** C4 (as stated, refuted).  The claim: the stored best and the
    last-improvement time change only when the report improves on the
    stored best by more than 1e-5.  Under the maximising sense of the
    model a report of 5 against a stored best of 10 is worse, and under a
    minimising reading a report of 10 against a stored best of 5 is worse;
    both are taken over as the new best and restart the clock. *)
Lemma worse_report_is_taken_as_best :
  (~ improves_max 5 (best_obj at10)
   /\ best_obj (fst (call at10 7 (MIP (Some 5)))) = Fin 5
   /\ last_improve_time (fst (call at10 7 (MIP (Some 5)))) = 7)
  /\
  (~ improves_min 10 (best_obj at5)
   /\ best_obj (fst (call at5 7 (MIP (Some 10)))) = Fin 10
   /\ last_improve_time (fst (call at5 7 (MIP (Some 10)))) = 7).
Proof.
  repeat split; try (vm_compute; reflexivity).
  - vm_compute. discriminate.
  - vm_compute. discriminate.
Qed.

(** C4 (amended).  On a report below [GRB.INFINITY] the stored best and
    the last-improvement time are replaced by the report and the current
    time whenever the float difference between the report and the stored
    best is larger than the float 1e-5 in absolute value, in either
    direction (always against the initial [inf], and when the difference
    is infinite); both are left as they are when that difference is at
    most the float 1e-5 in absolute value. *)
Theorem report_updates_on_any_change self now cur :
  cur < GRB_INFINITY ->
  let self' := fst (call self now (MIP (Some cur))) in
  (best_obj self = PInf ->
   best_obj self' = Fin cur /\ last_improve_time self' = now)
  /\ (forall b, best_obj self = Fin b ->
      Float.round64 (cur - b) = None ->
      best_obj self' = Fin cur /\ last_improve_time self' = now)
  /\ (forall b d, best_obj self = Fin b ->
      Float.round64 (cur - b) = Some d -> eps < Qabs d ->
      best_obj self' = Fin cur /\ last_improve_time self' = now)
  /\ (forall b d, best_obj self = Fin b ->
      Float.round64 (cur - b) = Some d -> Qabs d <= eps ->
      best_obj self' = Fin b
      /\ last_improve_time self' = last_improve_time self).
Proof.
  intros Hfin. apply Qlt_bool_iff in Hfin. cbv zeta. unfold call.
  rewrite Hfin. split; [|split; [|split]].
  - intros Hb. rewrite Hb. cbn [differs fst best_obj last_improve_time]. auto.
  - intros b Hb Hr. rewrite Hb. unfold differs. rewrite Hr.
    cbn [fst best_obj last_improve_time]. auto.
  - intros b d Hb Hr Hd. apply Qlt_bool_iff in Hd. rewrite Hb.
    unfold differs. rewrite Hr, Hd.
    cbn [fst best_obj last_improve_time]. auto.
  - intros b d Hb Hr Hd. apply Qlt_bool_false_iff in Hd. rewrite Hb.
    unfold differs. rewrite Hr, Hd.
    destruct (_ && _); cbn [fst best_obj last_improve_time]; auto.
Qed.

Lemma report_updates_on_any_change_witness :
  (5 < GRB_INFINITY
   /\ exists d, Float.round64 (5 - 10) = Some d /\ eps < Qabs d
      /\ best_obj (fst (call at10 7 (MIP (Some 5)))) = Fin 5
      /\ last_improve_time (fst (call at10 7 (MIP (Some 5)))) = 7)
  /\ (eps < GRB_INFINITY
      /\ exists d, Float.round64 (eps - 0) = Some d /\ Qabs d <= eps
         /\ best_obj (fst (call at0 7 (MIP (Some eps)))) = Fin 0
         /\ last_improve_time (fst (call at0 7 (MIP (Some eps)))) = 0).
Proof.
  assert (Hfin : 5 < GRB_INFINITY) by (vm_compute; reflexivity).
  assert (Hfin' : eps < GRB_INFINITY) by (vm_compute; reflexivity).
  split.
  - split; [exact Hfin|].
    exists (-5629499534213120 # 1125899906842624).
    assert (Hr : Float.round64 (5 - 10)
                 = Some (-5629499534213120 # 1125899906842624))
      by (vm_compute; reflexivity).
    assert (Hd : eps < Qabs (-5629499534213120 # 1125899906842624))
      by (vm_compute; reflexivity).
    split; [exact Hr|]. split; [exact Hd|].
    exact (proj1 (proj2 (proj2 (report_updates_on_any_change at10 7 5 Hfin)))
                 10 _ eq_refl Hr Hd).
  - split; [exact Hfin'|].
    exists eps.
    assert (Hr : Float.round64 (eps - 0) = Some eps)
      by (vm_compute; reflexivity).
    assert (Hd : Qabs eps <= eps) by (vm_compute; discriminate).
    split; [exact Hr|]. split; [exact Hd|].
    exact (proj2 (proj2 (proj2 (report_updates_on_any_change at0 7 eps Hfin')))
                 0 _ eq_refl Hr Hd).
Defined.

(** C5.  (1) A run of invocations without a level start emits at most one
    stop signal, from whatever state it begins; (2) so any run emits at
    most one stop signal more than it has level starts.  (3) A stop
    signal is emitted only when more than [max_stagnation] seconds
    separate it from the invocation that last restarted the clock: a
    level start or a report that changed the stored best; (4) the same
    from the construction of the callback.  (5) A report that improves on
    the stored best, in either sense, restarts the clock and emits
    nothing.  (6) A level start sets the best to [inf], the time to now
    and clears the stagnated flag. *)
Theorem stagnation_controller :
  (forall self evs,
     forallb (fun e => negb (is_MULTIOBJ (snd e))) evs = true ->
     (List.length (snd (run self evs)) <= 1)%nat)
  /\ (forall seconds t0 evs,
        (List.length (snd (run (init seconds t0) evs))
         <= 1 + level_starts evs)%nat)
  /\ (forall self t0 e0 mid t1 e1 k,
        resets self e0 = true ->
        quiet (fst (call self t0 e0)) mid = true ->
        snd (call (fst (run self ((t0, e0) :: mid))) t1 e1) = Some k ->
        max_stagnation self < t1 - t0)
  /\ (forall seconds t0 mid t1 e1 k,
        quiet (init seconds t0) mid = true ->
        snd (call (fst (run (init seconds t0) mid)) t1 e1) = Some k ->
        seconds < t1 - t0)
  /\ (forall self now cur,
        cur < GRB_INFINITY ->
        improves_max cur (best_obj self) \/ improves_min cur (best_obj self) ->
        last_improve_time (fst (call self now (MIP (Some cur)))) = now
        /\ snd (call self now (MIP (Some cur))) = None)
  /\ (forall self now k,
        call self now (MULTIOBJ k) =
        ({| max_stagnation := max_stagnation self; obj_count := k;
            last_improve_time := now; best_obj := PInf;
            stagnated := false |}, None)).
Proof.
  split; [exact (fun self evs => run_one_stop_per_level evs self)|].
  split; [exact (fun seconds t0 evs =>
                   run_stops_bound evs (init seconds t0))|].
  split.
  { intros self t0 e0 mid t1 e1 k Hr Hq Hstop.
    apply call_stop in Hstop as (Hlt & _).
    rewrite run_cons in Hlt. simpl fst in Hlt.
    destruct (run_quiet mid _ Hq) as [Hl Hm].
    rewrite Hl, Hm, call_max_stagnation in Hlt.
    destruct (call_resets self t0 e0 Hr) as [Ht _].
    rewrite Ht in Hlt. exact Hlt. }
  split.
  { intros seconds t0 mid t1 e1 k Hq Hstop.
    apply call_stop in Hstop as (Hlt & _).
    destruct (run_quiet mid _ Hq) as [Hl Hm].
    rewrite Hl, Hm in Hlt. exact Hlt. }
  split.
  { intros self now cur Hfin Hi. apply call_resets. simpl.
    apply Qlt_bool_iff in Hfin. rewrite Hfin.
    rewrite (improves_differs _ _ Hi). reflexivity. }
  reflexivity.
Qed.

Lemma stagnation_controller_witness :
  snd (run (init 60 0)
           [(0, MULTIOBJ 1); (1, MIP (Some 5)); (100, MIP (Some 5));
            (200, MIP (Some 5))])
  = [(100, 1%Z)]
  /\ max_stagnation (fst (call (init 60 0) 0 (MULTIOBJ 1))) < 100 - 1.
Proof.
  split; [vm_compute; reflexivity|].
  refine (proj1 (proj2 (proj2 stagnation_controller))
            (fst (call (init 60 0) 0 (MULTIOBJ 1)))
            1 (MIP (Some 5)) [] 100 (MIP (Some 5)) 1%Z _ _ _);
    vm_compute; reflexivity.
Defined.

End CallbackClaims.

(** ** Construction steps only append to the model *)

Section Steps.
Import Model.

Lemma extend_nil m : extend m [] [] = m.
Proof. destruct m. unfold extend. simpl. rewrite !app_nil_r. reflexivity. Qed.

Lemma extend_extend m vs cs vs' cs' :
  extend (extend m vs cs) vs' cs' = extend m (vs ++ vs') (cs ++ cs').
Proof. unfold extend. simpl. rewrite !app_assoc. reflexivity. Qed.

Lemma Uniform_ret {A} (x : A) : Uniform (ret x).
Proof. intros m. unfold out_vars, out_constrs, result, ret. simpl.
  rewrite extend_nil. reflexivity. Qed.

Lemma Uniform_lift {A} (r : error + A) : Uniform (lift r).
Proof. intros m. unfold out_vars, out_constrs, result, lift. simpl.
  rewrite extend_nil. reflexivity. Qed.

Lemma Uniform_add_vars ds : Uniform (add_vars ds).
Proof. intros m. unfold out_vars, out_constrs, result, add_vars, extend.
  simpl. rewrite app_nil_r. reflexivity. Qed.

Lemma Uniform_add_constr c : Uniform (add_constr c).
Proof. intros m. unfold out_vars, out_constrs, result, add_constr, extend.
  simpl. rewrite app_nil_r. reflexivity. Qed.

(** What a sequence of two steps adds, from what each adds. *)
Lemma bind_out {A B} (c : M A) (f : A -> M B) :
  Uniform c -> (forall x, Uniform (f x)) ->
  match result c with
  | inl e => out_vars (bind c f) = out_vars c
             /\ out_constrs (bind c f) = out_constrs c
             /\ result (bind c f) = inl e
  | inr x => out_vars (bind c f) = out_vars c ++ out_vars (f x)
             /\ out_constrs (bind c f) = out_constrs c ++ out_constrs (f x)
             /\ result (bind c f) = result (f x)
  end.
Proof.
  intros Hc Hf.
  change (out_vars (bind c f)) with (vars (fst (bind c f new_model))).
  change (out_constrs (bind c f)) with (constrs (fst (bind c f new_model))).
  change (result (bind c f)) with (snd (bind c f new_model)).
  unfold bind. rewrite (Hc new_model).
  destruct (result c) as [e|x]; simpl; [auto|].
  rewrite (Hf x). simpl. auto.
Qed.

Lemma Uniform_bind {A B} (c : M A) (f : A -> M B) :
  Uniform c -> (forall x, Uniform (f x)) -> Uniform (bind c f).
Proof.
  intros Hc Hf m. pose proof (bind_out c f Hc Hf) as Ho.
  unfold bind at 1. rewrite (Hc m).
  destruct (result c) as [e|x].
  - destruct Ho as (-> & -> & ->). reflexivity.
  - destruct Ho as (-> & -> & ->). rewrite (Hf x), extend_extend.
    reflexivity.
Qed.

Lemma Uniform_forM_ {A} (l : list A) (body : A -> M unit) :
  (forall x, Uniform (body x)) -> Uniform (forM_ l body).
Proof.
  intros Hb. induction l as [|x l IH]; simpl.
  - apply Uniform_ret.
  - apply Uniform_bind; auto.
Qed.

Lemma Uniform_if {A} (b : bool) (c1 c2 : M A) :
  Uniform c1 -> Uniform c2 -> Uniform (if b then c1 else c2).
Proof. destruct b; auto. Qed.

Lemma NoVars_ret {A} (x : A) : NoVars (ret x).
Proof. intros m. reflexivity. Qed.

Lemma NoVars_lift {A} (r : error + A) : NoVars (lift r).
Proof. intros m. reflexivity. Qed.

Lemma NoVars_add_constr c : NoVars (add_constr c).
Proof. intros m. reflexivity. Qed.

Lemma NoVars_bind {A B} (c : M A) (f : A -> M B) :
  NoVars c -> (forall x, NoVars (f x)) -> NoVars (bind c f).
Proof.
  intros Hc Hf m. unfold bind. specialize (Hc m).
  destruct (c m) as [m' [e|x]]; simpl in *; [assumption|].
  rewrite Hf. assumption.
Qed.

Lemma NoVars_forM_ {A} (l : list A) (body : A -> M unit) :
  (forall x, NoVars (body x)) -> NoVars (forM_ l body).
Proof.
  intros Hb. induction l as [|x l IH]; simpl.
  - apply NoVars_ret.
  - apply NoVars_bind; auto.
Qed.

Lemma NoVars_if {A} (b : bool) (c1 c2 : M A) :
  NoVars c1 -> NoVars c2 -> NoVars (if b then c1 else c2).
Proof. destruct b; auto. Qed.

Lemma NoVars_out {A} (c : M A) : NoVars c -> out_vars c = [].
Proof. intros Hc. apply (Hc new_model). Qed.

End Steps.

Ltac uniform :=
  repeat (cbv beta;
    lazymatch goal with
    | |- Model.Uniform (Model.bind _ _) => apply Uniform_bind; [|intros]
    | |- Model.Uniform (Model.ret _) => apply Uniform_ret
    | |- Model.Uniform (Model.lift _) => apply Uniform_lift
    | |- Model.Uniform (Model.add_vars _) => apply Uniform_add_vars
    | |- Model.Uniform (Model.add_constr _) => apply Uniform_add_constr
    | |- Model.Uniform (Model.forM_ _ _) => apply Uniform_forM_; intros
    | |- Model.Uniform (if _ then _ else _) => apply Uniform_if
    end).

Ltac novars :=
  repeat (cbv beta;
    lazymatch goal with
    | |- Model.NoVars (Model.bind _ _) => apply NoVars_bind; [|intros]
    | |- Model.NoVars (Model.ret _) => apply NoVars_ret
    | |- Model.NoVars (Model.lift _) => apply NoVars_lift
    | |- Model.NoVars (Model.add_constr _) => apply NoVars_add_constr
    | |- Model.NoVars (Model.forM_ _ _) => apply NoVars_forM_; intros
    | |- Model.NoVars (if _ then _ else _) => apply NoVars_if
    end).

Section StepResults.
Import Model.

Lemma bind_ok {A B} (c : M A) (f : A -> M B) y :
  Uniform c -> (forall x, Uniform (f x)) ->
  result (bind c f) = inr y ->
  exists x, result c = inr x /\ result (f x) = inr y
            /\ out_vars (bind c f) = out_vars c ++ out_vars (f x)
            /\ out_constrs (bind c f) = out_constrs c ++ out_constrs (f x).
Proof.
  intros Hc Hf Hr. pose proof (bind_out c f Hc Hf) as Ho.
  destruct (result c) as [e|x].
  - destruct Ho as (_ & _ & He). congruence.
  - destruct Ho as (Hv & Hk & He). exists x. rewrite <- He. auto.
Qed.

Lemma bind_result {A B} (c : M A) (f : A -> M B) x :
  Uniform c -> (forall x, Uniform (f x)) ->
  result c = inr x -> result (bind c f) = result (f x).
Proof.
  intros Hc Hf Hr. pose proof (bind_out c f Hc Hf) as Ho.
  rewrite Hr in Ho. apply Ho.
Qed.

Lemma bind_fails {A B} (c : M A) (f : A -> M B) e :
  Uniform c -> (forall x, Uniform (f x)) ->
  result c = inl e -> result (bind c f) = inl e.
Proof.
  intros Hc Hf Hr. pose proof (bind_out c f Hc Hf) as Ho.
  rewrite Hr in Ho. apply Ho.
Qed.

Lemma bind_fails_vars {A B} (c : M A) (f : A -> M B) e :
  Uniform c -> (forall x, Uniform (f x)) ->
  result c = inl e -> out_vars (bind c f) = out_vars c.
Proof.
  intros Hc Hf Hr. pose proof (bind_out c f Hc Hf) as Ho.
  rewrite Hr in Ho. apply Ho.
Qed.

Lemma bind_ok_vars {A B} (c : M A) (f : A -> M B) x :
  Uniform c -> (forall x, Uniform (f x)) ->
  result c = inr x -> out_vars (bind c f) = out_vars c ++ out_vars (f x).
Proof.
  intros Hc Hf Hr. pose proof (bind_out c f Hc Hf) as Ho.
  rewrite Hr in Ho. apply Ho.
Qed.

Lemma forM_ok {A} (l : list A) (body : A -> M unit) :
  (forall x, Uniform (body x)) ->
  result (forM_ l body) = inr tt ->
  (forall x, In x l -> result (body x) = inr tt)
  /\ out_vars (forM_ l body) = flat_map (fun x => out_vars (body x)) l
  /\ out_constrs (forM_ l body) = flat_map (fun x => out_constrs (body x)) l.
Proof.
  intros Hb. induction l as [|x l IH]; simpl; intros Hr.
  - repeat split. intros x [].
  - apply bind_ok in Hr as ([] & Hx & Hl & Hv & Hc);
      [|apply Hb|intros; apply Uniform_forM_; apply Hb].
    destruct (IH Hl) as (Hall & Hv' & Hc').
    rewrite Hv, Hc, Hv', Hc'. repeat split.
    intros y [<-|Hy]; auto.
Qed.

Lemma forM_result {A} (l : list A) (body : A -> M unit) :
  (forall x, Uniform (body x)) ->
  (forall x, In x l -> result (body x) = inr tt) ->
  result (forM_ l body) = inr tt.
Proof.
  intros Hb. induction l as [|x l IH]; simpl; intros Hall; [reflexivity|].
  rewrite (bind_result _ _ tt);
    [|apply Hb|intros; apply Uniform_forM_; apply Hb|apply Hall; auto].
  apply IH. intros y Hy. apply Hall. auto.
Qed.

Lemma forM_fails {A} (l : list A) (body : A -> M unit) x e :
  (forall x, Uniform (body x)) ->
  In x l -> result (body x) = inl e ->
  exists e', result (forM_ l body) = inl e'.
Proof.
  intros Hb. induction l as [|y l IH]; simpl; intros Hin Hx; [contradiction|].
  destruct (result (body y)) as [e'|[]] eqn:Ey.
  - exists e'. apply bind_fails; auto. intros; apply Uniform_forM_; apply Hb.
  - rewrite (bind_result _ _ tt); auto;
      [|intros; apply Uniform_forM_; apply Hb].
    destruct Hin as [->|Hin]; [congruence|]. auto.
Qed.

Lemma forM_no_vars {A} (l : list A) (body : A -> M unit) :
  (forall x, Uniform (body x)) ->
  (forall x, out_vars (body x) = []) ->
  out_vars (forM_ l body) = [].
Proof.
  intros Hb Hn. induction l as [|x l IH]; simpl; [reflexivity|].
  pose proof (bind_out (body x) (fun _ => forM_ l body) (Hb x)
                (fun _ => Uniform_forM_ l body Hb)) as Ho.
  destruct (result (body x)) as [e|[]].
  - destruct Ho as (-> & _). apply Hn.
  - destruct Ho as (-> & _). rewrite Hn, IH. reflexivity.
Qed.

End StepResults.

(** ** The structure of the model [CNAlign] builds *)

Section BuildFacts.
Import Model CNAlign.
Context `{Platform}.

Ltac unfold_calls :=
  unfold addConstr, addGenConstrIndicator, addGenConstrAnd, addGenConstrOr,
    addVar, addVars1, addVars2.

Lemma Uniform_declare p S G : Uniform (declare p S G).
Proof. unfold declare. unfold_calls. uniform. Qed.

Lemma Uniform_cell dat p S t s : Uniform (cell dat p S t s).
Proof. unfold cell. unfold_calls. uniform. Qed.

Lemma Uniform_segment_level p S s : Uniform (segment_level p S s).
Proof. unfold segment_level. unfold_calls. uniform. Qed.

Lemma Uniform_sample_level dat G t : Uniform (sample_level dat G t).
Proof. unfold sample_level. unfold_calls. uniform. Qed.

Lemma Uniform_errors p S G : Uniform (errors p S G).
Proof. unfold errors. unfold_calls. uniform. Qed.

Lemma Uniform_cells dat p S G :
  Uniform (forM_ G (fun s => forM_ S (fun t => cell dat p S t s))).
Proof. uniform. apply Uniform_cell. Qed.

Lemma Uniform_build dat p S G : Uniform (build dat p S G).
Proof.
  unfold build.
  apply Uniform_bind; [apply Uniform_declare|intros _].
  apply Uniform_bind; [apply Uniform_cells|intros _].
  apply Uniform_bind;
    [apply Uniform_forM_; intros; apply Uniform_segment_level|intros _].
  apply Uniform_bind;
    [apply Uniform_forM_; intros; apply Uniform_sample_level|intros _].
  apply Uniform_errors.
Qed.

Lemma cell_no_vars dat p S t s : out_vars (cell dat p S t s) = [].
Proof. apply NoVars_out. unfold cell. unfold_calls. novars. Qed.


Lemma sample_level_no_vars dat G t : out_vars (sample_level dat G t) = [].
Proof. apply NoVars_out. unfold sample_level. unfold_calls. novars. Qed.

Lemma flat_map_nil {A B} (l : list A) : flat_map (fun _ => @nil B) l = [].
Proof. induction l; auto. Qed.

(** A successful construction: every cell was found, and the constraints
    are those of the declarations, the cells, the segments, the samples
    and the error totals, in this order. *)
Lemma build_ok dat p S G :
  result (build dat p S G) = inr tt ->
  result (declare p S G) = inr tt
  /\ (forall s t, In s G -> In t S -> result (cell dat p S t s) = inr tt)
  /\ out_vars (build dat p S G)
     = out_vars (declare p S G) ++ out_vars (errors p S G)
  /\ out_constrs (build dat p S G)
     = out_constrs (declare p S G)
       ++ flat_map (fun s =>
            flat_map (fun t => out_constrs (cell dat p S t s)) S) G
       ++ flat_map (fun s => out_constrs (segment_level p S s)) G
       ++ flat_map (fun t => out_constrs (sample_level dat G t)) S
       ++ out_constrs (errors p S G).
Proof.
  unfold build. intros Hr.
  assert (U5 := Uniform_errors p S G).
  assert (U4 : Uniform (forM_ S (sample_level dat G)))
    by (apply Uniform_forM_; intros; apply Uniform_sample_level).
  assert (U3 : Uniform (forM_ G (segment_level p S)))
    by (apply Uniform_forM_; intros; apply Uniform_segment_level).
  assert (U2 := Uniform_cells dat p S G).
  assert (U1 := Uniform_declare p S G).
  apply bind_ok in Hr as ([] & Hd & Hr & Hv1 & Hc1);
    [|exact U1
     |intros _; repeat (apply Uniform_bind; [assumption|intros _]);
      assumption].
  apply bind_ok in Hr as ([] & Hcells & Hr & Hv2 & Hc2);
    [|exact U2
     |intros _; repeat (apply Uniform_bind; [assumption|intros _]);
      assumption].
  apply bind_ok in Hr as ([] & Hseg & Hr & Hv3 & Hc3);
    [|exact U3
     |intros _; repeat (apply Uniform_bind; [assumption|intros _]);
      assumption].
  apply bind_ok in Hr as ([] & Hsam & Hr & Hv4 & Hc4);
    [|exact U4|intros _; assumption].
  apply forM_ok in Hcells as (Hcell & _ & Hcc);
    [|intros; apply Uniform_forM_; intros; apply Uniform_cell].
  apply forM_ok in Hseg as (_ & _ & Hsc);
    [|intros; apply Uniform_segment_level].
  apply forM_ok in Hsam as (_ & _ & Hmc);
    [|intros; apply Uniform_sample_level].
  split; [exact Hd|]. split.
  { intros s t Hs Ht. specialize (Hcell s Hs).
    apply forM_ok in Hcell as (Hcell & _); [|intros; apply Uniform_cell].
    auto. }
  split.
  { rewrite Hv1, Hv2, Hv3, Hv4.
    rewrite (forM_no_vars G), (forM_no_vars G), (forM_no_vars S); auto.
    - intros; apply Uniform_sample_level.
    - intros; apply sample_level_no_vars.
    - intros; apply Uniform_segment_level.
    - intros; apply Uniform_forM_; intros; apply Uniform_cell.
    - intros; apply forM_no_vars; intros;
        [apply Uniform_cell|apply cell_no_vars]. }
  rewrite Hc1, Hc2, Hc3, Hc4, Hcc, Hsc, Hmc.
  f_equal. f_equal.
  clear - Hcell. induction G as [|s G IH]; simpl; [reflexivity|].
  rewrite IH by (intros; apply Hcell; simpl; auto). f_equal.
  specialize (Hcell s (or_introl eq_refl)).
  apply forM_ok in Hcell as (_ & _ & Hc); [|intros; apply Uniform_cell].
  exact Hc.
Qed.

End BuildFacts.

Section RunFacts.
Import Model CNAlign.
Context `{Platform}.

(** The run of [CNAlign] from the empty model, case by case. *)
Lemma CNAlign_run dat lic p :
  let S := unique (map sample dat) in
  let G := unique (map segment dat) in
  let d := recode dat in
  CNAlign dat lic p new_model =
  match read_license lic with
  | inl e => (new_model, inl e)
  | inr params =>
      if gb_Env params then
        let m1 := fst (setPoolSolutions (sol_count p) new_model) in
        let m2 := extend m1 (out_vars (build d p S G))
                         (out_constrs (build d p S G)) in
        match result (build d p S G) with
        | inl e => (m2, inl e)
        | inr _ => set_objectives p m2
        end
      else (new_model, inl GurobiError)
  end.
Proof.
  cbv zeta. unfold CNAlign, bind at 1, lift at 1.
  destruct (read_license lic) as [e|params]; [reflexivity|].
  unfold bind at 1. destruct (gb_Env params); [|reflexivity].
  unfold ret at 1. unfold bind at 1. unfold setPoolSolutions at 1.
  unfold bind at 1. rewrite Uniform_build.
  destruct (result (build _ _ _ _)); reflexivity.
Qed.

Lemma CNAlign_ok dat lic p m :
  CNAlign dat lic p new_model = (m, inr tt) ->
  let S := unique (map sample dat) in
  let G := unique (map segment dat) in
  let d := recode dat in
  (exists params, read_license lic = inr params /\ gb_Env params = true)
  /\ result (build d p S G) = inr tt
  /\ vars m = out_vars (build d p S G)
  /\ constrs m = out_constrs (build d p S G)
  /\ objectives m =
     [ (0%nat, {| o_expr := fun a => a (Global n_clonal); o_priority := 2;
                  o_weight := 1; o_name := "N clonal segs" |});
       (1%nat, {| o_expr := fun a => - a (Global mcn_error_clonal);
                  o_priority := 1; o_weight := mcn_weight p;
                  o_name := "MCN error" |}) ]
  /\ ModelSense m = MAXIMIZE
  /\ PoolSolutions m = sol_count p.
Proof.
  rewrite CNAlign_run. cbv zeta.
  destruct (read_license lic) as [e|params]; [discriminate|].
  destruct (gb_Env params) eqn:Eenv; [|discriminate].
  destruct (result (build _ _ _ _)) as [e|[]]; [discriminate|].
  generalize (out_vars (build (recode dat) p (unique (map sample dat))
                              (unique (map segment dat)))).
  generalize (out_constrs (build (recode dat) p (unique (map sample dat))
                                 (unique (map segment dat)))).
  intros C V [= <-]. simpl. repeat split; eauto.
Qed.

End RunFacts.

(** ** What one cell contributes *)

Section CellFacts.
Import Model CNAlign.
Context `{Platform}.

Lemma cell_result dat p S t s :
  result (cell dat p S t s) = inr tt -> exists r, loc dat t s = inr r.
Proof.
  destruct (loc dat t s) as [e|r] eqn:El; [|eauto].
  unfold result, cell. rewrite El. cbv [fmap lift bind snd]. discriminate.
Qed.

End CellFacts.

Ltac cell_steps :=
  cbv [Model.bind Model.lift Model.ret Model.add_constr Model.addConstr
       Model.addGenConstrIndicator Model.addGenConstrAnd Model.addGenConstrOr
       Model.constrs Model.vars Model.new_model CNAlign.fmap fst snd app
       Model.objectives Model.ModelSense Model.PoolSolutions negb].

Ltac pick := repeat (first [left; reflexivity | right]).

Section CellFacts2.
Import Model CNAlign.
Context `{Platform}.

Lemma cell_tcn_sum dat p S t s r :
  loc dat t s = inr r ->
  In (Lin (fun a => a (Cell tcn t s)) EQUAL
          (fun a => a (Cell n1 t s) + a (Cell mcn t s)))
     (out_constrs (cell dat p S t s)).
Proof.
  intros Hl. unfold out_constrs, cell. rewrite Hl. cell_steps.
  destruct (Qeq_bool (BAF r) (-9)); cell_steps; pick.
Qed.

End CellFacts2.

Section ExampleChecks.
Import Model CNAlign Examples.

Lemma example_builds rho_ :
  @CNAlign.CNAlign platform dat license_file (arguments rho_) new_model
  = (built rho_, inr tt).
Proof.
  unfold built.
  assert (E : snd (@CNAlign.CNAlign platform dat license_file
                     (arguments rho_) new_model) = inr tt)
    by (vm_compute; reflexivity).
  revert E.
  generalize (@CNAlign.CNAlign platform dat license_file
                (arguments rho_) new_model).
  intros [m r] E. simpl in E. subst r. reflexivity.
Qed.

Lemma example_feasible_clonal : feasible (built 1) (solution 1) = true.
Proof. vm_compute. reflexivity. Qed.

Lemma example_feasible_not_clonal : feasible (built (1#2)) (solution 0) = true.
Proof. vm_compute. reflexivity. Qed.

End ExampleChecks.

(** ** Feasible assignments of a built model *)

Section Feasible.
Import Model CNAlign.
Context `{Platform}.

Lemma feasible_iff m a :
  feasible m a = true <->
  (forall d, In d (vars m) -> within a d = true)
  /\ (forall c, In c (constrs m) -> holds a c = true).
Proof.
  unfold feasible. rewrite andb_true_iff, !forallb_forall. reflexivity.
Qed.

(** Every declaration and every constraint of every block binds a
    feasible assignment of the finished model. *)
Lemma feasible_parts dat lic p m a :
  CNAlign dat lic p new_model = (m, inr tt) ->
  feasible m a = true ->
  let S := unique (map sample dat) in
  let G := unique (map segment dat) in
  let d := recode dat in
  result (declare p S G) = inr tt
  /\ (forall v, In v (out_vars (declare p S G)) -> within a v = true)
  /\ (forall c, In c (out_constrs (declare p S G)) -> holds a c = true)
  /\ (forall t s, In t S -> In s G ->
      exists r, loc d t s = inr r
                /\ forall c, In c (out_constrs (cell d p S t s)) ->
                             holds a c = true)
  /\ (forall s c, In s G -> In c (out_constrs (segment_level p S s)) ->
      holds a c = true)
  /\ (forall t c, In t S -> In c (out_constrs (sample_level d G t)) ->
      holds a c = true)
  /\ (forall c, In c (out_constrs (errors p S G)) -> holds a c = true).
Proof.
  intros Hrun Hf. cbv zeta.
  apply CNAlign_ok in Hrun as (_ & Hres & Hv & Hc & _).
  apply build_ok in Hres as (Hd & Hcell & Hbv & Hbc).
  apply feasible_iff in Hf as [Hw Hh].
  rewrite Hv, Hbv in Hw. rewrite Hc, Hbc in Hh.
  split; [exact Hd|]. split.
  { intros v Hin. apply Hw. apply in_or_app. left. exact Hin. }
  split.
  { intros c Hin. apply Hh. apply in_or_app. left. exact Hin. }
  split.
  { intros t s Ht Hs.
    destruct (cell_result _ _ _ _ _ (Hcell s t Hs Ht)) as [r Hr].
    exists r. split; [exact Hr|]. intros c Hin. apply Hh.
    apply in_or_app; right. apply in_or_app; left.
    apply in_flat_map. exists s. split; [exact Hs|].
    apply in_flat_map. exists t. split; [exact Ht|exact Hin]. }
  split.
  { intros s c Hs Hin. apply Hh.
    apply in_or_app; right. apply in_or_app; right. apply in_or_app; left.
    apply in_flat_map. exists s. split; [exact Hs|exact Hin]. }
  split.
  { intros t c Ht Hin. apply Hh.
    apply in_or_app; right. apply in_or_app; right. apply in_or_app; right.
    apply in_or_app; left. apply in_flat_map. exists t.
    split; [exact Ht|exact Hin]. }
  intros c Hin. apply Hh.
  apply in_or_app; right. apply in_or_app; right. apply in_or_app; right.
  apply in_or_app; right. exact Hin.
Qed.

(** What a successful [declare] needed. *)
Lemma declare_result p S G :
  result (declare p S G) = inr tt ->
  exists z_lb z_ub,
    recip (max_purity p) = inr z_lb /\ recip (min_purity p) = inr z_ub
    /\ Nat.eqb (List.length S) 0 = false.
Proof.
  unfold result, declare.
  destruct (recip (max_purity p)) as [e|z_lb].
  { cbv [bind lift ret addVars2 addVars1 addVar add_vars snd vars constrs
         objectives ModelSense PoolSolutions new_model]. discriminate. }
  destruct (recip (min_purity p)) as [e|z_ub].
  { cbv [bind lift ret addVars2 addVars1 addVar add_vars snd vars constrs
         objectives ModelSense PoolSolutions new_model]. discriminate. }
  destruct (Nat.eqb (List.length S) 0).
  { cbv [bind lift ret addVars2 addVars1 addVar add_vars snd vars constrs
         objectives ModelSense PoolSolutions new_model]. discriminate. }
  eauto.
Qed.

End Feasible.

Section HoldsFacts.
Import Model.

Lemma holds_eq a l r : holds a (Lin l EQUAL r) = true -> l a == r a.
Proof. simpl. apply Qeq_bool_iff. Qed.

Lemma holds_le a l r : holds a (Lin l LESS_EQUAL r) = true -> l a <= r a.
Proof. simpl. apply Qle_bool_iff. Qed.

Lemma holds_ge a l r : holds a (Lin l GREATER_EQUAL r) = true -> r a <= l a.
Proof. simpl. apply Qle_bool_iff. Qed.

Lemma holds_indicator_le a b l r :
  holds a (Indicator b 1 l LESS_EQUAL r) = true -> a b == 1 -> l a <= r.
Proof.
  simpl. intros Hh Hb. apply Qeq_bool_iff in Hb. rewrite Hb in Hh.
  apply Qle_bool_iff. exact Hh.
Qed.

Lemma holds_indicator_ge a b l r :
  holds a (Indicator b 1 l GREATER_EQUAL r) = true -> a b == 1 -> r <= l a.
Proof.
  simpl. intros Hh Hb. apply Qeq_bool_iff in Hb. rewrite Hb in Hh.
  apply Qle_bool_iff. exact Hh.
Qed.

Lemma bit_one b : bit b == 1 <-> b = true.
Proof.
  destruct b; simpl; split; intros Hx.
  - reflexivity.
  - reflexivity.
  - unfold Qeq in Hx. simpl in Hx. discriminate.
  - discriminate.
Qed.

Lemma holds_and2 a r x y :
  holds a (And_ r [x; y]) = true ->
  (a r == 1 <-> a x == 1 /\ a y == 1).
Proof.
  simpl. intros Hh. apply Qeq_bool_iff in Hh. rewrite Hh, bit_one.
  unfold is_true. rewrite andb_true_r, andb_true_iff, !Qeq_bool_iff.
  reflexivity.
Qed.

Lemma holds_or2 a r x y :
  holds a (Or_ r [x; y]) = true ->
  (a r == 1 <-> a x == 1 \/ a y == 1).
Proof.
  simpl. intros Hh. apply Qeq_bool_iff in Hh. rewrite Hh, bit_one.
  unfold is_true. rewrite orb_false_r, orb_true_iff, !Qeq_bool_iff.
  reflexivity.
Qed.

Lemma within_lb a d : within a d = true -> v_lb d <= a (v_id d).
Proof.
  unfold within. destruct (v_type d); rewrite ?andb_true_iff;
    intros Hw; apply Qle_bool_iff; tauto.
Qed.

Lemma within_ub a d u :
  within a d = true -> v_ub d = Some u -> a (v_id d) <= u.
Proof.
  unfold within. intros Hw Hu. rewrite Hu in Hw.
  destruct (v_type d); rewrite ?andb_true_iff in Hw;
    apply Qle_bool_iff; tauto.
Qed.

Lemma within_binary a d :
  within a d = true -> v_type d = BINARY ->
  a (v_id d) == 0 \/ a (v_id d) == 1.
Proof.
  unfold within. intros Hw Ht. rewrite Ht in Hw.
  rewrite !andb_true_iff, orb_true_iff, !Qeq_bool_iff in Hw. tauto.
Qed.

End HoldsFacts.


Ltac in_group t s Ht Hs :=
  first
    [ apply in_flat_map; exists t; split;
      [exact Ht|apply in_map_iff; exists s; split; [reflexivity|exact Hs]]
    | apply in_map_iff; exists t; split; [reflexivity|exact Ht]
    | apply in_map_iff; exists s; split; [reflexivity|exact Hs]
    | left; reflexivity ].

Ltac in_decls t s Ht Hs :=
  lazymatch goal with
  | |- In _ (_ ++ _) =>
      apply in_or_app;
      first [right; in_group t s Ht Hs | left; in_decls t s Ht Hs]
  | |- _ => in_group t s Ht Hs
  end.

Section Declared.
Import Model CNAlign.
Context `{Platform}.

Ltac declared Hd t s Ht Hs :=
  let zl := fresh "z_lb" in
  let zu := fresh "z_ub" in
  let Hl := fresh "Hl" in
  let Hu := fresh "Hu" in
  let Hn := fresh "Hn" in
  destruct (declare_result _ _ _ Hd) as (zl & zu & Hl & Hu & Hn);
  unfold out_vars, declare; rewrite Hl, Hu, Hn;
  cbv [bind lift ret addVars2 addVars1 addVar add_vars add_constr addConstr
       vars constrs objectives ModelSense PoolSolutions fst new_model];
  in_decls t s Ht Hs.

(** The declared bounds of the variables of a cell, of its sample and of
    its segment, read on a feasible assignment. *)
Lemma feasible_declared dat lic p m a t s :
  CNAlign dat lic p new_model = (m, inr tt) ->
  feasible m a = true ->
  In t (unique (map sample dat)) ->
  In s (unique (map segment dat)) ->
  (0 <= a (Cell n1 t s) /\ 0 <= a (Cell tcn t s) /\ 0 <= a (Cell mcn t s)
   /\ 0 <= a (Cell tcn_int t s) /\ 0 <= a (Cell mcn_int t s))
  /\ (min_ploidy p <= a (Sample pl t) <= max_ploidy p)
  /\ (1 / max_purity p <= a (Sample z t) <= 1 / min_purity p)
  /\ (a (Cell match_both_and_large_enough_and_cna t s) == 0
      \/ a (Cell match_both_and_large_enough_and_cna t s) == 1)
  /\ (a (allmatch s) == 0 \/ a (allmatch s) == 1).
Proof.
  intros Hrun Hf Ht Hs.
  destruct (feasible_parts dat lic p m a Hrun Hf) as (Hd & Hw & _).
  set (S := unique (map sample dat)) in *.
  set (G := unique (map segment dat)) in *.
  assert (Hdecl : forall v vt lb ub,
            In {| v_id := v; v_type := vt; v_lb := lb; v_ub := ub |}
               (out_vars (declare p S G)) ->
            lb <= a v
            /\ (forall u, ub = Some u -> a v <= u)
            /\ (vt = BINARY -> a v == 0 \/ a v == 1)).
  { intros v vt lb ub Hin. apply Hw in Hin. split; [|split].
    - apply (within_lb a _ Hin).
    - intros u ->. apply (within_ub a _ u Hin). reflexivity.
    - intros ->. apply (within_binary a _ Hin). reflexivity. }
  assert (Hcont : forall f,
            In {| v_id := Cell f t s; v_type := CONTINUOUS;
                  v_lb := default_lb; v_ub := default_ub |}
               (out_vars (declare p S G)) -> 0 <= a (Cell f t s)).
  { intros f Hin. apply (Hdecl _ _ _ _ Hin). }
  assert (Hint : forall f,
            In {| v_id := Cell f t s; v_type := INTEGER;
                  v_lb := default_lb; v_ub := default_ub |}
               (out_vars (declare p S G)) -> 0 <= a (Cell f t s)).
  { intros f Hin. apply (Hdecl _ _ _ _ Hin). }
  split.
  { split; [|split; [|split; [|split]]].
    - apply Hcont. declared Hd t s Ht Hs.
    - apply Hcont. declared Hd t s Ht Hs.
    - apply Hcont. declared Hd t s Ht Hs.
    - apply Hint. declared Hd t s Ht Hs.
    - apply Hint. declared Hd t s Ht Hs. }
  split.
  { assert (Hin : In {| v_id := Sample pl t; v_type := CONTINUOUS;
                        v_lb := min_ploidy p; v_ub := Some (max_ploidy p) |}
                     (out_vars (declare p S G))) by declared Hd t s Ht Hs.
    destruct (Hdecl _ _ _ _ Hin) as (Hlb & Hub & _). clear Hin Hdecl Hw.
    split; [exact Hlb|apply Hub; reflexivity]. }
  split.
  { destruct (declare_result _ _ _ Hd) as (zl & zu & Hl & Hu & Hn).
    assert (Hin : In {| v_id := Sample z t; v_type := CONTINUOUS;
                        v_lb := zl; v_ub := Some zu |}
                     (out_vars (declare p S G))).
    { unfold out_vars, declare. rewrite Hl, Hu, Hn.
      cbv [bind lift ret addVars2 addVars1 addVar add_vars add_constr
           addConstr vars constrs objectives ModelSense PoolSolutions fst
           new_model].
      in_decls t s Ht Hs. }
    destruct (Hdecl _ _ _ _ Hin) as (Hlb & Hub & _). clear Hin Hdecl Hw.
    unfold recip in Hl, Hu.
    destruct (Qeq_bool (max_purity p) 0); [discriminate|].
    destruct (Qeq_bool (min_purity p) 0); [discriminate|].
    injection Hl as <-. injection Hu as <-.
    split; [exact Hlb|apply Hub; reflexivity]. }
  split.
  { assert (Hin : In {| v_id := Cell match_both_and_large_enough_and_cna t s;
                        v_type := BINARY; v_lb := default_lb;
                        v_ub := default_ub |}
                     (out_vars (declare p S G))) by declared Hd t s Ht Hs.
    apply (Hdecl _ _ _ _ Hin). reflexivity. }
  assert (Hin : In {| v_id := allmatch s; v_type := BINARY;
                      v_lb := default_lb; v_ub := default_ub |}
                   (out_vars (declare p S G))) by declared Hd t s Ht Hs.
  apply (Hdecl _ _ _ _ Hin). reflexivity.
Qed.

End Declared.

Section SignalClaims.
Import Model CNAlign.
Context `{Platform}.

(** C1.  In every feasible assignment of a model [CNAlign] built, each
    (sample, segment) cell of the table satisfies [tcn = n1 + mcn]; with
    a BAF other than the sentinel, [n1] and [mcn] equal the two formulas
    of the BAF branch; with the sentinel, [n1] equals the total-copy
    formula and [mcn] is 0.  Here [c = 2**logR] and [c1 = 2**(logR+1)]. *)
Theorem signal_relation_enforced dat lic p m a t s :
  CNAlign dat lic p new_model = (m, inr tt) ->
  feasible m a = true ->
  In t (unique (map sample dat)) ->
  In s (unique (map segment dat)) ->
  exists r,
    loc (recode dat) t s = inr r
    /\ let b := BAF r in
       let g := GC r in
       let c := pow2 (logR r) in
       let c1 := pow2 (logR r + 1) in
       let pl_t := a (Sample pl t) in
       let z_t := a (Sample z t) in
       a (Cell tcn t s) == a (Cell n1 t s) + a (Cell mcn t s)
       /\ (~ b == -9 ->
           a (Cell n1 t s) == - b * c * pl_t + b * c1 - b * c1 * z_t
                              + c * pl_t - c1 + c1 * z_t + g - g * z_t
                              - 1 + z_t
           /\ a (Cell mcn t s) == b * c * pl_t - b * c1 + b * c1 * z_t
                                  + 1 - z_t)
       /\ (b == -9 ->
           a (Cell n1 t s) == z_t * c * 2 + c * pl_t - 2 * c - g * z_t + g
           /\ a (Cell mcn t s) == 0).
Proof.
  intros Hrun Hf Ht Hs.
  destruct (feasible_parts dat lic p m a Hrun Hf) as (_ & _ & _ & Hcell & _).
  destruct (Hcell t s Ht Hs) as (r & Hr & Hc). clear Hcell.
  exists r. split; [exact Hr|]. cbv zeta.
  set (S := unique (map sample dat)) in *.
  set (d := recode dat) in *.
  split.
  { apply (holds_eq a (fun a => a (Cell tcn t s))
             (fun a => a (Cell n1 t s) + a (Cell mcn t s))).
    apply Hc. apply (cell_tcn_sum d p S t s r Hr). }
  split.
  - intros Hb.
    assert (Eb : Qeq_bool (BAF r) (-9) = false).
    { destruct (Qeq_bool (BAF r) (-9)) eqn:E; [|reflexivity].
      apply Qeq_bool_iff in E. contradiction. }
    split.
    + refine (holds_eq a (fun a => a (Cell n1 t s))
                (fun a => - BAF r * pow2 (logR r) * a (Sample pl t)
                          + BAF r * pow2 (logR r + 1)
                          - BAF r * pow2 (logR r + 1) * a (Sample z t)
                          + pow2 (logR r) * a (Sample pl t)
                          - pow2 (logR r + 1)
                          + pow2 (logR r + 1) * a (Sample z t) + GC r
                          - GC r * a (Sample z t) - 1 + a (Sample z t)) _).
      apply Hc.
      unfold out_constrs, cell. rewrite Hr. cell_steps. rewrite Eb.
      cell_steps. pick.
    + refine (holds_eq a (fun a => a (Cell mcn t s))
                (fun a => BAF r * pow2 (logR r) * a (Sample pl t)
                          - BAF r * pow2 (logR r + 1)
                          + BAF r * pow2 (logR r + 1) * a (Sample z t)
                          + 1 - a (Sample z t)) _).
      apply Hc.
      unfold out_constrs, cell. rewrite Hr. cell_steps. rewrite Eb.
      cell_steps. pick.
  - intros Hb. apply Qeq_bool_iff in Hb.
    split.
    + refine (holds_eq a (fun a => a (Cell n1 t s))
                (fun a => a (Sample z t) * pow2 (logR r) * 2
                          + pow2 (logR r) * a (Sample pl t)
                          - 2 * pow2 (logR r)
                          - GC r * a (Sample z t) + GC r) _).
      apply Hc.
      unfold out_constrs, cell. rewrite Hr. cell_steps. rewrite Hb.
      cell_steps. pick.
    + apply (holds_eq a (fun a => a (Cell mcn t s)) (fun _ => 0)). apply Hc.
      unfold out_constrs, cell. rewrite Hr. cell_steps. rewrite Hb.
      cell_steps. pick.
Qed.

(** C9.  In a feasible assignment [n1], [tcn], [mcn], [tcn_int] and
    [mcn_int] of every cell are nonnegative, their declarations carrying
    the default lower bound 0; hence, when the constraints of a cell make
    one of [n1], [mcn], [tcn] negative at every ploidy and inverse purity
    within the declared ranges, the model has no feasible assignment. *)
Theorem copy_numbers_nonnegative dat lic p m t s :
  CNAlign dat lic p new_model = (m, inr tt) ->
  In t (unique (map sample dat)) ->
  In s (unique (map segment dat)) ->
  (In {| v_id := Cell n1 t s; v_type := CONTINUOUS;
         v_lb := default_lb; v_ub := default_ub |} (vars m)
   /\ In {| v_id := Cell tcn t s; v_type := CONTINUOUS;
            v_lb := default_lb; v_ub := default_ub |} (vars m)
   /\ In {| v_id := Cell mcn t s; v_type := CONTINUOUS;
            v_lb := default_lb; v_ub := default_ub |} (vars m)
   /\ In {| v_id := Cell tcn_int t s; v_type := INTEGER;
            v_lb := default_lb; v_ub := default_ub |} (vars m)
   /\ In {| v_id := Cell mcn_int t s; v_type := INTEGER;
            v_lb := default_lb; v_ub := default_ub |} (vars m))
  /\ (forall a, feasible m a = true ->
      0 <= a (Cell n1 t s) /\ 0 <= a (Cell tcn t s)
      /\ 0 <= a (Cell mcn t s) /\ 0 <= a (Cell tcn_int t s)
      /\ 0 <= a (Cell mcn_int t s))
  /\ ((forall a,
         min_ploidy p <= a (Sample pl t) <= max_ploidy p ->
         1 / max_purity p <= a (Sample z t) <= 1 / min_purity p ->
         (forall c,
            In c (out_constrs (cell (recode dat) p
                                 (unique (map sample dat)) t s)) ->
            holds a c = true) ->
         a (Cell n1 t s) < 0 \/ a (Cell mcn t s) < 0
         \/ a (Cell tcn t s) < 0) ->
      forall a, feasible m a = false).
Proof.
  intros Hrun Ht Hs. split; [|split].
  - pose proof (CNAlign_ok dat lic p m Hrun) as (_ & Hres & Hv & _).
    apply build_ok in Hres as (Hd & _ & Hbv & _).
    rewrite Hv, Hbv. clear Hv Hbv Hrun.
    set (S := unique (map sample dat)) in *.
    set (G := unique (map segment dat)) in *.
    destruct (declare_result _ _ _ Hd) as (zl & zu & Hl & Hu & Hn).
    split; [|split; [|split; [|split]]]; apply in_or_app; left;
      unfold out_vars, declare; rewrite Hl, Hu, Hn;
      cbv [bind lift ret addVars2 addVars1 addVar add_vars add_constr
           addConstr vars constrs objectives ModelSense PoolSolutions fst
           new_model];
      in_decls t s Ht Hs.
  - intros a Hf.
    apply (feasible_declared dat lic p m a t s Hrun Hf Ht Hs).
  - intros Hneg a. destruct (feasible m a) eqn:Hf; [exfalso|reflexivity].
    destruct (feasible_declared dat lic p m a t s Hrun Hf Ht Hs)
      as ((Hn1 & Htcn & Hmcn & _) & Hpl & Hz & _).
    destruct (feasible_parts dat lic p m a Hrun Hf) as (_ & _ & _ & Hcell & _).
    destruct (Hcell t s Ht Hs) as (r & _ & Hc).
    destruct (Hneg a Hpl Hz Hc) as [Hx|[Hx|Hx]].
    + apply (Qlt_not_le _ _ Hx Hn1).
    + apply (Qlt_not_le _ _ Hx Hmcn).
    + apply (Qlt_not_le _ _ Hx Htcn).
Qed.

End SignalClaims.

Section SignalWitnesses.
Import Model CNAlign Examples.

Lemma in_A : In "A"%string (unique (map sample dat)).
Proof. left. reflexivity. Qed.

Lemma in_s1 : In "s1"%string (unique (map segment dat)).
Proof. left. reflexivity. Qed.

Lemma signal_relation_enforced_witness :
  @CNAlign.CNAlign platform dat license_file (arguments 1) new_model
  = (built 1, inr tt)
  /\ feasible (built 1) (solution 1) = true
  /\ solution 1 (Cell tcn "A" "s1")
     == solution 1 (Cell n1 "A" "s1") + solution 1 (Cell mcn "A" "s1").
Proof.
  split; [exact (example_builds 1)|].
  split; [exact example_feasible_clonal|].
  destruct (@signal_relation_enforced platform dat license_file
              (arguments 1) (built 1) (solution 1) "A" "s1"
              (example_builds 1) example_feasible_clonal in_A in_s1)
    as (r & _ & Hsum & _).
  exact Hsum.
Defined.

Lemma negative_builds :
  @CNAlign.CNAlign platform dat_negative license_file arguments_half_pure
                   new_model
  = (built_negative, inr tt).
Proof.
  unfold built_negative.
  assert (E : snd (@CNAlign.CNAlign platform dat_negative license_file
                     arguments_half_pure new_model) = inr tt)
    by (vm_compute; reflexivity).
  revert E.
  generalize (@CNAlign.CNAlign platform dat_negative license_file
                arguments_half_pure new_model).
  intros [m r] E. simpl in E. subst r. reflexivity.
Qed.

Lemma negative_signal a :
  min_ploidy arguments_half_pure <= a (Sample pl "A")
    <= max_ploidy arguments_half_pure ->
  1 / max_purity arguments_half_pure <= a (Sample z "A")
    <= 1 / min_purity arguments_half_pure ->
  (forall c,
     In c (out_constrs (@cell platform (recode dat_negative)
                          arguments_half_pure
                          (unique (map sample dat_negative)) "A" "s1")) ->
     holds a c = true) ->
  a (Cell n1 "A" "s1") < 0 \/ a (Cell mcn "A" "s1") < 0
  \/ a (Cell tcn "A" "s1") < 0.
Proof.
  intros Hpl Hz Hc. left.
  assert (Hn1 : a (Cell n1 "A" "s1")
                == a (Sample z "A") * (1#8) * 2 + (1#8) * a (Sample pl "A")
                   - 2 * (1#8) - 2 * a (Sample z "A") + 2).
  { refine (holds_eq a (fun a => a (Cell n1 "A" "s1"))
              (fun a => a (Sample z "A") * (1#8) * 2
                        + (1#8) * a (Sample pl "A")
                        - 2 * (1#8) - 2 * a (Sample z "A") + 2) _).
    apply Hc.
    assert (Hr : loc (recode dat_negative) "A" "s1"
                 = inr {| sample := "A"; segment := "s1"; logR := -3;
                          BAF := -9; GC := 2; mb := 10 |})
      by (vm_compute; reflexivity).
    unfold out_constrs, cell. rewrite Hr. cell_steps.
    change (Qeq_bool (BAF {| sample := "A"; segment := "s1"; logR := -3;
                             BAF := -9; GC := 2; mb := 10 |}) (-9))
      with true.
    cell_steps. pick. }
  simpl in Hpl, Hz.
  assert (E : 1 / (1#2) == 2) by reflexivity.
  rewrite E in Hz. lra.
Qed.

Lemma copy_numbers_nonnegative_witness :
  @CNAlign.CNAlign platform dat_negative license_file arguments_half_pure
                   new_model
  = (built_negative, inr tt)
  /\ feasible built_negative (solution 1) = false.
Proof.
  split; [exact negative_builds|].
  exact (proj2 (proj2 (@copy_numbers_nonnegative platform dat_negative
                         license_file arguments_half_pure built_negative
                         "A" "s1" negative_builds
                         (or_introl eq_refl) (or_introl eq_refl)))
               negative_signal (solution 1)).
Defined.

End SignalWitnesses.

Section Blocks.
Import Model CNAlign.
Context `{Platform}.

Lemma feasible_blocks dat lic p m a :
  CNAlign dat lic p new_model = (m, inr tt) ->
  (feasible m a = true <->
   blocks_hold a (recode dat) p (unique (map sample dat))
               (unique (map segment dat))).
Proof.
  intros Hrun.
  apply CNAlign_ok in Hrun as (_ & Hres & Hv & Hc & _).
  apply build_ok in Hres as (Hd & Hcell & Hbv & Hbc).
  rewrite feasible_iff, Hv, Hbv, Hc, Hbc. unfold blocks_hold.
  set (S := unique (map sample dat)) in *.
  set (G := unique (map segment dat)) in *.
  set (d := recode dat) in *.
  generalize (out_vars (declare p S G)) as Vd.
  generalize (out_vars (errors p S G)) as Ve.
  generalize (out_constrs (declare p S G)) as Cd.
  generalize (out_constrs (errors p S G)) as Ce.
  intros Ce Cd Ve Vd.
  split.
  - intros [Hw Hh].
    split; [intros v Hin; apply Hw, in_or_app; left; exact Hin|].
    split; [intros v Hin; apply Hw, in_or_app; right; exact Hin|].
    split; [intros c Hin; apply Hh, in_or_app; left; exact Hin|].
    split.
    { intros t s Ht Hs c Hin. apply Hh.
      apply in_or_app; right. apply in_or_app; left.
      apply in_flat_map. exists s. split; [exact Hs|].
      apply in_flat_map. exists t. split; [exact Ht|exact Hin]. }
    split.
    { intros s c Hs Hin. apply Hh.
      apply in_or_app; right. apply in_or_app; right. apply in_or_app; left.
      apply in_flat_map. exists s. split; [exact Hs|exact Hin]. }
    split.
    { intros t c Ht Hin. apply Hh.
      apply in_or_app; right. apply in_or_app; right. apply in_or_app; right.
      apply in_or_app; left. apply in_flat_map. exists t.
      split; [exact Ht|exact Hin]. }
    intros c Hin. apply Hh.
    apply in_or_app; right. apply in_or_app; right. apply in_or_app; right.
    apply in_or_app; right. exact Hin.
  - intros (Hvd & Hve & Hcd & Hcc & Hcs & Hcm & Hce). split.
    + intros v Hin. apply in_app_or in Hin as [Hin|Hin];
        [apply Hvd|apply Hve]; exact Hin.
    + intros c Hin.
      apply in_app_or in Hin as [Hin|Hin]; [apply Hcd; exact Hin|].
      apply in_app_or in Hin as [Hin|Hin].
      { apply in_flat_map in Hin as (s & Hs & Hin).
        apply in_flat_map in Hin as (t & Ht & Hin).
        apply (Hcc t s Ht Hs c Hin). }
      apply in_app_or in Hin as [Hin|Hin].
      { apply in_flat_map in Hin as (s & Hs & Hin). apply (Hcs s c Hs Hin). }
      apply in_app_or in Hin as [Hin|Hin].
      { apply in_flat_map in Hin as (t & Ht & Hin). apply (Hcm t c Ht Hin). }
      apply Hce. exact Hin.
Qed.

Lemma declare_with_rho p r S G : declare (with_rho p r) S G = declare p S G.
Proof.
  unfold declare.
  cbn [with_rho min_ploidy max_ploidy min_purity max_purity max_homdel_mb
       min_cna_segments_per_sample].
  reflexivity.
Qed.

Lemma cell_with_rho dat p r S t s :
  cell dat (with_rho p r) S t s = cell dat p S t s.
Proof. reflexivity. Qed.

Lemma errors_with_rho p r S G : errors (with_rho p r) S G = errors p S G.
Proof. reflexivity. Qed.

Lemma of_nat_nonneg n : 0 <= of_nat n.
Proof.
  unfold of_nat. change 0 with (inject_Z 0). rewrite <- Zle_Qle. lia.
Qed.

Lemma of_nat_succ n : of_nat (S n) == 1 + of_nat n.
Proof.
  unfold of_nat. rewrite Nat2Z.inj_succ. unfold Z.succ.
  rewrite inject_Z_plus. change (inject_Z 1) with 1. ring.
Qed.

(** A sum of 0/1 variables counts those that are set. *)
Lemma sum_flags a (f : string -> var) (P : string -> bool) l :
  (forall t, In t l ->
     (a (f t) == 0 \/ a (f t) == 1) /\ (a (f t) == 1 <-> P t = true)) ->
  quicksum (map (fun t a => a (f t)) l) a
  == of_nat (List.length (filter P l)).
Proof.
  induction l as [|x l IH]; intros Hall.
  - reflexivity.
  - change (quicksum (map (fun t a => a (f t)) (x :: l)) a)
      with (a (f x) + quicksum (map (fun t a => a (f t)) l) a).
    rewrite IH by (intros t Ht; apply Hall; right; exact Ht).
    destruct (Hall x (or_introl eq_refl)) as [Hb Hiff]. simpl filter.
    destruct (P x).
    + simpl List.length. rewrite of_nat_succ.
      rewrite (proj2 Hiff eq_refl). reflexivity.
    + destruct Hb as [Hb|Hb].
      * rewrite Hb. ring.
      * apply Hiff in Hb. discriminate.
Qed.

End Blocks.

Ltac cell_in Hr r :=
  unfold Model.out_constrs, CNAlign.cell; rewrite Hr; cell_steps;
  destruct (Qeq_bool (CNAlign.BAF r) (-9)); cell_steps; pick.

Section Flags.
Import Model CNAlign.
Context `{Platform}.

(** The logical constraints of one cell, read on an assignment that
    satisfies them. *)
Lemma cell_flags dat p S t s r a :
  loc dat t s = inr r ->
  (forall c, In c (out_constrs (cell dat p S t s)) -> holds a c = true) ->
  (a (Cell match_both_and_large_enough_and_cna t s) == 1 <->
   a (Cell match_both t s) == 1 /\ a (Cell large_enough t s) == 1
   /\ a (Cell is_cna t s) == 1)
  /\ (a (Cell match_both t s) == 1 <->
      a (Cell tcn_match_and_avg_at_int t s) == 1
      /\ a (Cell mcn_match_and_avg_at_int t s) == 1)
  /\ (a (Cell tcn_match_and_avg_at_int t s) == 1 <->
      a (Cell tcn_close_to_int t s) == 1 /\ a (Cell tcn_close_to_avg t s) == 1
      /\ a (Cell tcn_avg_close_to_int t s) == 1)
  /\ (a (Cell mcn_match_and_avg_at_int t s) == 1 <->
      a (Cell mcn_close_to_int t s) == 1 /\ a (Cell mcn_close_to_avg t s) == 1
      /\ a (Cell mcn_avg_close_to_int t s) == 1)
  /\ (a (Cell is_cna t s) == 1 <->
      a (Cell tcn_gain t s) == 1 \/ a (Cell tcn_loss t s) == 1
      \/ a (Cell mcn_gain t s) == 1 \/ a (Cell mcn_loss t s) == 1)
  /\ (a (Cell tcn_close_to_int t s) == 1 ->
      a (Cell tcn_int_err t s) <= delta_tcn_to_int p)
  /\ (a (Cell tcn_close_to_avg t s) == 1 ->
      a (Cell tcn_spread t s) <= delta_tcn_to_avg p)
  /\ (a (Cell tcn_avg_close_to_int t s) == 1 ->
      a (Cell tcn_avg_int_err t s) <= delta_tcnavg_to_int p)
  /\ (a (Cell mcn_close_to_int t s) == 1 ->
      a (Cell mcn_int_err t s) <= delta_mcn_to_int p)
  /\ (a (Cell mcn_close_to_avg t s) == 1 ->
      a (Cell mcn_spread t s) <= delta_mcn_to_avg p)
  /\ (a (Cell mcn_avg_close_to_int t s) == 1 ->
      a (Cell mcn_avg_int_err t s) <= delta_mcnavg_to_int p)
  /\ (a (Cell tcn_gain t s) == 1 -> GC r + 1 <= a (Cell tcn_int t s))
  /\ (a (Cell tcn_loss t s) == 1 -> a (Cell tcn_int t s) <= GC r - 1)
  /\ (a (Cell large_enough t s) == 1 -> min_aligned_seg_mb p <= mb r).
Proof.
  intros Hr Hc.
  assert (A1 := holds_and2 a _ _ _
    (Hc (And_ (Cell match_both_and_large_enough_and_cna t s)
              [Cell match_both_and_large_enough t s; Cell is_cna t s])
        ltac:(cell_in Hr r))).
  assert (A2 := holds_and2 a _ _ _
    (Hc (And_ (Cell match_both_and_large_enough t s)
              [Cell match_both t s; Cell large_enough t s])
        ltac:(cell_in Hr r))).
  assert (A3 := holds_and2 a _ _ _
    (Hc (And_ (Cell match_both t s)
              [Cell tcn_match_and_avg_at_int t s;
               Cell mcn_match_and_avg_at_int t s])
        ltac:(cell_in Hr r))).
  assert (A4 := holds_and2 a _ _ _
    (Hc (And_ (Cell tcn_match_and_avg_at_int t s)
              [Cell tcn_match t s; Cell tcn_avg_close_to_int t s])
        ltac:(cell_in Hr r))).
  assert (A5 := holds_and2 a _ _ _
    (Hc (And_ (Cell tcn_match t s)
              [Cell tcn_close_to_int t s; Cell tcn_close_to_avg t s])
        ltac:(cell_in Hr r))).
  assert (A6 := holds_and2 a _ _ _
    (Hc (And_ (Cell mcn_match_and_avg_at_int t s)
              [Cell mcn_match t s; Cell mcn_avg_close_to_int t s])
        ltac:(cell_in Hr r))).
  assert (A7 := holds_and2 a _ _ _
    (Hc (And_ (Cell mcn_match t s)
              [Cell mcn_close_to_int t s; Cell mcn_close_to_avg t s])
        ltac:(cell_in Hr r))).
  assert (O1 := holds_or2 a _ _ _
    (Hc (Or_ (Cell is_cna t s) [Cell tcn_cna t s; Cell mcn_cna t s])
        ltac:(cell_in Hr r))).
  assert (O2 := holds_or2 a _ _ _
    (Hc (Or_ (Cell tcn_cna t s) [Cell tcn_gain t s; Cell tcn_loss t s])
        ltac:(cell_in Hr r))).
  assert (O3 := holds_or2 a _ _ _
    (Hc (Or_ (Cell mcn_cna t s) [Cell mcn_gain t s; Cell mcn_loss t s])
        ltac:(cell_in Hr r))).
  split; [tauto|]. split; [tauto|]. split; [tauto|]. split; [tauto|].
  split; [tauto|]. clear A1 A2 A3 A4 A5 A6 A7 O1 O2 O3.
  split.
  { apply (holds_indicator_le a _ (fun a => a (Cell tcn_int_err t s))).
    apply Hc. cell_in Hr r. }
  split.
  { apply (holds_indicator_le a _ (fun a => a (Cell tcn_spread t s))).
    apply Hc. cell_in Hr r. }
  split.
  { apply (holds_indicator_le a _ (fun a => a (Cell tcn_avg_int_err t s))).
    apply Hc. cell_in Hr r. }
  split.
  { apply (holds_indicator_le a _ (fun a => a (Cell mcn_int_err t s))).
    apply Hc. cell_in Hr r. }
  split.
  { apply (holds_indicator_le a _ (fun a => a (Cell mcn_spread t s))).
    apply Hc. cell_in Hr r. }
  split.
  { apply (holds_indicator_le a _ (fun a => a (Cell mcn_avg_int_err t s))).
    apply Hc. cell_in Hr r. }
  split.
  { apply (holds_indicator_ge a _ (fun a => a (Cell tcn_int t s))).
    apply Hc. cell_in Hr r. }
  split.
  { apply (holds_indicator_le a _ (fun a => a (Cell tcn_int t s))).
    apply Hc. cell_in Hr r. }
  apply (holds_indicator_ge a (Cell large_enough t s) (fun _ => mb r)).
  apply Hc. cell_in Hr r.
Qed.

Lemma eligible_iff a s t :
  eligible a s t = true <->
  a (Cell match_both t s) == 1 /\ a (Cell large_enough t s) == 1
  /\ a (Cell is_cna t s) == 1.
Proof.
  unfold eligible, is_true. rewrite !andb_true_iff, !Qeq_bool_iff. tauto.
Qed.

End Flags.

Section ClonalityClaims.
Import Model CNAlign.
Context `{Platform}.

(** C2 (amended).  In a feasible assignment, [allmatch[s] = 1] implies
    that the number of samples whose cell has [match_both],
    [large_enough] and [is_cna] set is at least [rho] times the number of
    samples; the predicates defined by AND/OR constraints are exactly the
    conjunction/disjunction of their inputs; the predicates defined by
    indicator constraints (closeness, gain, loss, large enough) imply
    their linear condition when set. *)
Theorem flags_bind_one_way dat lic p m a :
  CNAlign dat lic p new_model = (m, inr tt) ->
  feasible m a = true ->
  let S := unique (map sample dat) in
  let G := unique (map segment dat) in
  (forall s, In s G -> a (allmatch s) == 1 ->
     rho p * of_nat (List.length S) <= of_nat (eligible_count a S s))
  /\ (forall t s, In t S -> In s G ->
      exists r, loc (recode dat) t s = inr r
      /\ (a (Cell match_both_and_large_enough_and_cna t s) == 1 <->
          a (Cell match_both t s) == 1 /\ a (Cell large_enough t s) == 1
          /\ a (Cell is_cna t s) == 1)
      /\ (a (Cell match_both t s) == 1 <->
          a (Cell tcn_match_and_avg_at_int t s) == 1
          /\ a (Cell mcn_match_and_avg_at_int t s) == 1)
      /\ (a (Cell tcn_match_and_avg_at_int t s) == 1 <->
          a (Cell tcn_close_to_int t s) == 1
          /\ a (Cell tcn_close_to_avg t s) == 1
          /\ a (Cell tcn_avg_close_to_int t s) == 1)
      /\ (a (Cell mcn_match_and_avg_at_int t s) == 1 <->
          a (Cell mcn_close_to_int t s) == 1
          /\ a (Cell mcn_close_to_avg t s) == 1
          /\ a (Cell mcn_avg_close_to_int t s) == 1)
      /\ (a (Cell is_cna t s) == 1 <->
          a (Cell tcn_gain t s) == 1 \/ a (Cell tcn_loss t s) == 1
          \/ a (Cell mcn_gain t s) == 1 \/ a (Cell mcn_loss t s) == 1)
      /\ (a (Cell tcn_close_to_int t s) == 1 ->
          a (Cell tcn_int_err t s) <= delta_tcn_to_int p)
      /\ (a (Cell tcn_close_to_avg t s) == 1 ->
          a (Cell tcn_spread t s) <= delta_tcn_to_avg p)
      /\ (a (Cell tcn_avg_close_to_int t s) == 1 ->
          a (Cell tcn_avg_int_err t s) <= delta_tcnavg_to_int p)
      /\ (a (Cell mcn_close_to_int t s) == 1 ->
          a (Cell mcn_int_err t s) <= delta_mcn_to_int p)
      /\ (a (Cell mcn_close_to_avg t s) == 1 ->
          a (Cell mcn_spread t s) <= delta_mcn_to_avg p)
      /\ (a (Cell mcn_avg_close_to_int t s) == 1 ->
          a (Cell mcn_avg_int_err t s) <= delta_mcnavg_to_int p)
      /\ (a (Cell tcn_gain t s) == 1 -> GC r + 1 <= a (Cell tcn_int t s))
      /\ (a (Cell tcn_loss t s) == 1 -> a (Cell tcn_int t s) <= GC r - 1)
      /\ (a (Cell large_enough t s) == 1 -> min_aligned_seg_mb p <= mb r)).
Proof.
  intros Hrun Hf. cbv zeta.
  destruct (feasible_parts dat lic p m a Hrun Hf)
    as (_ & _ & _ & Hcell & Hseg & _).
  split.
  - intros s Hs Hall. unfold eligible_count.
    rewrite <- (sum_flags a (fun t => Cell match_both_and_large_enough_and_cna t s)).
    + apply (holds_indicator_ge a (allmatch s)
               (quicksum (map (fun t a =>
                  a (Cell match_both_and_large_enough_and_cna t s))
                  (unique (map sample dat))))); [|exact Hall].
      apply (Hseg s _ Hs). left. reflexivity.
    + intros t Ht. split.
      * apply (feasible_declared dat lic p m a t s Hrun Hf Ht Hs).
      * destruct (Hcell t s Ht Hs) as (r & Hr & Hc).
        rewrite eligible_iff.
        apply (cell_flags _ p _ t s r a Hr Hc).
  - intros t s Ht Hs. destruct (Hcell t s Ht Hs) as (r & Hr & Hc).
    exists r. split; [exact Hr|].
    apply (cell_flags _ p _ t s r a Hr Hc).
Qed.

(** C7.  With everything but [rho] fixed, an assignment feasible at the
    larger [rho] is feasible at the smaller one; so no feasible assignment
    at the larger [rho] has more clonal segments than an optimum at the
    smaller [rho]; and with the per-cell flags fixed, a quorum met at the
    larger [rho] is met at the smaller one. *)
Theorem n_clonal_antitone_in_rho dat lic p r1 r2 m1 m2 :
  r1 <= r2 ->
  CNAlign dat lic (with_rho p r1) new_model = (m1, inr tt) ->
  CNAlign dat lic (with_rho p r2) new_model = (m2, inr tt) ->
  (forall a, feasible m2 a = true -> feasible m1 a = true)
  /\ (forall best1 a2,
        feasible m1 best1 = true ->
        (forall a, feasible m1 a = true ->
                   a (Global n_clonal) <= best1 (Global n_clonal)) ->
        feasible m2 a2 = true ->
        a2 (Global n_clonal) <= best1 (Global n_clonal))
  /\ (forall a S s,
        r2 * of_nat (List.length S) <= of_nat (eligible_count a S s) ->
        r1 * of_nat (List.length S) <= of_nat (eligible_count a S s)).
Proof.
  intros Hle H1 H2.
  assert (Hmono : forall n, r1 * of_nat n <= r2 * of_nat n).
  { intros n. apply Qmult_le_compat_r; [exact Hle|apply of_nat_nonneg]. }
  assert (Hsub : forall a, feasible m2 a = true -> feasible m1 a = true).
  { intros a Hf.
    apply (feasible_blocks dat lic _ m2 a H2) in Hf.
    apply (feasible_blocks dat lic _ m1 a H1).
    unfold blocks_hold in *.
    rewrite !declare_with_rho, !errors_with_rho in *.
    destruct Hf as (Hvd & Hve & Hcd & Hcc & Hcs & Hcm & Hce).
    split; [exact Hvd|]. split; [exact Hve|]. split; [exact Hcd|].
    split; [exact Hcc|]. split; [|split; [exact Hcm|exact Hce]].
    intros s c Hs [<-|[]].
    specialize (Hcs s _ Hs (or_introl eq_refl)).
    cbn [holds rho with_rho] in *.
    destruct (Qeq_bool (a (allmatch s)) 1); [|reflexivity].
    cbn [cmp] in *. apply Qle_bool_iff. apply Qle_bool_iff in Hcs.
    eapply Qle_trans; [apply Hmono|exact Hcs]. }
  split; [exact Hsub|]. split.
  - intros best1 a2 _ Hbest Hf2. apply Hbest. apply Hsub. exact Hf2.
  - intros a S s Hq. eapply Qle_trans; [apply Hmono|exact Hq].
Qed.

End ClonalityClaims.

Section ClonalityWitnesses.
Import Model CNAlign Examples.

(** C2 (as stated, refuted).  In the instance the only sample has
    [match_both], [large_enough] and [is_cna] set at segment s1, so the
    count 1 reaches [rho * n_Samples = 1/2]; the assignment with
    [allmatch[s1] = 0] is nevertheless feasible. *)
Lemma allmatch_false_with_quorum_met :
  feasible (built (1#2)) (solution 0) = true
  /\ rho (arguments (1#2)) * of_nat (List.length (unique (map sample dat)))
     <= of_nat (eligible_count (solution 0) (unique (map sample dat)) "s1")
  /\ solution 0 (allmatch "s1") == 0.
Proof.
  split; [exact example_feasible_not_clonal|].
  split; [vm_compute; discriminate|reflexivity].
Qed.

Lemma flags_bind_one_way_witness :
  @CNAlign.CNAlign platform dat license_file (arguments 1) new_model
  = (built 1, inr tt)
  /\ feasible (built 1) (solution 1) = true
  /\ solution 1 (allmatch "s1") == 1
  /\ rho (arguments 1) * of_nat (List.length (unique (map sample dat)))
     <= of_nat (eligible_count (solution 1) (unique (map sample dat)) "s1").
Proof.
  split; [exact (example_builds 1)|].
  split; [exact example_feasible_clonal|].
  split; [reflexivity|].
  exact (proj1 (@flags_bind_one_way platform dat license_file (arguments 1)
                  (built 1) (solution 1) (example_builds 1)
                  example_feasible_clonal)
               "s1"%string in_s1 (eq_refl : solution 1 (allmatch "s1") == 1)).
Defined.

Lemma n_clonal_antitone_in_rho_witness :
  (1#2) <= 1
  /\ feasible (built 1) (solution 1) = true
  /\ feasible (built (1#2)) (solution 1) = true.
Proof.
  assert (Hle : (1#2) <= 1) by (vm_compute; discriminate).
  split; [exact Hle|].
  split; [exact example_feasible_clonal|].
  exact (proj1 (@n_clonal_antitone_in_rho platform dat license_file
                  (arguments 1) (1#2) 1 (built (1#2)) (built 1) Hle
                  (example_builds (1#2)) (example_builds 1))
               (solution 1) example_feasible_clonal).
Defined.

End ClonalityWitnesses.

Section ObjectiveClaims.
Import Model CNAlign.
Context `{Platform}.

(** C3 (the code departs from it).  The three [setObjectiveN] calls leave
    two objectives under a maximising sense: index 0 is [n_clonal] at
    priority 2, and index 1, written twice, keeps only the last call:
    [-mcn_error_clonal] with weight [mcn_weight] at priority 1.  The
    lower level is therefore [mcn_weight * (-mcn_error_clonal)]; the term
    [(1 - mcn_weight) * (-tcn_error_clonal)] is absent. *)
Theorem objective_index_1_is_overwritten dat lic p m :
  CNAlign dat lic p new_model = (m, inr tt) ->
  ModelSense m = MAXIMIZE
  /\ NumObj m = 2%nat
  /\ priorities m = [2%Z; 1%Z]
  /\ (forall a, level_value m 2 a == a (Global n_clonal))
  /\ (forall a, level_value m 1 a
                == mcn_weight p * - a (Global mcn_error_clonal)).
Proof.
  intros Hrun.
  apply CNAlign_ok in Hrun as (_ & _ & _ & _ & Ho & Hs & _).
  split; [exact Hs|].
  unfold NumObj, priorities, level_value. rewrite Ho.
  split; [reflexivity|]. split; [reflexivity|].
  split; intros a; simpl; ring.
Qed.

End ObjectiveClaims.

Section ObjectiveWitnesses.
Import Model CNAlign Examples.

Lemma objective_index_1_is_overwritten_witness :
  feasible (built 1) solution_with_errors = true
  /\ level_value (built 1) 1 solution_with_errors
     == mcn_weight (arguments 1)
        * - solution_with_errors (Global mcn_error_clonal)
  /\ ~ level_value (built 1) 1 solution_with_errors
       == (1 - mcn_weight (arguments 1))
          * - solution_with_errors (Global tcn_error_clonal)
          + mcn_weight (arguments 1)
            * - solution_with_errors (Global mcn_error_clonal).
Proof.
  split; [vm_compute; reflexivity|].
  assert (Hl := proj2 (proj2 (proj2 (proj2
                  (@objective_index_1_is_overwritten platform dat
                     license_file (arguments 1) (built 1)
                     (example_builds 1)))))
                solution_with_errors).
  split; [exact Hl|].
  rewrite Hl. vm_compute. discriminate.
Defined.

End ObjectiveWitnesses.

(** ** The sentinel for a missing BAF *)

Section Sentinel.
Import Model CNAlign.
Context `{Platform}.

Lemma recode_sentinel dat :
  recode (map sentinel_to_missing dat) = map canonical_sentinel (recode dat).
Proof.
  unfold recode. rewrite !map_map. apply map_ext. intros [sa se lr b g l].
  unfold recode_row, sentinel_to_missing, canonical_sentinel. simpl.
  destruct b as [b|]; [|reflexivity].
  destruct (Qeq_bool b (-9)); reflexivity.
Qed.

Lemma loc_canonical dat t s :
  loc (map canonical_sentinel dat) t s = fmap canonical_sentinel (loc dat t s).
Proof.
  unfold loc.
  assert (E : filter (fun r => String.eqb (sample r) t
                               && String.eqb (segment r) s)
                     (map canonical_sentinel dat)
              = map canonical_sentinel
                  (filter (fun r => String.eqb (sample r) t
                                    && String.eqb (segment r) s) dat)).
  { induction dat as [|r dat IH]; [reflexivity|]. simpl.
    destruct (String.eqb (sample r) t && String.eqb (segment r) s); simpl;
      rewrite IH; reflexivity. }
  rewrite E.
  destruct (filter _ dat) as [|r [|r' rest]]; reflexivity.
Qed.

Lemma forM_ext {A} (l : list A) (f g : A -> M unit) :
  (forall x, f x = g x) -> forM_ l f = forM_ l g.
Proof.
  intros Hfg. induction l as [|x l IH]; simpl; [reflexivity|].
  rewrite Hfg, IH. reflexivity.
Qed.

Lemma traverse_ext {A B} (f g : A -> error + B) l :
  (forall x, f x = g x) -> traverse f l = traverse g l.
Proof.
  intros Hfg. induction l as [|x l IH]; simpl; [reflexivity|].
  rewrite Hfg, IH. reflexivity.
Qed.

Lemma cell_canonical dat p S t s :
  cell (map canonical_sentinel dat) p S t s = cell dat p S t s.
Proof.
  unfold cell. rewrite loc_canonical.
  destruct (loc dat t s) as [e|[sa se lr b g l]]; [reflexivity|].
  cbv [fmap canonical_sentinel logR BAF GC mb].
  destruct (Qeq_bool b (-9)) eqn:Eb; [|reflexivity].
  cbv [bind lift ret]. rewrite Eb.
  change (Qeq_bool (-9) (-9)) with true. cbv [negb]. reflexivity.
Qed.

Lemma sample_level_canonical dat G t :
  sample_level (map canonical_sentinel dat) G t = sample_level dat G t.
Proof.
  unfold sample_level.
  rewrite (traverse_ext (fun s => fmap mb (loc (map canonical_sentinel dat) t s))
                        (fun s => fmap mb (loc dat t s))); [reflexivity|].
  intros s. rewrite loc_canonical. destruct (loc dat t s); reflexivity.
Qed.

Lemma build_canonical dat p S G :
  build (map canonical_sentinel dat) p S G = build dat p S G.
Proof.
  unfold build.
  rewrite (forM_ext G
    (fun s => forM_ S (fun t => cell (map canonical_sentinel dat) p S t s))
    (fun s => forM_ S (fun t => cell dat p S t s)))
    by (intros s; apply forM_ext; intros t; apply cell_canonical).
  rewrite (forM_ext S (sample_level (map canonical_sentinel dat) G)
                      (sample_level dat G))
    by (intros t; apply sample_level_canonical).
  reflexivity.
Qed.

(** C10.  Replacing every BAF equal to -9 by a missing value leaves the
    whole construction unchanged; and a cell whose BAF is -9 gets the
    constraints of the BAF-unavailable branch: the total-copy formula for
    [n1], [mcn = 0], and gain/loss thresholds of the minor copy number
    taken from 0 wild-type copies. *)
Theorem sentinel_is_missing dat lic p :
  CNAlign (map sentinel_to_missing dat) lic p = CNAlign dat lic p
  /\ (forall S t s r,
        loc (recode dat) t s = inr r -> BAF r == -9 ->
        In (Lin (fun a => a (Cell n1 t s)) EQUAL
                (fun a => a (Sample z t) * pow2 (logR r) * 2
                          + pow2 (logR r) * a (Sample pl t)
                          - 2 * pow2 (logR r)
                          - GC r * a (Sample z t) + GC r))
           (out_constrs (cell (recode dat) p S t s))
        /\ In (Lin (fun a => a (Cell mcn t s)) EQUAL (fun _ => 0))
              (out_constrs (cell (recode dat) p S t s))
        /\ In (Indicator (Cell mcn_gain t s) 1
                         (fun a => a (Cell mcn_int t s)) GREATER_EQUAL (0 + 1))
              (out_constrs (cell (recode dat) p S t s))
        /\ In (Indicator (Cell mcn_loss t s) 1
                         (fun a => a (Cell mcn_int t s)) LESS_EQUAL (0 - 1))
              (out_constrs (cell (recode dat) p S t s))).
Proof.
  split.
  - unfold CNAlign.
    assert (Es : map sample (map sentinel_to_missing dat) = map sample dat)
      by (rewrite map_map; apply map_ext; intros []; reflexivity).
    assert (Eg : map segment (map sentinel_to_missing dat) = map segment dat)
      by (rewrite map_map; apply map_ext; intros []; reflexivity).
    rewrite Es, Eg, recode_sentinel, build_canonical. reflexivity.
  - intros S t s r Hr Hb. apply Qeq_bool_iff in Hb.
    repeat split;
      unfold out_constrs, cell; rewrite Hr; cell_steps; rewrite Hb;
      cell_steps; pick.
Qed.

End Sentinel.

Section SentinelWitness.
Import Model CNAlign Examples.

Lemma sentinel_is_missing_witness :
  @CNAlign.CNAlign platform dat_sentinel license_file (arguments 1)
  = @CNAlign.CNAlign platform dat license_file (arguments 1).
Proof.
  rewrite <- (proj1 (@sentinel_is_missing platform dat_sentinel license_file
                       (arguments 1))).
  reflexivity.
Defined.

End SentinelWitness.

(** ** The variables of a built model, by group *)

Section Groups.
Import Model CNAlign.

Lemma filter_cells (P : var -> bool) (mk : string -> string -> var)
    vt lb ub (S G : list string) (b : bool) :
  (forall i j, P (mk i j) = b) ->
  filter P (map v_id (flat_map (fun i =>
              map (fun j => {| v_id := mk i j; v_type := vt;
                               v_lb := lb; v_ub := ub |}) G) S))
  = if b then flat_map (fun i => map (fun j => mk i j) G) S else [].
Proof.
  intros HP. induction S as [|i S IH]; simpl.
  - destruct b; reflexivity.
  - rewrite map_app, filter_app, IH.
    assert (E : filter P (map v_id (map (fun j => {| v_id := mk i j;
                  v_type := vt; v_lb := lb; v_ub := ub |}) G))
                = if b then map (fun j => mk i j) G else []).
    { clear IH. induction G as [|j G IHG]; simpl.
      - destruct b; reflexivity.
      - rewrite HP, IHG. destruct b; reflexivity. }
    rewrite E. destruct b; reflexivity.
Qed.

Lemma filter_index (P : var -> bool) (mk : string -> var) vt lb ub
    (I : list string) (b : bool) :
  (forall i, P (mk i) = b) ->
  filter P (map v_id (map (fun i => {| v_id := mk i; v_type := vt;
                                       v_lb := lb; v_ub := ub |}) I))
  = if b then map mk I else [].
Proof.
  intros HP. induction I as [|i I IH]; simpl.
  - destruct b; reflexivity.
  - rewrite HP, IH. destruct b; reflexivity.
Qed.

Lemma filter_single (P : var -> bool) v vt lb ub (b : bool) :
  P v = b ->
  filter P (map v_id [ {| v_id := v; v_type := vt; v_lb := lb;
                          v_ub := ub |} ])
  = if b then [v] else [].
Proof. intros HP. simpl. rewrite HP. destruct b; reflexivity. Qed.


Lemma find_filter {A} (P : A -> bool) l : find P l = hd_error (filter P l).
Proof.
  induction l as [|x l IH]; simpl; [reflexivity|].
  destruct (P x); [reflexivity|exact IH].
Qed.

End Groups.

Ltac filter_groups :=
  repeat first
    [ rewrite (filter_cells _ _ _ _ _ _ _ false) by (intros; reflexivity)
    | rewrite (filter_cells _ _ _ _ _ _ _ true) by (intros; reflexivity)
    | rewrite (filter_index _ _ _ _ _ _ false) by (intros; reflexivity)
    | rewrite (filter_index _ _ _ _ _ _ true) by (intros; reflexivity)
    | rewrite (filter_single _ _ _ _ _ false) by reflexivity
    | rewrite (filter_single _ _ _ _ _ true) by reflexivity ].

Section GroupsOfModel.
Import Model CNAlign Pool.
Context `{Platform}.

Lemma errors_out_vars p S G :
  out_vars (errors p S G)
  = if obj2_clonalonly p
    then flat_map (fun i => map (fun j =>
           {| v_id := Cell tcn_int_err_term i j; v_type := CONTINUOUS;
              v_lb := default_lb; v_ub := default_ub |}) G) S
         ++ flat_map (fun i => map (fun j =>
           {| v_id := Cell mcn_int_err_term i j; v_type := CONTINUOUS;
              v_lb := default_lb; v_ub := default_ub |}) G) S
    else [].
Proof.
  unfold errors. destruct (obj2_clonalonly p); cbv [negb].
  - rewrite (bind_ok_vars _ _ tt); [| |intros _|reflexivity].
    2:{ unfold addConstr. uniform. }
    2:{ unfold addConstr, addVars2. uniform. }
    rewrite (bind_ok_vars _ _ tt); [| |intros _|reflexivity].
    2:{ unfold addVars2. uniform. }
    2:{ unfold addConstr, addVars2. uniform. }
    rewrite (bind_ok_vars _ _ tt); [| |intros _|reflexivity].
    2:{ unfold addVars2. uniform. }
    2:{ unfold addConstr. uniform. }
    rewrite (NoVars_out (bind (forM_ S _) _)).
    2:{ unfold addConstr. novars. }
    rewrite app_nil_r. reflexivity.
  - apply NoVars_out. unfold addConstr. novars.
Qed.

(** The groups the table is assembled from, as [getVars] orders them, and
    the two variables looked up by name. *)
Lemma getVars_groups dat lic p m :
  CNAlign dat lic p new_model = (m, inr tt) ->
  let S := unique (map sample dat) in
  let G := unique (map segment dat) in
  filter (fun v => startswith (VarName v) "pl[") (getVars m)
  = map (Sample pl) S
  /\ filter (fun v => startswith (VarName v) "z[") (getVars m)
     = map (Sample z) S
  /\ filter (fun v => startswith (VarName v) "allmatch[") (getVars m)
     = map allmatch G
  /\ filter (fun v => startswith (VarName v) "tcn[") (getVars m)
     = flat_map (fun t => map (fun s => Cell tcn t s) G) S
  /\ filter (fun v => startswith (VarName v) "mcn[") (getVars m)
     = flat_map (fun t => map (fun s => Cell mcn t s) G) S
  /\ getVarByName m "tcn_error_clonal" = Some (Global tcn_error_clonal)
  /\ getVarByName m "mcn_error_clonal" = Some (Global mcn_error_clonal).
Proof.
  intros Hrun. cbv zeta.
  apply CNAlign_ok in Hrun as (_ & Hres & Hv & _).
  apply build_ok in Hres as (Hd & _ & Hbv & _).
  unfold getVarByName. rewrite !find_filter.
  unfold getVars. rewrite Hv, Hbv, errors_out_vars. clear Hv Hbv.
  set (S := unique (map sample dat)) in *.
  set (G := unique (map segment dat)) in *.
  destruct (declare_result _ _ _ Hd) as (zl & zu & Hl & Hu & Hn).
  unfold out_vars, declare. rewrite Hl, Hu, Hn.
  cbv [bind lift ret addVars2 addVars1 addVar add_vars add_constr addConstr
       vars constrs objectives ModelSense PoolSolutions fst new_model].
  change (@nil vardecl ++ ?l) with l.
  destruct (obj2_clonalonly p);
    (split; [|split; [|split; [|split; [|split; [|split]]]]]);
    rewrite !map_app, !filter_app; filter_groups;
    cbn [app map filter]; rewrite ?app_nil_r; reflexivity.
Qed.

End GroupsOfModel.

(** ** The table of the solution pool *)

Section PoolFacts.
Import Model CNAlign Pool.

Lemma traverse_all {A B} (f : A -> Pool.error + B) (g : A -> B) l :
  (forall x, In x l -> f x = inr (g x)) ->
  Pool.traverse f l = inr (map g l).
Proof.
  induction l as [|x l IH]; intros Hall; simpl; [reflexivity|].
  rewrite (Hall x (or_introl eq_refl)).
  rewrite IH by (intros y Hy; apply Hall; right; exact Hy).
  reflexivity.
Qed.

Lemma block_ok m pool pre rename X (val : assignment -> var -> Q) group :
  filter (fun v => startswith (VarName v) pre) (getVars m) = group ->
  (forall sol v, In sol pool -> In v group -> X sol v = inr (val sol v)) ->
  block m pool pre rename X
  = inr {| Variable_ := map (fun v => rename (VarName v)) group;
           Solution_ := map (fun sol => map (val sol) group) pool |}.
Proof.
  intros Hg HX. unfold block. rewrite Hg.
  rewrite (traverse_all _ (fun sol => map (val sol) group)); [reflexivity|].
  intros sol Hsol. apply traverse_all. intros v Hv. apply HX; assumption.
Qed.


End PoolFacts.

Section PoolClaim.
Import Model CNAlign Pool.
Context `{Platform}.


End PoolClaim.

Section PoolWitness.
Import Model CNAlign Pool Examples.

(** The rounding of the instance is float rounding: the float next
    above 2.0000005 times 1e6 is the float 2000000.5, a tie, and goes to
    2; the same number rounded exactly would go to 2.000001. *)
Lemma np_round6_rounds_floats :
  np_round6 (4503600753270403 # 2251799813685248) == 2
  /\ (2000000 # 1) + (1 # 2) < (4503600753270403 # 2251799813685248) * 1000000.
Proof. split; vm_compute; reflexivity. Qed.


End PoolWitness.

(** * Further properties of the code *)

(** ** The index of the table and the licence file *)

Section TableFacts.
Import Model CNAlign.

Lemma existsb_eqb_In x seen :
  existsb (String.eqb x) seen = true <-> In x seen.
Proof.
  rewrite existsb_exists. split.
  - intros (y & Hy & E). apply String.eqb_eq in E. subst. exact Hy.
  - intros Hx. exists x. split; [exact Hx|apply String.eqb_refl].
Qed.

Lemma unique_from_In seen l x :
  In x (unique_from seen l) <-> In x l /\ ~ In x seen.
Proof.
  revert seen. induction l as [|y l IH]; intros seen; simpl.
  - tauto.
  - destruct (existsb (String.eqb y) seen) eqn:E.
    + apply existsb_eqb_In in E. rewrite IH. split.
      * tauto.
      * intros [[<-|Hx] Hn]; [contradiction|tauto].
    + assert (Hy : ~ In y seen).
      { intros Hy. apply existsb_eqb_In in Hy. congruence. }
      simpl. rewrite IH. simpl. split.
      * intros [<-|[Hx Hn]]; [tauto|]. split; [tauto|]. intros Hs.
        apply Hn. right. exact Hs.
      * intros [[<-|Hx] Hn]; [tauto|].
        destruct (String.eqb_spec y x) as [->|Hne]; [tauto|].
        right. split; [exact Hx|]. intros [E'|Hs]; [congruence|tauto].
Qed.

Lemma unique_from_NoDup seen l : NoDup (unique_from seen l).
Proof.
  revert seen. induction l as [|y l IH]; intros seen; simpl.
  - constructor.
  - destruct (existsb (String.eqb y) seen); [apply IH|].
    constructor; [|apply IH].
    rewrite unique_from_In. intros [_ Hn]. apply Hn. left. reflexivity.
Qed.

Lemma unique_from_NoDup_id seen l :
  NoDup l -> (forall x, In x l -> ~ In x seen) -> unique_from seen l = l.
Proof.
  revert seen. induction l as [|y l IH]; intros seen Hnd Hdis; [reflexivity|].
  simpl. inversion Hnd as [|? ? Hy Hl]; subst.
  destruct (existsb (String.eqb y) seen) eqn:E.
  - apply existsb_eqb_In in E. destruct (Hdis y (or_introl eq_refl) E).
  - f_equal. apply IH; [exact Hl|].
    intros x Hx [<-|Hs]; [contradiction|].
    apply (Hdis x (or_intror Hx) Hs).
Qed.

Lemma unique_from_snoc seen l x :
  unique_from seen (l ++ [x])
  = unique_from seen l
    ++ (if existsb (String.eqb x) seen || existsb (String.eqb x) l
        then [] else [x]).
Proof.
  revert seen. induction l as [|y l IH]; intros seen.
  - simpl. rewrite orb_false_r.
    destruct (existsb (String.eqb x) seen); reflexivity.
  - cbn [app unique_from existsb].
    destruct (existsb (String.eqb y) seen) eqn:Ey.
    + rewrite IH. f_equal.
      destruct (String.eqb_spec x y) as [->|Hne]; [|reflexivity].
      rewrite Ey. reflexivity.
    + rewrite IH. cbn [app existsb]. f_equal. f_equal.
      destruct (String.eqb x y), (existsb (String.eqb x) seen);
        reflexivity.
Qed.

(** X1.  [unique] keeps exactly the values of the column, each once, in
    the order of their first appearance: a value appended to the column
    is appended to the list when it is new and changes nothing when it
    was there before; a column without repetitions is left as it is.
    The lists [Samples] and [Segments] have no duplicates. *)
Theorem unique_distinct_values l :
  NoDup (unique l)
  /\ (forall x, In x (unique l) <-> In x l)
  /\ (NoDup l -> unique l = l)
  /\ unique [] = []
  /\ (forall x, unique (l ++ [x])
                = if existsb (String.eqb x) l then unique l
                  else unique l ++ [x]).
Proof.
  unfold unique. split; [apply unique_from_NoDup|]. split.
  { intros x. rewrite unique_from_In. simpl. tauto. }
  split.
  { intros Hnd. apply unique_from_NoDup_id; [exact Hnd|]. intros x _ []. }
  split; [reflexivity|].
  intros x. rewrite unique_from_snoc. cbn [existsb orb].
  destruct (existsb (String.eqb x) l); [apply app_nil_r|reflexivity].
Qed.

End TableFacts.

Section LicenceFacts.
Import Model CNAlign.
Context `{Platform}.

Lemma split_plain sep s : mentions sep s = false -> split sep s = [s].
Proof.
  induction s as [|c s IH]; simpl; [reflexivity|].
  intros Hm. apply orb_false_iff in Hm as [Hc Hs].
  rewrite Hc, (IH Hs). reflexivity.
Qed.

Lemma split_at_sep sep k rest :
  mentions sep k = false ->
  split sep (k ++ String sep rest) = k :: split sep rest.
Proof.
  induction k as [|c k IH]; simpl; intros Hm.
  - rewrite Ascii.eqb_refl. reflexivity.
  - apply orb_false_iff in Hm as [Hc Hk]. rewrite Hc, (IH Hk). reflexivity.
Qed.




Lemma entry_key_line lines i k v rest :
  nth_error lines i = Some (k ++ String "=" (v ++ rest))%string ->
  mentions "=" k = false -> mentions "=" v = false ->
  rest = EmptyString \/ (exists tail, rest = String "=" tail) ->
  entry lines i = inr v.
Proof.
  intros Hn Hk Hv Hrest. unfold entry. rewrite Hn, (split_at_sep _ _ _ Hk).
  destruct Hrest as [ -> | [tail ->] ].
  - replace (v ++ "")%string with v
      by (clear; induction v; simpl; congruence).
    rewrite (split_plain _ _ Hv). reflexivity.
  - rewrite (split_at_sep _ _ _ Hv). reflexivity.
Qed.


(** X4.  The value of a key line stops at its second [=]: what follows it
    is dropped without an error. *)
Theorem entry_cuts_at_second_equals lines i k v tail :
  nth_error lines i = Some (k ++ String "=" (v ++ String "=" tail))%string ->
  mentions "=" k = false -> mentions "=" v = false ->
  entry lines i = inr v.
Proof.
  intros Hn Hk Hv. apply (entry_key_line lines i k v (String "=" tail));
    auto. right. exists tail. reflexivity.
Qed.

(** X5.  The reader raises [IndexError] when one of the three key lines
    is missing from the file or holds no [=]. *)
Theorem read_license_needs_key_lines file i line :
  (i = 3 \/ i = 4 \/ i = 5)%nat ->
  nth_error file i = None
  \/ (nth_error file i = Some line /\ mentions "=" line = false) ->
  read_license (Some file) = inl IndexError.
Proof.
  intros Hi Hbad. unfold read_license.
  assert (Hmr : forall s, mentions "=" s = false ->
                          mentions "=" (rstrip s) = false).
  { intros s. induction s as [|c s IH]; simpl; [reflexivity|].
    intros Hm. apply orb_false_iff in Hm as [Hc Hs]. specialize (IH Hs).
    destruct (rstrip s); simpl.
    - destruct (is_space c); simpl; [reflexivity|]. rewrite Hc. reflexivity.
    - simpl in IH. rewrite Hc. exact IH. }
  assert (E : entry (map rstrip file) i = inl IndexError).
  { unfold entry. rewrite nth_error_map.
    destruct Hbad as [ -> | [ -> Hm ] ]; [reflexivity|]. simpl.
    rewrite (split_plain _ _ (Hmr _ Hm)). reflexivity. }
  assert (Herr : forall j, entry (map rstrip file) j = inl IndexError
                           \/ exists v, entry (map rstrip file) j = inr v).
  { intros j. unfold entry. destruct (nth_error _ j); [|auto].
    destruct (nth_error _ 1); eauto. }
  destruct Hi as [ -> | [ -> | -> ] ].
  - rewrite E. reflexivity.
  - destruct (Herr 3%nat) as [ -> | [v ->] ]; [reflexivity|].
    rewrite E. reflexivity.
  - destruct (Herr 3%nat) as [ -> | [v ->] ]; [reflexivity|].
    destruct (Herr 4%nat) as [ -> | [v' ->] ]; [reflexivity|].
    rewrite E. reflexivity.
Qed.

End LicenceFacts.

Section LicenceWitnesses.
Import Model CNAlign Examples.


Lemma entry_cuts_at_second_equals_witness :
  @entry ["WLSSECRET=abc=def"%string] 0 = inr "abc"%string.
Proof.
  apply (entry_cuts_at_second_equals _ 0%nat "WLSSECRET" "abc" "def");
    reflexivity.
Defined.

Lemma read_license_needs_key_lines_witness :
  @read_license platform short_file = inl IndexError.
Proof.
  apply (@read_license_needs_key_lines platform _ 3%nat EmptyString).
  - left. reflexivity.
  - left. reflexivity.
Defined.

End LicenceWitnesses.

(** ** When the construction succeeds, and how large the model is *)

Section CountingSteps.
Import Model.

Lemma Counts_ret {A} (x : A) : Counts (ret x) 0 0.
Proof.
  split; [apply Uniform_ret|]. split; [eexists; reflexivity|].
  split; reflexivity.
Qed.

Lemma Counts_lift {A} (x : A) : Counts (lift (inr x)) 0 0.
Proof.
  split; [apply Uniform_lift|]. split; [eexists; reflexivity|].
  split; reflexivity.
Qed.

Lemma Counts_add_vars ds : Counts (add_vars ds) (List.length ds) 0.
Proof.
  split; [apply Uniform_add_vars|]. split; [eexists; reflexivity|].
  split; reflexivity.
Qed.

Lemma Counts_add_constr c : Counts (add_constr c) 0 1.
Proof.
  split; [apply Uniform_add_constr|]. split; [eexists; reflexivity|].
  split; reflexivity.
Qed.

Lemma Counts_bind {A B} (c : M A) (f : A -> M B) a b a' b' :
  Counts c a b -> (forall x, Counts (f x) a' b') ->
  Counts (bind c f) (a + a') (b + b').
Proof.
  intros (Uc & [x Hx] & Hv & Hc) Hf.
  pose proof (bind_out c f Uc (fun y => proj1 (Hf y))) as Ho.
  rewrite Hx in Ho. destruct Ho as (Hov & Hoc & Hor).
  destruct (Hf x) as (_ & Hrx & Hvx & Hcx).
  split; [apply Uniform_bind; [exact Uc|intros y; apply (Hf y)]|].
  split; [rewrite Hor; exact Hrx|].
  rewrite Hov, Hoc, !length_app, Hv, Hc, Hvx, Hcx. split; reflexivity.
Qed.

Lemma Counts_forM_ {A} (l : list A) (body : A -> M unit) a b :
  (forall x, In x l -> Counts (body x) a b) ->
  (forall x, Uniform (body x)) ->
  Counts (forM_ l body) (List.length l * a) (List.length l * b).
Proof.
  intros Hb Ub. induction l as [|x l IH]; cbn [forM_ List.length Nat.mul].
  - apply Counts_ret.
  - apply Counts_bind; [apply Hb; left; reflexivity|intros _].
    apply IH. intros y Hy. apply Hb. right. exact Hy.
Qed.

Lemma Counts_if {A} (b : bool) (c1 c2 : M A) nv nc :
  Counts c1 nv nc -> Counts c2 nv nc -> Counts (if b then c1 else c2) nv nc.
Proof. destruct b; auto. Qed.

Lemma length_flat_map_const {A B} (f : A -> list B) l k :
  (forall x, In x l -> List.length (f x) = k) ->
  List.length (flat_map f l) = (List.length l * k)%nat.
Proof.
  induction l as [|x l IH]; intros Hall; simpl; [reflexivity|].
  rewrite length_app, (Hall x (or_introl eq_refl)), IH; [reflexivity|].
  intros y Hy. apply Hall. right. exact Hy.
Qed.

Lemma length_cells {A} (mk : string -> string -> A) (S G : list string) :
  List.length (flat_map (fun i => map (fun j => mk i j) G) S)
  = (List.length S * List.length G)%nat.
Proof.
  apply length_flat_map_const. intros. apply length_map.
Qed.

Lemma Counts_add_vars_n ds n :
  List.length ds = n -> Counts (add_vars ds) n 0.
Proof. intros <-. apply Counts_add_vars. Qed.

Lemma Counts_eq {A} (c : M A) a b a' b' :
  Counts c a b -> a = a' -> b = b' -> Counts c a' b'.
Proof. intros Hc <- <-. exact Hc. Qed.

End CountingSteps.

Ltac counts :=
  repeat (cbv beta;
    lazymatch goal with
    | |- Model.Counts (Model.bind _ _) _ _ =>
        eapply Counts_bind; [|intros]
    | |- Model.Counts (Model.ret _) _ _ => apply Counts_ret
    | |- Model.Counts (Model.lift (inr _)) _ _ => apply Counts_lift
    | |- Model.Counts (Model.add_vars _) _ _ =>
        apply Counts_add_vars_n;
        rewrite ?length_cells, ?length_map; reflexivity
    | |- Model.Counts (Model.add_constr _) _ _ => apply Counts_add_constr
    end).

Section BuildOutcome.
Import Model CNAlign.
Context `{Platform}.

Ltac calls :=
  unfold addConstr, addGenConstrIndicator, addGenConstrAnd, addGenConstrOr,
    addVar, addVars1, addVars2.

Lemma declare_counts p S G z_lb z_ub :
  recip (max_purity p) = inr z_lb -> recip (min_purity p) = inr z_ub ->
  S <> [] ->
  Counts (declare p S G)
         (37 * (List.length S * List.length G) + List.length G
          + 4 * List.length S + 4) 1.
Proof.
  intros Hl Hu Hne.
  assert (Hn : Nat.eqb (List.length S) 0 = false)
    by (destruct S; [contradiction|reflexivity]).
  unfold declare. rewrite Hl, Hu, Hn. cbv iota. calls.
  eapply Counts_eq; [counts| |reflexivity].
  cbn [List.length]. lia.
Qed.

Lemma cell_counts dat p S t s r :
  loc dat t s = inr r -> Counts (cell dat p S t s) 0 47.
Proof.
  intros Hr. split; [apply Uniform_cell|].
  split; [|split; [rewrite cell_no_vars; reflexivity|]].
  - exists tt. unfold result, cell. rewrite Hr. cell_steps.
    destruct (Qeq_bool (BAF r) (-9)); cell_steps; reflexivity.
  - unfold out_constrs, cell. rewrite Hr. cell_steps.
    destruct (Qeq_bool (BAF r) (-9)); cell_steps; reflexivity.
Qed.

Lemma traverse_succeeds {A B} (f : A -> Model.error + B) l :
  (forall x, In x l -> exists y, f x = inr y) ->
  exists ys, traverse f l = inr ys.
Proof.
  induction l as [|x l IH]; intros Hall; simpl; [eauto|].
  destruct (Hall x (or_introl eq_refl)) as [y ->].
  destruct IH as [ys ->]; [intros z Hz; apply Hall; right; exact Hz|].
  simpl. eauto.
Qed.

Lemma sample_level_counts dat G t :
  (forall s, In s G -> exists r, loc dat t s = inr r) ->
  Counts (sample_level dat G t) 0 2.
Proof.
  intros Hall.
  destruct (traverse_succeeds (fun s => fmap mb (loc dat t s)) G) as [mbs E].
  { intros s Hs. destruct (Hall s Hs) as [r ->]. simpl. eauto. }
  unfold sample_level. rewrite E. calls.
  eapply Counts_eq; [counts|reflexivity|reflexivity].
Qed.

Lemma segment_level_counts p S s : Counts (segment_level p S s) 0 1.
Proof. unfold segment_level. calls. apply Counts_add_constr. Qed.

Lemma errors_counts p S G :
  Counts (errors p S G)
         (if obj2_clonalonly p then 2 * (List.length S * List.length G)
          else 0)
         (3 + if obj2_clonalonly p
              then 8 * (List.length S * List.length G) else 0).
Proof.
  unfold errors. destruct (obj2_clonalonly p); cbv [negb]; calls.
  - eapply Counts_eq.
    + eapply Counts_bind; [apply Counts_add_constr|intros _].
      eapply Counts_bind;
        [apply Counts_add_vars_n; apply length_cells|intros _].
      eapply Counts_bind;
        [apply Counts_add_vars_n; apply length_cells|intros _].
      eapply Counts_bind; [|intros _; counts].
      apply (Counts_forM_ S _ (List.length G * 0) (List.length G * 8)).
      * intros t _. apply Counts_forM_; intros;
          [eapply Counts_eq; [counts|reflexivity|reflexivity]|uniform].
      * intros t. uniform.
    + lia.
    + lia.
  - eapply Counts_eq; [counts|reflexivity|reflexivity].
Qed.

(** The construction of variables and constraints succeeds when the two
    purity bounds are nonzero, the table is not empty and every pair has
    its row; it then adds the stated numbers of variables and
    constraints. *)
Lemma build_counts dat p S G z_lb z_ub :
  recip (max_purity p) = inr z_lb -> recip (min_purity p) = inr z_ub ->
  S <> [] ->
  (forall t s, In t S -> In s G -> exists r, loc dat t s = inr r) ->
  Counts (build dat p S G)
    (37 * (List.length S * List.length G) + List.length G
     + 4 * List.length S + 4
     + (if obj2_clonalonly p then 2 * (List.length S * List.length G)
        else 0))
    (47 * (List.length S * List.length G) + List.length G
     + 2 * List.length S + 4
     + (if obj2_clonalonly p then 8 * (List.length S * List.length G)
        else 0)).
Proof.
  intros Hl Hu Hne Hloc. unfold build.
  eapply Counts_eq.
  - eapply Counts_bind; [apply (declare_counts p S G _ _ Hl Hu Hne)|intros _].
    eapply Counts_bind; [|intros _].
    { apply (Counts_forM_ G _ (List.length S * 0) (List.length S * 47)).
      - intros s Hs. apply Counts_forM_.
        + intros t Ht. destruct (Hloc t s Ht Hs) as [r Hr].
          apply (cell_counts _ _ _ _ _ r Hr).
        + intros t. apply Uniform_cell.
      - intros s. apply Uniform_forM_. intros t. apply Uniform_cell. }
    eapply Counts_bind; [|intros _].
    { apply (Counts_forM_ G _ 0 1).
      - intros s _. apply segment_level_counts.
      - intros s. apply Uniform_segment_level. }
    eapply Counts_bind; [|intros _; apply errors_counts].
    apply (Counts_forM_ S _ 0 2).
    + intros t Ht. apply sample_level_counts. intros s Hs.
      apply (Hloc t s Ht Hs).
    + intros t. apply Uniform_sample_level.
  - destruct (obj2_clonalonly p); lia.
  - destruct (obj2_clonalonly p); lia.
Qed.



(** X7.  A model built for [n] samples and [k] segments has
    [37nk + k + 4n + 4] variables and [47nk + k + 2n + 4] constraints;
    with [obj2_clonalonly] it has [2nk] more variables and [8nk] more
    constraints. *)
Theorem model_size dat lic p m :
  CNAlign dat lic p new_model = (m, inr tt) ->
  let n := List.length (unique (map sample dat)) in
  let k := List.length (unique (map segment dat)) in
  List.length (vars m)
  = (37 * (n * k) + k + 4 * n + 4
     + (if obj2_clonalonly p then 2 * (n * k) else 0))%nat
  /\ List.length (constrs m)
     = (47 * (n * k) + k + 2 * n + 4
        + (if obj2_clonalonly p then 8 * (n * k) else 0))%nat.
Proof.
  intros Hrun. cbv zeta.
  apply CNAlign_ok in Hrun as (_ & Hres & -> & -> & _).
  pose proof Hres as Hres'.
  apply build_ok in Hres' as (Hd & Hcell & _).
  destruct (declare_result _ _ _ Hd) as (zl & zu & Hl & Hu & Hn).
  destruct (build_counts (recode dat) p (unique (map sample dat))
              (unique (map segment dat)) zl zu Hl Hu)
    as (_ & _ & Hv & Hc).
  - intros E. rewrite E in Hn. discriminate.
  - intros t s Ht Hs. apply (cell_result _ p (unique (map sample dat)) t s).
    apply Hcell; assumption.
  - split; assumption.
Qed.

End BuildOutcome.

Section BuildOutcomeWitness.
Import Model CNAlign Examples.

Lemma model_size_witness :
  List.length (vars (built 1)) = 84%nat
  /\ List.length (constrs (built 1)) = 102%nat.
Proof.
  exact (@model_size platform dat license_file (arguments 1) (built 1)
           (example_builds 1)).
Defined.

End BuildOutcomeWitness.

(** ** The function on a table of floats *)

Section RawSteps.
Import Model CNAlign.
Context `{Platform}.

Ltac calls :=
  unfold addConstr, addGenConstrIndicator, addGenConstrAnd, addGenConstrOr,
    addVar, addVars1, addVars2, Raw.coefficients.













(** [traverse] returns the results in order, or the first error. *)
Lemma traverse_inr {A B} (f : A -> Model.error + B) l ys :
  traverse f l = inr ys <-> Forall2 (fun x y => f x = inr y) l ys.
Proof.
  revert ys. induction l as [|x l IH]; intros ys; simpl.
  - split; [intros [= <-]; constructor|intros Hf; inversion Hf; reflexivity].
  - destruct (f x) as [e|y] eqn:Ex.
    + split; [discriminate|]. intros Hf.
      inversion Hf as [|? ? ? ? Hx Hrest]; subst. congruence.
    + destruct (traverse f l) as [e|ys'] eqn:Et; simpl.
      * split; [discriminate|]. intros Hf.
        inversion Hf as [|? ? ? ? Hx Hrest]; subst.
        apply IH in Hrest. discriminate Hrest.
      * split.
        -- intros [= <-]. constructor; [exact Ex|]. apply IH. reflexivity.
        -- intros Hf. inversion Hf as [|? ? ? ? Hx Hrest]; subst.
           apply IH in Hrest. injection Hrest as <-. congruence.
Qed.



Lemma raw_sample_level_ok dat G t :
  result (Raw.sample_level dat G t) = inr tt ->
  forall s, In s G -> exists x, Raw.loc dat t s = inr x
                                /\ Float.is_finite (Raw.mb x) = true.
Proof.
  unfold result, Raw.sample_level, Raw.coefficients.
  destruct (traverse (fun s => fmap Raw.mb (Raw.loc dat t s)) G)
    as [e|mbs] eqn:E; cell_steps; [discriminate|].
  destruct (forallb Float.is_finite mbs) eqn:Hm; cell_steps;
    [|discriminate].
  intros _. apply traverse_inr in E. clear - E Hm.
  induction E as [|s l G mbs Hs E IH]; intros s' Hin; [destruct Hin|].
  simpl in Hm. apply andb_true_iff in Hm as [Hl Hm].
  destruct Hin as [<-|Hin]; [|apply IH; assumption].
  destruct (Raw.loc dat t s) as [e|x]; [discriminate Hs|].
  simpl in Hs. injection Hs as <-. exists x. auto.
Qed.


Lemma raw_sample_level_fails dat G t s x :
  In s G -> Raw.loc dat t s = inr x -> Float.is_finite (Raw.mb x) = false ->
  exists e, result (Raw.sample_level dat G t) = inl e.
Proof.
  intros Hs Hl Hm.
  destruct (result (Raw.sample_level dat G t)) as [e|[]] eqn:Hr; [eauto|].
  destruct (raw_sample_level_ok dat G t Hr s Hs) as (x' & Hl' & Hm').
  congruence.
Qed.


End RawSteps.

Section RawBuild.
Import Model CNAlign.
Context `{Platform}.






(** The rows of the recoded table are the recoded rows. *)
Lemma raw_recode_keys dat :
  map Raw.sample (Raw.recode dat) = map Raw.sample dat
  /\ map Raw.segment (Raw.recode dat) = map Raw.segment dat.
Proof.
  unfold Raw.recode. rewrite !map_map. split; reflexivity.
Qed.

End RawBuild.

Section RawOutcome.
Import Model CNAlign.
Context `{Platform}.

Lemma set_objectives_result p m : snd (set_objectives p m) = inr tt.
Proof. reflexivity. Qed.





End RawOutcome.

Section RawAgrees.
Import Model CNAlign.
Context `{Platform}.

Lemma of_Q_finite q :
  Float.is_finite (Float.of_Q q) = true -> Float.of_Q q = Float.Num q.
Proof.
  unfold Float.of_Q. destruct (Float.round64 q); [reflexivity|].
  destruct (Qlt_bool q 0); discriminate.
Qed.

Lemma raw_recode_of dat :
  Raw.recode (map Raw.of_row dat) = map Raw.of_recoded (recode dat).
Proof.
  unfold Raw.recode, recode. rewrite !map_map. apply map_ext.
  intros r. unfold Raw.recode_row, Raw.of_row, Raw.of_recoded, recode_row.
  cbn [Raw.sample Raw.segment Raw.logR Raw.BAF Raw.GC Raw.mb
       sample segment logR BAF GC mb].
  destruct (BAF r); reflexivity.
Qed.

Lemma raw_loc_of dat t s :
  Raw.loc (map Raw.of_recoded dat) t s = fmap Raw.of_recoded (loc dat t s).
Proof.
  unfold Raw.loc, loc.
  assert (E : filter (fun r => String.eqb (Raw.sample r) t
                               && String.eqb (Raw.segment r) s)
                     (map Raw.of_recoded dat)
              = map Raw.of_recoded
                  (filter (fun r => String.eqb (sample r) t
                                    && String.eqb (segment r) s) dat)).
  { induction dat as [|r dat IH]; [reflexivity|]. simpl.
    destruct (String.eqb (sample r) t && String.eqb (segment r) s); simpl;
      rewrite IH; reflexivity. }
  rewrite E. destruct (filter _ dat) as [|x [|y l]]; reflexivity.
Qed.

Lemma raw_cell_agrees dat p S t s m :
  (forall y, loc dat t s = inr y -> Raw.in_range y) ->
  Raw.cell (map Raw.of_recoded dat) p S t s m = cell dat p S t s m.
Proof.
  intros Hy. unfold Raw.cell, cell. rewrite raw_loc_of.
  destruct (loc dat t s) as [e|y]; [reflexivity|].
  destruct (Hy y eq_refl) as [Ha Hr1]. clear Hy.
  unfold Raw.accepted, Raw.cell_coefficients in Ha.
  apply andb_true_iff in Ha as [_ Hc]. cbv zeta in Hc.
  cbn [Raw.of_recoded Raw.logR Raw.BAF Raw.GC Raw.mb] in Hc.
  unfold Float.add in Hc. apply of_Q_finite in Hr1.
  rewrite Hr1 in Hc. cbn [Raw.pow2_float Float.eqb] in Hc.
  cbv [bind lift fmap ret Raw.logR Raw.BAF Raw.GC Raw.mb Raw.of_recoded
       Float.add Raw.coefficients].
  rewrite Hr1. cbn [Raw.pow2_float Float.eqb Float.is_finite orb].
  destruct (Qeq_bool _ (-9)); cbn [negb] in Hc |- *.
  - pose proof Hc as Hc'. cbn [forallb] in Hc'.
    apply andb_true_iff in Hc' as [_ Hc'].
    apply andb_true_iff in Hc' as [Hc0 _].
    apply of_Q_finite in Hc0.
    rewrite Hc0 in Hc |- *. rewrite Hc.
    cbn [Float.to_Q]. reflexivity.
  - pose proof Hc as Hc'. cbn [forallb] in Hc'.
    apply andb_true_iff in Hc' as [_ Hc'].
    apply andb_true_iff in Hc' as [_ Hc'].
    apply andb_true_iff in Hc' as [Hc0 Hc'].
    apply andb_true_iff in Hc' as [Hc1 _].
    apply of_Q_finite in Hc0. apply of_Q_finite in Hc1.
    rewrite Hc0, Hc1 in Hc |- *. rewrite Hc.
    cbn [Float.to_Q]. reflexivity.
Qed.

Lemma raw_sample_level_agrees dat G t m :
  Raw.sample_level (map Raw.of_recoded dat) G t m = sample_level dat G t m.
Proof.
  unfold Raw.sample_level, sample_level.
  assert (E : traverse (fun s => fmap Raw.mb
                                   (Raw.loc (map Raw.of_recoded dat) t s)) G
              = fmap (map Float.Num)
                     (traverse (fun s => fmap mb (loc dat t s)) G)).
  { induction G as [|s G IH]; [reflexivity|]. simpl.
    rewrite raw_loc_of, IH.
    destruct (loc dat t s) as [e|y]; [reflexivity|]. simpl.
    destruct (traverse (fun s0 => fmap mb (loc dat t s0)) G); reflexivity. }
  rewrite E.
  destruct (traverse (fun s0 => fmap mb (loc dat t s0)) G) as [e|mbs];
    [reflexivity|].
  assert (Hf : forallb Float.is_finite (map Float.Num mbs) = true)
    by (clear; induction mbs; simpl; auto).
  assert (Hq : map Float.to_Q (map Float.Num mbs) = mbs)
    by (clear; induction mbs as [|q l IH]; simpl; [|rewrite IH];
        reflexivity).
  cbv [fmap bind lift Raw.coefficients]. rewrite Hf, Hq. reflexivity.
Qed.

Lemma bind_pointwise {A B} (c c' : M A) (f f' : A -> M B) m :
  c m = c' m -> (forall x m', f x m' = f' x m') ->
  bind c f m = bind c' f' m.
Proof.
  intros Hc Hf. unfold bind. rewrite Hc.
  destruct (c' m) as [m' [e|x]]; [reflexivity|apply Hf].
Qed.

Lemma forM_pointwise {A} (l : list A) (f g : A -> M unit) :
  (forall x, In x l -> forall m, f x m = g x m) ->
  forall m, forM_ l f m = forM_ l g m.
Proof.
  induction l as [|x l IH]; intros Hfg m; [reflexivity|]. simpl.
  apply bind_pointwise; [apply Hfg; left; reflexivity|].
  intros _ m'. apply IH. intros y Hy. apply Hfg. right. exact Hy.
Qed.

(** On a table of rationals whose numbers stay in range the run on the
    table of floats is the run of [CNAlign.CNAlign]. *)
Lemma raw_agrees dat lic p m :
  (forall t s y, In t (unique (map sample dat)) ->
                 In s (unique (map segment dat)) ->
                 loc (recode dat) t s = inr y -> Raw.in_range y) ->
  Raw.CNAlign (map Raw.of_row dat) lic p m = CNAlign dat lic p m.
Proof.
  intros Hy. unfold Raw.CNAlign, CNAlign.
  assert (ES : map Raw.sample (map Raw.of_row dat) = map sample dat)
    by (rewrite map_map; reflexivity).
  assert (EG : map Raw.segment (map Raw.of_row dat) = map segment dat)
    by (rewrite map_map; reflexivity).
  rewrite ES, EG, raw_recode_of.
  apply bind_pointwise; [reflexivity|]. intros params m1.
  apply bind_pointwise; [reflexivity|]. intros _ m2.
  apply bind_pointwise; [reflexivity|]. intros _ m3.
  apply bind_pointwise; [|reflexivity].
  unfold Raw.build, build.
  apply bind_pointwise; [reflexivity|]. intros _ m4.
  apply bind_pointwise.
  { apply forM_pointwise. intros s Hs m5. apply forM_pointwise. intros t Ht m6.
    apply raw_cell_agrees. intros y Hl. apply (Hy t s y Ht Hs Hl). }
  intros _ m5.
  apply bind_pointwise; [reflexivity|]. intros _ m6.
  apply bind_pointwise; [|reflexivity].
  apply forM_pointwise. intros t _ m7. apply raw_sample_level_agrees.
Qed.

End RawAgrees.

Section RawWitnesses.
Import Model CNAlign Examples.



(** The instance stays in range, so its run on floats is the run on
    rationals. *)
Lemma example_in_range :
  forall m, @Raw.CNAlign platform (map Raw.of_row dat) license_file
                         (arguments 1) m
            = @CNAlign.CNAlign platform dat license_file (arguments 1) m.
Proof.
  intros m. apply raw_agrees.
  intros t s y Ht Hs Hl.
  assert (Ht' : t = "A"%string)
    by (vm_compute in Ht; destruct Ht as [<-|[]]; reflexivity).
  assert (Hs' : s = "s1"%string \/ s = "s2"%string)
    by (vm_compute in Hs; destruct Hs as [<-|[<-|[]]]; auto).
  subst t. destruct Hs' as [-> | ->]; vm_compute in Hl;
    injection Hl as <-; split; vm_compute; reflexivity.
Qed.

End RawWitnesses.

(** ** What a feasible assignment says about the copy numbers *)

Section Numbers.
Import Model CNAlign.
Context `{Platform}.

Lemma within_integral a d :
  within a d = true -> v_type d = INTEGER ->
  exists k : Z, a (v_id d) == inject_Z k.
Proof.
  unfold within. intros Hw Ht. rewrite Ht in Hw.
  rewrite !andb_true_iff in Hw. destruct Hw as [_ Hi].
  unfold is_integral in Hi. apply Qeq_bool_iff in Hi. eauto.
Qed.

Lemma Qabs_le_of x y e : x - y <= e -> y - x <= e -> Qabs (x - y) <= e.
Proof. intros H1 H2. apply Qabs_Qle_condition. split; lra. Qed.

(** The linear constraints of one cell, read on an assignment that
    satisfies them. *)
Lemma cell_numbers dat p S t s r a :
  loc dat t s = inr r ->
  (forall c, In c (out_constrs (cell dat p S t s)) -> holds a c = true) ->
  let mean f :=
    quicksum (map (fun t' a => a (Cell f t' s)) S) a
    / of_nat (List.length S) in
  let near x x_int err :=
    a x - (1#2) <= a x_int /\ a x_int <= a x + (1#2)
    /\ Qabs (a x_int - a x) <= a err in
  near (Cell tcn t s) (Cell tcn_int t s) (Cell tcn_int_err t s)
  /\ near (Cell mcn t s) (Cell mcn_int t s) (Cell mcn_int_err t s)
  /\ near (Cell tcn_avg t s) (Cell tcn_avg_int t s) (Cell tcn_avg_int_err t s)
  /\ near (Cell mcn_avg t s) (Cell mcn_avg_int t s) (Cell mcn_avg_int_err t s)
  /\ a (Cell tcn_avg t s) == mean tcn
  /\ a (Cell mcn_avg t s) == mean mcn
  /\ Qabs (a (Cell tcn t s) - a (Cell tcn_avg t s)) <= a (Cell tcn_spread t s)
  /\ Qabs (a (Cell mcn t s) - a (Cell mcn_avg t s)) <= a (Cell mcn_spread t s)
  /\ (a (Cell mcn_gain t s) == 1 ->
      (if Qeq_bool (BAF r) (-9) then 0 else GC r - 1) + 1
      <= a (Cell mcn_int t s))
  /\ (a (Cell mcn_loss t s) == 1 ->
      a (Cell mcn_int t s)
      <= (if Qeq_bool (BAF r) (-9) then 0 else GC r - 1) - 1)
  /\ (a (Cell is_homdel t s) == 1 -> a (Cell tcn t s) <= 1#2).
Proof.
  intros Hr Hc. cbv zeta.
  assert (Near : forall x x_int err,
    In (Lin (fun a => a x_int) LESS_EQUAL (fun a => a x + (1#2)))
       (out_constrs (cell dat p S t s)) ->
    In (Lin (fun a => a x_int) GREATER_EQUAL (fun a => a x - (1#2)))
       (out_constrs (cell dat p S t s)) ->
    (In (Lin (fun a => a err) GREATER_EQUAL (fun a => a x_int - a x))
        (out_constrs (cell dat p S t s))
     /\ In (Lin (fun a => a err) GREATER_EQUAL (fun a => - a x_int + a x))
           (out_constrs (cell dat p S t s)))
    \/ (In (Lin (fun a => a err) GREATER_EQUAL (fun a => a x - a x_int))
           (out_constrs (cell dat p S t s))
        /\ In (Lin (fun a => a err) GREATER_EQUAL (fun a => - a x + a x_int))
              (out_constrs (cell dat p S t s))) ->
    a x - (1#2) <= a x_int /\ a x_int <= a x + (1#2)
    /\ Qabs (a x_int - a x) <= a err).
  { intros x x_int err H1 H2 H34.
    apply Hc in H1. apply Hc in H2.
    apply holds_le in H1. apply holds_ge in H2.
    split; [exact H2|]. split; [exact H1|].
    destruct H34 as [[H3 H4]|[H3 H4]];
      apply Hc in H3; apply Hc in H4;
      apply holds_ge in H3; apply holds_ge in H4;
      apply Qabs_le_of; lra. }
  split.
  { apply Near; [cell_in Hr r|cell_in Hr r|left; split; cell_in Hr r]. }
  split.
  { apply Near; [cell_in Hr r|cell_in Hr r|left; split; cell_in Hr r]. }
  split.
  { apply Near; [cell_in Hr r|cell_in Hr r|right; split; cell_in Hr r]. }
  split.
  { apply Near; [cell_in Hr r|cell_in Hr r|right; split; cell_in Hr r]. }
  split.
  { refine (holds_eq a (fun a => a (Cell tcn_avg t s))
              (fun a => quicksum (map (fun t' a => a (Cell tcn t' s)) S) a
                        / of_nat (List.length S)) _).
    apply Hc. cell_in Hr r. }
  split.
  { refine (holds_eq a (fun a => a (Cell mcn_avg t s))
              (fun a => quicksum (map (fun t' a => a (Cell mcn t' s)) S) a
                        / of_nat (List.length S)) _).
    apply Hc. cell_in Hr r. }
  split.
  { assert (H1 : holds a (Lin (fun a => a (Cell tcn_spread t s))
                     GREATER_EQUAL
                     (fun a => a (Cell tcn_avg t s) - a (Cell tcn t s))) = true)
      by (apply Hc; cell_in Hr r).
    assert (H2 : holds a (Lin (fun a => a (Cell tcn_spread t s))
                     GREATER_EQUAL
                     (fun a => - a (Cell tcn_avg t s) + a (Cell tcn t s)))
                 = true)
      by (apply Hc; cell_in Hr r).
    apply holds_ge in H1. apply holds_ge in H2.
    apply Qabs_le_of; lra. }
  split.
  { assert (H1 : holds a (Lin (fun a => a (Cell mcn_spread t s))
                     GREATER_EQUAL
                     (fun a => a (Cell mcn_avg t s) - a (Cell mcn t s))) = true)
      by (apply Hc; cell_in Hr r).
    assert (H2 : holds a (Lin (fun a => a (Cell mcn_spread t s))
                     GREATER_EQUAL
                     (fun a => - a (Cell mcn_avg t s) + a (Cell mcn t s)))
                 = true)
      by (apply Hc; cell_in Hr r).
    apply holds_ge in H1. apply holds_ge in H2.
    apply Qabs_le_of; lra. }
  split.
  { apply (holds_indicator_ge a _ (fun a => a (Cell mcn_int t s))).
    apply Hc. unfold out_constrs, cell. rewrite Hr. cell_steps.
    destruct (Qeq_bool (BAF r) (-9)); cell_steps; pick. }
  split.
  { apply (holds_indicator_le a _ (fun a => a (Cell mcn_int t s))).
    apply Hc. unfold out_constrs, cell. rewrite Hr. cell_steps.
    destruct (Qeq_bool (BAF r) (-9)); cell_steps; pick. }
  apply (holds_indicator_le a _ (fun a => a (Cell tcn t s))).
  apply Hc. cell_in Hr r.
Qed.

End Numbers.

Section StepMembership.
Import Model.

Lemma in_bind_left {A B} (c : M A) (f : A -> M B) k :
  Uniform c -> (forall x, Uniform (f x)) ->
  In k (out_constrs c) -> In k (out_constrs (bind c f)).
Proof.
  intros Uc Uf Hin. pose proof (bind_out c f Uc Uf) as Ho.
  destruct (result c) as [e|x].
  - destruct Ho as (_ & -> & _). exact Hin.
  - destruct Ho as (_ & -> & _). apply in_or_app. left. exact Hin.
Qed.

Lemma in_bind_right {A B} (c : M A) (f : A -> M B) x k :
  Uniform c -> (forall x, Uniform (f x)) -> result c = inr x ->
  In k (out_constrs (f x)) -> In k (out_constrs (bind c f)).
Proof.
  intros Uc Uf Hr Hin. pose proof (bind_out c f Uc Uf) as Ho.
  rewrite Hr in Ho. destruct Ho as (_ & -> & _).
  apply in_or_app. right. exact Hin.
Qed.

Lemma in_forM_ {A} (l : list A) (body : A -> M unit) x k :
  (forall x, Uniform (body x)) ->
  (forall x, In x l -> result (body x) = inr tt) ->
  In x l -> In k (out_constrs (body x)) ->
  In k (out_constrs (forM_ l body)).
Proof.
  intros Ub Hres Hx Hin.
  destruct (forM_ok l body Ub (forM_result l body Ub Hres)) as (_ & _ & ->).
  apply in_flat_map. exists x. split; assumption.
Qed.

Lemma quicksum_cons (e : expr) l a :
  quicksum (e :: l) a = e a + quicksum l a.
Proof. reflexivity. Qed.

Lemma quicksum_le {X} (f g : X -> expr) l a :
  (forall x, In x l -> f x a <= g x a) ->
  quicksum (map f l) a <= quicksum (map g l) a.
Proof.
  induction l as [|x l IH]; intros Hall; [apply Qle_refl|].
  cbn [map]. rewrite !quicksum_cons.
  apply Qplus_le_compat; [apply Hall; left; reflexivity|].
  apply IH. intros y Hy. apply Hall. right. exact Hy.
Qed.

Lemma quicksum_ext {X} (f g : X -> expr) l a :
  (forall x, In x l -> f x a == g x a) ->
  quicksum (map f l) a == quicksum (map g l) a.
Proof.
  induction l as [|x l IH]; intros Hall; [reflexivity|].
  cbn [map]. rewrite !quicksum_cons.
  rewrite (Hall x (or_introl eq_refl)), IH; [reflexivity|].
  intros y Hy. apply Hall. right. exact Hy.
Qed.

End StepMembership.

Section Totals.
Import Model CNAlign.
Context `{Platform}.

Ltac calls :=
  unfold addConstr, addGenConstrIndicator, addGenConstrAnd, addGenConstrOr,
    addVar, addVars1, addVars2.

(** The declared types and bounds of the remaining variables, read on a
    feasible assignment. *)
Lemma feasible_declared_more dat lic p m a :
  CNAlign dat lic p new_model = (m, inr tt) ->
  feasible m a = true ->
  let S := unique (map sample dat) in
  let G := unique (map segment dat) in
  (forall t s, In t S -> In s G ->
     (exists k : Z, a (Cell tcn_int t s) == inject_Z k)
     /\ (exists k : Z, a (Cell mcn_int t s) == inject_Z k)
     /\ (exists k : Z, a (Cell tcn_avg_int t s) == inject_Z k)
     /\ (exists k : Z, a (Cell mcn_avg_int t s) == inject_Z k)
     /\ (a (Cell is_cna t s) == 0 \/ a (Cell is_cna t s) == 1)
     /\ (a (Cell tcn_gain t s) == 0 \/ a (Cell tcn_gain t s) == 1)
     /\ (a (Cell tcn_loss t s) == 0 \/ a (Cell tcn_loss t s) == 1)
     /\ (a (Cell is_homdel t s) == 0 \/ a (Cell is_homdel t s) == 1))
  /\ (forall t, In t S ->
      (exists k : Z, a (Sample n_cna_segments_per_sample t) == inject_Z k)
      /\ min_cna_segments_per_sample p
         <= a (Sample n_cna_segments_per_sample t)
      /\ a (Sample n_cna_segments_per_sample t) <= of_nat (List.length G)
      /\ 0 <= a (Sample homdel_mb t)
      /\ a (Sample homdel_mb t) <= max_homdel_mb p)
  /\ (forall s, In s G -> a (allmatch s) == 0 \/ a (allmatch s) == 1)
  /\ (exists k : Z, a (Global n_clonal) == inject_Z k)
  /\ 0 <= a (Global n_clonal) /\ a (Global n_clonal) <= of_nat (List.length G)
  /\ min_ploidy p <= a (Global avg_ploidy)
  /\ a (Global avg_ploidy) <= max_ploidy p
  /\ 0 <= a (Global tcn_error_clonal) /\ 0 <= a (Global mcn_error_clonal).
Proof.
  intros Hrun Hf. cbv zeta.
  destruct (feasible_parts dat lic p m a Hrun Hf) as (Hd & Hw & _).
  set (S := unique (map sample dat)) in *.
  set (G := unique (map segment dat)) in *.
  destruct (declare_result _ _ _ Hd) as (zl & zu & Hl & Hu & Hn).
  assert (Hdecl : forall v vt lb ub,
            In {| v_id := v; v_type := vt; v_lb := lb; v_ub := ub |}
               (out_vars (declare p S G)) ->
            lb <= a v
            /\ (forall u, ub = Some u -> a v <= u)
            /\ (vt = BINARY -> a v == 0 \/ a v == 1)
            /\ (vt = INTEGER -> exists k : Z, a v == inject_Z k)).
  { intros v vt lb ub Hin. apply Hw in Hin. split; [|split; [|split]].
    - apply (within_lb a _ Hin).
    - intros u ->. apply (within_ub a _ u Hin). reflexivity.
    - intros ->. apply (within_binary a _ Hin). reflexivity.
    - intros ->. apply (within_integral a _ Hin). reflexivity. }
  clear Hw.
  assert (Hcell : forall t s vt lb f, In t S -> In s G ->
    In {| v_id := Cell f t s; v_type := vt; v_lb := lb;
          v_ub := default_ub |} (out_vars (declare p S G)) ->
    lb <= a (Cell f t s)
    /\ (vt = BINARY -> a (Cell f t s) == 0 \/ a (Cell f t s) == 1)
    /\ (vt = INTEGER -> exists k : Z, a (Cell f t s) == inject_Z k)).
  { intros t s vt lb f _ _ Hin.
    destruct (Hdecl _ _ _ _ Hin) as (D1 & _ & D2 & D3).
    split; [exact D1|]. split; [exact D2|exact D3]. }
  split.
  { intros t s Ht Hs.
    split; [|split; [|split; [|split; [|split; [|split; [|split]]]]]].
    - refine (proj2 (proj2 (Hcell t s INTEGER default_lb tcn_int Ht Hs _))
                eq_refl).
      unfold out_vars, declare; rewrite Hl, Hu, Hn;
      cbv [bind lift ret addVars2 addVars1 addVar add_vars add_constr
           addConstr vars constrs objectives ModelSense PoolSolutions fst
           new_model]; in_decls t s Ht Hs.
    - refine (proj2 (proj2 (Hcell t s INTEGER default_lb mcn_int Ht Hs _))
                eq_refl).
      unfold out_vars, declare; rewrite Hl, Hu, Hn;
      cbv [bind lift ret addVars2 addVars1 addVar add_vars add_constr
           addConstr vars constrs objectives ModelSense PoolSolutions fst
           new_model]; in_decls t s Ht Hs.
    - refine (proj2 (proj2 (Hcell t s INTEGER 0 tcn_avg_int Ht Hs _))
                eq_refl).
      unfold out_vars, declare; rewrite Hl, Hu, Hn;
      cbv [bind lift ret addVars2 addVars1 addVar add_vars add_constr
           addConstr vars constrs objectives ModelSense PoolSolutions fst
           new_model]; in_decls t s Ht Hs.
    - refine (proj2 (proj2 (Hcell t s INTEGER 0 mcn_avg_int Ht Hs _))
                eq_refl).
      unfold out_vars, declare; rewrite Hl, Hu, Hn;
      cbv [bind lift ret addVars2 addVars1 addVar add_vars add_constr
           addConstr vars constrs objectives ModelSense PoolSolutions fst
           new_model]; in_decls t s Ht Hs.
    - refine (proj1 (proj2 (Hcell t s BINARY default_lb is_cna Ht Hs _))
                eq_refl).
      unfold out_vars, declare; rewrite Hl, Hu, Hn;
      cbv [bind lift ret addVars2 addVars1 addVar add_vars add_constr
           addConstr vars constrs objectives ModelSense PoolSolutions fst
           new_model]; in_decls t s Ht Hs.
    - refine (proj1 (proj2 (Hcell t s BINARY default_lb tcn_gain Ht Hs _))
                eq_refl).
      unfold out_vars, declare; rewrite Hl, Hu, Hn;
      cbv [bind lift ret addVars2 addVars1 addVar add_vars add_constr
           addConstr vars constrs objectives ModelSense PoolSolutions fst
           new_model]; in_decls t s Ht Hs.
    - refine (proj1 (proj2 (Hcell t s BINARY default_lb tcn_loss Ht Hs _))
                eq_refl).
      unfold out_vars, declare; rewrite Hl, Hu, Hn;
      cbv [bind lift ret addVars2 addVars1 addVar add_vars add_constr
           addConstr vars constrs objectives ModelSense PoolSolutions fst
           new_model]; in_decls t s Ht Hs.
    - refine (proj1 (proj2 (Hcell t s BINARY default_lb is_homdel Ht Hs _))
                eq_refl).
      unfold out_vars, declare; rewrite Hl, Hu, Hn;
      cbv [bind lift ret addVars2 addVars1 addVar add_vars add_constr
           addConstr vars constrs objectives ModelSense PoolSolutions fst
           new_model]; in_decls t s Ht Hs. }
  assert (HS : exists t0, In t0 S).
  { destruct S as [|t0 S']; [discriminate|]. exists t0. left. reflexivity. }
  destruct HS as [t0 Ht0].
  split.
  { intros t Ht.
    assert (G = [] \/ exists s0, In s0 G) as [HG|[s0 Hs0]].
    { destruct G as [|s0 G']; [left; reflexivity|right].
      exists s0. left. reflexivity. }
    - (* without a segment the declarations are found all the same *)
      assert (Hn1 : In {| v_id := Sample n_cna_segments_per_sample t;
                          v_type := INTEGER;
                          v_lb := min_cna_segments_per_sample p;
                          v_ub := Some (of_nat (List.length G)) |}
                       (out_vars (declare p S G))).
      { unfold out_vars, declare; rewrite Hl, Hu, Hn;
        cbv [bind lift ret addVars2 addVars1 addVar add_vars add_constr
             addConstr vars constrs objectives ModelSense PoolSolutions fst
             new_model].
        in_decls t t Ht Ht. }
      assert (Hn2 : In {| v_id := Sample homdel_mb t; v_type := CONTINUOUS;
                          v_lb := 0; v_ub := Some (max_homdel_mb p) |}
                       (out_vars (declare p S G))).
      { unfold out_vars, declare; rewrite Hl, Hu, Hn;
        cbv [bind lift ret addVars2 addVars1 addVar add_vars add_constr
             addConstr vars constrs objectives ModelSense PoolSolutions fst
             new_model].
        in_decls t t Ht Ht. }
      destruct (Hdecl _ _ _ _ Hn1) as (A1 & A2 & _ & A4).
      destruct (Hdecl _ _ _ _ Hn2) as (B1 & B2 & _).
      split; [apply A4; reflexivity|]. split; [exact A1|].
      split; [apply A2; reflexivity|]. split; [exact B1|].
      apply B2; reflexivity.
    - assert (Hn1 : In {| v_id := Sample n_cna_segments_per_sample t;
                          v_type := INTEGER;
                          v_lb := min_cna_segments_per_sample p;
                          v_ub := Some (of_nat (List.length G)) |}
                       (out_vars (declare p S G))).
      { unfold out_vars, declare; rewrite Hl, Hu, Hn;
        cbv [bind lift ret addVars2 addVars1 addVar add_vars add_constr
             addConstr vars constrs objectives ModelSense PoolSolutions fst
             new_model].
        in_decls t s0 Ht Hs0. }
      assert (Hn2 : In {| v_id := Sample homdel_mb t; v_type := CONTINUOUS;
                          v_lb := 0; v_ub := Some (max_homdel_mb p) |}
                       (out_vars (declare p S G))).
      { unfold out_vars, declare; rewrite Hl, Hu, Hn;
        cbv [bind lift ret addVars2 addVars1 addVar add_vars add_constr
             addConstr vars constrs objectives ModelSense PoolSolutions fst
             new_model].
        in_decls t s0 Ht Hs0. }
      destruct (Hdecl _ _ _ _ Hn1) as (A1 & A2 & _ & A4).
      destruct (Hdecl _ _ _ _ Hn2) as (B1 & B2 & _).
      split; [apply A4; reflexivity|]. split; [exact A1|].
      split; [apply A2; reflexivity|]. split; [exact B1|].
      apply B2; reflexivity. }
  split.
  { intros s Hs.
    assert (Hin : In {| v_id := allmatch s; v_type := BINARY;
                        v_lb := default_lb; v_ub := default_ub |}
                     (out_vars (declare p S G))).
    { unfold out_vars, declare; rewrite Hl, Hu, Hn;
      cbv [bind lift ret addVars2 addVars1 addVar add_vars add_constr
           addConstr vars constrs objectives ModelSense PoolSolutions fst
           new_model].
      in_decls t0 s Ht0 Hs. }
    apply (Hdecl _ _ _ _ Hin). reflexivity. }
  assert (Hc : In {| v_id := Global n_clonal; v_type := INTEGER; v_lb := 0;
                     v_ub := Some (of_nat (List.length G)) |}
                  (out_vars (declare p S G))).
  { unfold out_vars, declare; rewrite Hl, Hu, Hn;
    cbv [bind lift ret addVars2 addVars1 addVar add_vars add_constr
         addConstr vars constrs objectives ModelSense PoolSolutions fst
         new_model].
    in_decls t0 t0 Ht0 Ht0. }
  assert (Hp : In {| v_id := Global avg_ploidy; v_type := CONTINUOUS;
                     v_lb := min_ploidy p; v_ub := Some (max_ploidy p) |}
                  (out_vars (declare p S G))).
  { unfold out_vars, declare; rewrite Hl, Hu, Hn;
    cbv [bind lift ret addVars2 addVars1 addVar add_vars add_constr
         addConstr vars constrs objectives ModelSense PoolSolutions fst
         new_model].
    in_decls t0 t0 Ht0 Ht0. }
  assert (Ht : In {| v_id := Global tcn_error_clonal; v_type := CONTINUOUS;
                     v_lb := 0; v_ub := default_ub |}
                  (out_vars (declare p S G))).
  { unfold out_vars, declare; rewrite Hl, Hu, Hn;
    cbv [bind lift ret addVars2 addVars1 addVar add_vars add_constr
         addConstr vars constrs objectives ModelSense PoolSolutions fst
         new_model].
    in_decls t0 t0 Ht0 Ht0. }
  assert (Hm : In {| v_id := Global mcn_error_clonal; v_type := CONTINUOUS;
                     v_lb := 0; v_ub := default_ub |}
                  (out_vars (declare p S G))).
  { unfold out_vars, declare; rewrite Hl, Hu, Hn;
    cbv [bind lift ret addVars2 addVars1 addVar add_vars add_constr
         addConstr vars constrs objectives ModelSense PoolSolutions fst
         new_model].
    in_decls t0 t0 Ht0 Ht0. }
  destruct (Hdecl _ _ _ _ Hc) as (C1 & C2 & _ & C4).
  destruct (Hdecl _ _ _ _ Hp) as (P1 & P2 & _).
  destruct (Hdecl _ _ _ _ Ht) as (T1 & _).
  destruct (Hdecl _ _ _ _ Hm) as (M1 & _).
  split; [apply C4; reflexivity|]. split; [exact C1|].
  split; [apply C2; reflexivity|]. split; [exact P1|].
  split; [apply P2; reflexivity|]. split; [exact T1|exact M1].
Qed.

End Totals.

Section FeasibleSolutions.
Import Model CNAlign.
Context `{Platform}.

Lemma of_nat_pos (l : list string) x : In x l -> 0 < of_nat (List.length l).
Proof.
  destruct l as [|y l]; [intros []|intros _].
  simpl List.length. rewrite of_nat_succ.
  pose proof (of_nat_nonneg (List.length l)). lra.
Qed.


(** X8.  In a feasible assignment of a built model, the rounded copy
    numbers [tcn_int], [mcn_int], [tcn_avg_int] and [mcn_avg_int] of every
    cell are integers within one half of the value they round, and the
    error variable of each is at least their distance to it. *)
Theorem rounded_to_nearest_integer dat lic p m a t s :
  CNAlign dat lic p new_model = (m, inr tt) ->
  feasible m a = true ->
  In t (unique (map sample dat)) ->
  In s (unique (map segment dat)) ->
  let nearest x x_int err :=
    (exists k : Z, a x_int == inject_Z k)
    /\ Qabs (a x_int - a x) <= 1#2
    /\ Qabs (a x_int - a x) <= a err in
  nearest (Cell tcn t s) (Cell tcn_int t s) (Cell tcn_int_err t s)
  /\ nearest (Cell mcn t s) (Cell mcn_int t s) (Cell mcn_int_err t s)
  /\ nearest (Cell tcn_avg t s) (Cell tcn_avg_int t s)
             (Cell tcn_avg_int_err t s)
  /\ nearest (Cell mcn_avg t s) (Cell mcn_avg_int t s)
             (Cell mcn_avg_int_err t s).
Proof.
  intros Hrun Hf Ht Hs. cbv zeta.
  destruct (feasible_parts dat lic p m a Hrun Hf) as (_ & _ & _ & Hcell & _).
  destruct (Hcell t s Ht Hs) as (r & Hr & Hc).
  pose proof (cell_numbers _ p _ t s r a Hr Hc) as N. cbv zeta in N.
  destruct N as ((A1 & A2 & A3) & (B1 & B2 & B3) & (C1 & C2 & C3)
                 & (D1 & D2 & D3) & _).
  pose proof (feasible_declared_more dat lic p m a Hrun Hf) as D.
  cbv zeta in D. destruct D as (Dc & _).
  destruct (Dc t s Ht Hs) as (I1 & I2 & I3 & I4 & _).
  split; [split; [exact I1|split; [|exact A3]]|].
  { apply Qabs_Qle_condition. split; lra. }
  split; [split; [exact I2|split; [|exact B3]]|].
  { apply Qabs_Qle_condition. split; lra. }
  split; [split; [exact I3|split; [|exact C3]]|].
  { apply Qabs_Qle_condition. split; lra. }
  split; [exact I4|split; [|exact D3]].
  apply Qabs_Qle_condition. split; lra.
Qed.

(** X9.  In a feasible assignment, the average copy numbers of a segment
    are the same for every sample and are the mean over the samples of
    the segment's copy numbers; two samples both flagged close to the
    average differ by at most twice the tolerance. *)
Theorem segment_average_shared dat lic p m a t t' s :
  CNAlign dat lic p new_model = (m, inr tt) ->
  feasible m a = true ->
  In t (unique (map sample dat)) ->
  In t' (unique (map sample dat)) ->
  In s (unique (map segment dat)) ->
  let S := unique (map sample dat) in
  a (Cell tcn_avg t s) == a (Cell tcn_avg t' s)
  /\ a (Cell mcn_avg t s) == a (Cell mcn_avg t' s)
  /\ a (Cell tcn_avg t s) * of_nat (List.length S)
     == quicksum (map (fun u a => a (Cell tcn u s)) S) a
  /\ a (Cell mcn_avg t s) * of_nat (List.length S)
     == quicksum (map (fun u a => a (Cell mcn u s)) S) a
  /\ (a (Cell tcn_close_to_avg t s) == 1 ->
      a (Cell tcn_close_to_avg t' s) == 1 ->
      Qabs (a (Cell tcn t s) - a (Cell tcn t' s)) <= 2 * delta_tcn_to_avg p)
  /\ (a (Cell mcn_close_to_avg t s) == 1 ->
      a (Cell mcn_close_to_avg t' s) == 1 ->
      Qabs (a (Cell mcn t s) - a (Cell mcn t' s)) <= 2 * delta_mcn_to_avg p).
Proof.
  intros Hrun Hf Ht Ht' Hs. cbv zeta.
  destruct (feasible_parts dat lic p m a Hrun Hf) as (_ & _ & _ & Hcell & _).
  destruct (Hcell t s Ht Hs) as (r & Hr & Hc).
  destruct (Hcell t' s Ht' Hs) as (r' & Hr' & Hc').
  pose proof (cell_numbers _ p _ t s r a Hr Hc) as N. cbv zeta in N.
  destruct N as (_ & _ & _ & _ & Ea & Em & Sa & Sm & _).
  pose proof (cell_numbers _ p _ t' s r' a Hr' Hc') as N. cbv zeta in N.
  destruct N as (_ & _ & _ & _ & Ea' & Em' & Sa' & Sm' & _).
  destruct (cell_flags _ p _ t s r a Hr Hc)
    as (_ & _ & _ & _ & _ & _ & Fa & _ & _ & Fm & _).
  destruct (cell_flags _ p _ t' s r' a Hr' Hc')
    as (_ & _ & _ & _ & _ & _ & Fa' & _ & _ & Fm' & _).
  pose proof (of_nat_pos _ _ Ht) as Hn.
  set (n := of_nat (List.length (unique (map sample dat)))) in *.
  assert (Hn0 : ~ n == 0) by lra.
  split; [rewrite Ea, Ea'; reflexivity|].
  split; [rewrite Em, Em'; reflexivity|].
  split; [rewrite Ea; field; exact Hn0|].
  split; [rewrite Em; field; exact Hn0|].
  split.
  - intros C C'. specialize (Fa C). specialize (Fa' C').
    assert (E : a (Cell tcn_avg t s) == a (Cell tcn_avg t' s))
      by (rewrite Ea, Ea'; reflexivity).
    apply Qabs_Qle_condition in Sa. apply Qabs_Qle_condition in Sa'.
    apply Qabs_Qle_condition. split; lra.
  - intros C C'. specialize (Fm C). specialize (Fm' C').
    assert (E : a (Cell mcn_avg t s) == a (Cell mcn_avg t' s))
      by (rewrite Em, Em'; reflexivity).
    apply Qabs_Qle_condition in Sm. apply Qabs_Qle_condition in Sm'.
    apply Qabs_Qle_condition. split; lra.
Qed.

End FeasibleSolutions.

Section MatchingCells.
Import Model CNAlign.
Context `{Platform}.

(** X10.  In a feasible assignment, a cell flagged
    [match_both_and_large_enough_and_cna] has its total and minor copy
    numbers within the tolerances of their rounded values and of the
    segment averages, the averages within tolerance of their rounded
    values, a segment at least [min_aligned_seg_mb] long, and a rounded
    copy number at least one copy away from the germline one. *)
Theorem matching_cell_is_aligned dat lic p m a t s :
  CNAlign dat lic p new_model = (m, inr tt) ->
  feasible m a = true ->
  In t (unique (map sample dat)) ->
  In s (unique (map segment dat)) ->
  a (Cell match_both_and_large_enough_and_cna t s) == 1 ->
  exists r,
    loc (recode dat) t s = inr r
    /\ Qabs (a (Cell tcn_int t s) - a (Cell tcn t s)) <= delta_tcn_to_int p
    /\ Qabs (a (Cell tcn t s) - a (Cell tcn_avg t s)) <= delta_tcn_to_avg p
    /\ Qabs (a (Cell tcn_avg_int t s) - a (Cell tcn_avg t s))
       <= delta_tcnavg_to_int p
    /\ Qabs (a (Cell mcn_int t s) - a (Cell mcn t s)) <= delta_mcn_to_int p
    /\ Qabs (a (Cell mcn t s) - a (Cell mcn_avg t s)) <= delta_mcn_to_avg p
    /\ Qabs (a (Cell mcn_avg_int t s) - a (Cell mcn_avg t s))
       <= delta_mcnavg_to_int p
    /\ min_aligned_seg_mb p <= mb r
    /\ (let mcn_wt := if Qeq_bool (BAF r) (-9) then 0 else GC r - 1 in
        GC r + 1 <= a (Cell tcn_int t s)
        \/ a (Cell tcn_int t s) <= GC r - 1
        \/ mcn_wt + 1 <= a (Cell mcn_int t s)
        \/ a (Cell mcn_int t s) <= mcn_wt - 1).
Proof.
  intros Hrun Hf Ht Hs Hm.
  destruct (feasible_parts dat lic p m a Hrun Hf) as (_ & _ & _ & Hcell & _).
  destruct (Hcell t s Ht Hs) as (r & Hr & Hc).
  exists r. split; [exact Hr|].
  pose proof (cell_numbers _ p _ t s r a Hr Hc) as N. cbv zeta in N.
  destruct N as ((_ & _ & A3) & (_ & _ & B3) & (_ & _ & C3) & (_ & _ & D3)
                 & _ & _ & Sa & Sm & Mg & Ml & _).
  destruct (cell_flags _ p _ t s r a Hr Hc)
    as (F1 & F2 & F3 & F4 & F5 & T1 & T2 & T3 & M1 & M2 & M3 & Tg & Tl & L).
  apply F1 in Hm. destruct Hm as (Hb & Hl & Hcna).
  apply F2 in Hb. destruct Hb as (Hbt & Hbm).
  apply F3 in Hbt. destruct Hbt as (Ht1 & Ht2 & Ht3).
  apply F4 in Hbm. destruct Hbm as (Hm1 & Hm2 & Hm3).
  split; [eapply Qle_trans; [exact A3|exact (T1 Ht1)]|].
  split; [eapply Qle_trans; [exact Sa|exact (T2 Ht2)]|].
  split; [eapply Qle_trans; [exact C3|exact (T3 Ht3)]|].
  split; [eapply Qle_trans; [exact B3|exact (M1 Hm1)]|].
  split; [eapply Qle_trans; [exact Sm|exact (M2 Hm2)]|].
  split; [eapply Qle_trans; [exact D3|exact (M3 Hm3)]|].
  split; [exact (L Hl)|]. cbv zeta.
  apply F5 in Hcna. destruct Hcna as [G1|[G2|[G3|G4]]].
  - left. exact (Tg G1).
  - right; left. exact (Tl G2).
  - right; right; left. exact (Mg G3).
  - right; right; right. exact (Ml G4).
Qed.


(** X12.  In a feasible assignment, a cell flagged as gain has a total
    copy number at least [GC + 1/2], one flagged as loss at most
    [GC - 1/2], and none is flagged both; a cell flagged [is_homdel] has
    a total copy number of at most one half; a cell of a row without BAF
    carries neither minor-copy flag, so that [is_cna] is the total-copy
    flag. *)
Theorem gain_and_loss_flags dat lic p m a t s :
  CNAlign dat lic p new_model = (m, inr tt) ->
  feasible m a = true ->
  In t (unique (map sample dat)) ->
  In s (unique (map segment dat)) ->
  exists r,
    loc (recode dat) t s = inr r
    /\ (a (Cell tcn_gain t s) == 1 -> GC r + (1#2) <= a (Cell tcn t s))
    /\ (a (Cell tcn_loss t s) == 1 -> a (Cell tcn t s) <= GC r - (1#2))
    /\ ~ (a (Cell tcn_gain t s) == 1 /\ a (Cell tcn_loss t s) == 1)
    /\ ~ (a (Cell mcn_gain t s) == 1 /\ a (Cell mcn_loss t s) == 1)
    /\ (a (Cell is_homdel t s) == 1 -> a (Cell tcn t s) <= 1#2)
    /\ (BAF r == -9 ->
        ~ a (Cell mcn_gain t s) == 1 /\ ~ a (Cell mcn_loss t s) == 1
        /\ (a (Cell is_cna t s) == 1 <->
            a (Cell tcn_gain t s) == 1 \/ a (Cell tcn_loss t s) == 1)).
Proof.
  intros Hrun Hf Ht Hs.
  destruct (feasible_parts dat lic p m a Hrun Hf) as (_ & _ & _ & Hcell & _).
  destruct (Hcell t s Ht Hs) as (r & Hr & Hc).
  exists r. split; [exact Hr|].
  pose proof (cell_numbers _ p _ t s r a Hr Hc) as N. cbv zeta in N.
  destruct N as ((A1 & A2 & _) & (B1 & B2 & _) & _ & _ & _ & _ & _ & _
                 & Mg & Ml & Hh).
  destruct (cell_flags _ p _ t s r a Hr Hc)
    as (_ & _ & _ & _ & F5 & _ & _ & _ & _ & _ & _ & Tg & Tl & _).
  split; [intros G1; specialize (Tg G1); lra|].
  split; [intros G1; specialize (Tl G1); lra|].
  split; [intros [G1 G2]; specialize (Tg G1); specialize (Tl G2); lra|].
  split; [intros [G1 G2]; specialize (Mg G1); specialize (Ml G2); lra|].
  split; [exact Hh|].
  intros Hb. apply Qeq_bool_iff in Hb. rewrite Hb in Mg, Ml.
  assert (Hz : a (Cell mcn t s) == 0).
  { refine (holds_eq a (fun a => a (Cell mcn t s)) (fun _ => 0) _).
    apply Hc. unfold out_constrs, cell. rewrite Hr. cell_steps.
    rewrite Hb. cell_steps. pick. }
  assert (Hg : ~ a (Cell mcn_gain t s) == 1)
    by (intros G1; specialize (Mg G1); lra).
  assert (Hl : ~ a (Cell mcn_loss t s) == 1).
  { intros G1. specialize (Ml G1). lra. }
  split; [exact Hg|]. split; [exact Hl|].
  rewrite F5. tauto.
Qed.

End MatchingCells.

Section Aggregates.
Import Model CNAlign.
Context `{Platform}.

Ltac calls :=
  unfold addConstr, addGenConstrIndicator, addGenConstrAnd, addGenConstrOr,
    addVar, addVars1, addVars2.

Lemma filter_length_le {A} (P Q : A -> bool) l :
  (forall x, In x l -> P x = true -> Q x = true) ->
  (List.length (filter P l) <= List.length (filter Q l))%nat.
Proof.
  induction l as [|x l IH]; intros Hall; [apply Nat.le_refl|].
  simpl. assert (IH' := IH (fun y Hy => Hall y (or_intror Hy))).
  pose proof (Hall x (or_introl eq_refl)) as Hx.
  destruct (P x).
  - rewrite (Hx eq_refl). simpl. lia.
  - destruct (Q x); simpl; lia.
Qed.

Lemma of_nat_le n k : (n <= k)%nat -> of_nat n <= of_nat k.
Proof. intros Hle. unfold of_nat. rewrite <- Zle_Qle. lia. Qed.

(** A weighted sum of 0/1 variables adds the weights of those set. *)
Lemma sum_weighted_flags a (f : string -> var) (w : string -> Q) l :
  (forall s, In s l -> a (f s) == 0 \/ a (f s) == 1) ->
  quicksum (map (fun s a => w s * a (f s)) l) a
  == quicksum (map (fun s _ => w s) (filter (fun s => is_true a (f s)) l)) a.
Proof.
  induction l as [|x l IH]; intros Hall; [reflexivity|].
  cbn [map]. rewrite quicksum_cons.
  rewrite IH by (intros y Hy; apply Hall; right; exact Hy).
  cbn [filter]. unfold is_true at 2.
  destruct (Hall x (or_introl eq_refl)) as [Hb|Hb].
  - assert (E : Qeq_bool (a (f x)) 1 = false).
    { destruct (Qeq_bool (a (f x)) 1) eqn:E; [|reflexivity].
      apply Qeq_bool_iff in E. rewrite Hb in E. discriminate E. }
    rewrite E, Hb. ring.
  - assert (E : Qeq_bool (a (f x)) 1 = true) by (apply Qeq_bool_iff; exact Hb).
    rewrite E. cbn [map]. rewrite quicksum_cons, Hb. ring.
Qed.

(** The lengths the per-sample constraint multiplies the flags by. *)
Lemma sum_over_combine dat t a (f : string -> var) l mbs :
  traverse (fun s => fmap mb (loc dat t s)) l = inr mbs ->
  quicksum (map (fun sl a => snd sl * a (f (fst sl))) (combine l mbs)) a
  == quicksum (map (fun s a =>
        match loc dat t s with inr r => mb r | inl _ => 0 end * a (f s)) l) a.
Proof.
  revert mbs. induction l as [|x l IH]; intros mbs E; [reflexivity|].
  cbn [traverse] in E. destruct (loc dat t x) as [e|r] eqn:Er;
    [discriminate E|].
  cbn [fmap] in E.
  destruct (traverse (fun s => fmap mb (loc dat t s)) l) as [e|ys] eqn:Et;
    [discriminate E|].
  cbn [fmap] in E. injection E as <-.
  cbn [combine map]. rewrite !quicksum_cons. cbn [fst snd].
  rewrite Er. rewrite (IH ys eq_refl). reflexivity.
Qed.

(** The constraints of [errors], by mode. *)
Lemma errors_members p S G :
  In (Lin (fun a => a (Global n_clonal)) EQUAL
          (quicksum (map (fun s a => a (allmatch s)) G)))
     (out_constrs (errors p S G))
  /\ (obj2_clonalonly p = false ->
      In (Lin (fun a => a (Global tcn_error_clonal)) EQUAL
           (quicksum (map (fun ts a => a (Cell tcn_int_err (fst ts) (snd ts)))
                          (pairs S G))))
         (out_constrs (errors p S G))
      /\ In (Lin (fun a => a (Global mcn_error_clonal)) EQUAL
           (quicksum (map (fun ts a => a (Cell mcn_int_err (fst ts) (snd ts)))
                          (pairs S G))))
         (out_constrs (errors p S G)))
  /\ (obj2_clonalonly p = true ->
      In (Lin (fun a => a (Global tcn_error_clonal)) EQUAL
           (quicksum (map (fun ts a =>
                             a (Cell tcn_int_err_term (fst ts) (snd ts)))
                          (pairs S G))))
         (out_constrs (errors p S G))
      /\ In (Lin (fun a => a (Global mcn_error_clonal)) EQUAL
           (quicksum (map (fun ts a =>
                             a (Cell mcn_int_err_term (fst ts) (snd ts)))
                          (pairs S G))))
         (out_constrs (errors p S G))
      /\ forall t s, In t S -> In s G ->
         forall c,
         In c [ Lin (fun a => a (Cell tcn_int_err_term t s)) LESS_EQUAL
                    (fun a => a (Cell tcn_int_err t s));
                Lin (fun a => a (Cell tcn_int_err_term t s)) LESS_EQUAL
                    (fun a => a (allmatch s));
                Lin (fun a => a (Cell tcn_int_err_term t s)) GREATER_EQUAL
                    (fun a => a (Cell tcn_int_err t s) - (1 - a (allmatch s)));
                Lin (fun a => a (Cell tcn_int_err_term t s)) GREATER_EQUAL
                    (fun _ => 0);
                Lin (fun a => a (Cell mcn_int_err_term t s)) LESS_EQUAL
                    (fun a => a (Cell mcn_int_err t s));
                Lin (fun a => a (Cell mcn_int_err_term t s)) LESS_EQUAL
                    (fun a => a (allmatch s));
                Lin (fun a => a (Cell mcn_int_err_term t s)) GREATER_EQUAL
                    (fun a => a (Cell mcn_int_err t s) - (1 - a (allmatch s)));
                Lin (fun a => a (Cell mcn_int_err_term t s)) GREATER_EQUAL
                    (fun _ => 0) ] ->
         In c (out_constrs (errors p S G))).
Proof.
  unfold errors. split; [|split].
  - apply in_bind_left.
    + calls. uniform.
    + intros _. destruct (negb (obj2_clonalonly p)); calls; uniform.
    + left. reflexivity.
  - intros ->. cbv [negb]. split.
    + eapply in_bind_right;
        [calls; uniform|intros _; calls; uniform|reflexivity|].
      apply in_bind_left; [calls; uniform|intros _; calls; uniform|].
      left. reflexivity.
    + eapply in_bind_right;
        [calls; uniform|intros _; calls; uniform|reflexivity|].
      eapply in_bind_right;
        [calls; uniform|intros _; calls; uniform|reflexivity|].
      left. reflexivity.
  - intros ->. cbv [negb].
    assert (Hloop : forall S' G',
      result (forM_ S' (fun t => forM_ G' (fun s =>
        addConstr (fun a => a (Cell tcn_int_err_term t s)) LESS_EQUAL
                  (fun a => a (Cell tcn_int_err t s)) ;;
        addConstr (fun a => a (Cell tcn_int_err_term t s)) LESS_EQUAL
                  (fun a => a (allmatch s)) ;;
        addConstr (fun a => a (Cell tcn_int_err_term t s)) GREATER_EQUAL
                  (fun a => a (Cell tcn_int_err t s) - (1 - a (allmatch s))) ;;
        addConstr (fun a => a (Cell tcn_int_err_term t s)) GREATER_EQUAL
                  (fun _ => 0) ;;
        addConstr (fun a => a (Cell mcn_int_err_term t s)) LESS_EQUAL
                  (fun a => a (Cell mcn_int_err t s)) ;;
        addConstr (fun a => a (Cell mcn_int_err_term t s)) LESS_EQUAL
                  (fun a => a (allmatch s)) ;;
        addConstr (fun a => a (Cell mcn_int_err_term t s)) GREATER_EQUAL
                  (fun a => a (Cell mcn_int_err t s) - (1 - a (allmatch s))) ;;
        addConstr (fun a => a (Cell mcn_int_err_term t s)) GREATER_EQUAL
                  (fun _ => 0))%model)) = inr tt).
    { intros S' G'. apply forM_result; [intros; calls; uniform|].
      intros t _. apply forM_result; [intros; calls; uniform|].
      intros s _. reflexivity. }
    split; [|split].
    + eapply in_bind_right;
        [calls; uniform|intros _; calls; uniform|reflexivity|].
      eapply in_bind_right;
        [calls; uniform|intros _; calls; uniform|reflexivity|].
      eapply in_bind_right;
        [calls; uniform|intros _; calls; uniform|reflexivity|].
      eapply in_bind_right;
        [calls; uniform|intros _; calls; uniform|apply Hloop|].
      apply in_bind_left; [calls; uniform|intros _; calls; uniform|].
      left. reflexivity.
    + eapply in_bind_right;
        [calls; uniform|intros _; calls; uniform|reflexivity|].
      eapply in_bind_right;
        [calls; uniform|intros _; calls; uniform|reflexivity|].
      eapply in_bind_right;
        [calls; uniform|intros _; calls; uniform|reflexivity|].
      eapply in_bind_right;
        [calls; uniform|intros _; calls; uniform|apply Hloop|].
      eapply in_bind_right;
        [calls; uniform|intros _; calls; uniform|reflexivity|].
      left. reflexivity.
    + intros t s Ht Hs c Hin.
      eapply in_bind_right;
        [calls; uniform|intros _; calls; uniform|reflexivity|].
      eapply in_bind_right;
        [calls; uniform|intros _; calls; uniform|reflexivity|].
      eapply in_bind_right;
        [calls; uniform|intros _; calls; uniform|reflexivity|].
      apply in_bind_left; [calls; uniform|intros _; calls; uniform|].
      apply (in_forM_ S _ t); [intros; calls; uniform| |exact Ht|].
      { intros t' _. apply forM_result; [intros; calls; uniform|].
        intros s' _. reflexivity. }
      apply (in_forM_ G _ s); [intros; calls; uniform| |exact Hs|].
      { intros s' _. reflexivity. }
      exact Hin.
Qed.

Lemma in_pairs (S G : list string) t s :
  In (t, s) (pairs S G) <-> In t S /\ In s G.
Proof.
  unfold pairs. rewrite in_flat_map. split.
  - intros (t' & Ht & Hin). apply in_map_iff in Hin.
    destruct Hin as (s' & E & Hs). injection E as <- <-. split; assumption.
  - intros [Ht Hs]. exists t. split; [exact Ht|].
    apply in_map_iff. exists s. split; [reflexivity|exact Hs].
Qed.

Lemma is_true_iff a v : is_true a v = true <-> a v == 1.
Proof. unfold is_true. apply Qeq_bool_iff. Qed.

(** X13.  In a feasible assignment, [n_clonal] is the number of segments
    whose [allmatch] is set, and it is at most the number of segments at
    which the samples with [match_both], [large_enough] and [is_cna] set
    number at least [rho] times the samples. *)
Theorem n_clonal_counts_clonal_segments dat lic p m a :
  CNAlign dat lic p new_model = (m, inr tt) ->
  feasible m a = true ->
  let S := unique (map sample dat) in
  let G := unique (map segment dat) in
  a (Global n_clonal)
  == of_nat (List.length (filter (fun s => is_true a (allmatch s)) G))
  /\ a (Global n_clonal)
     <= of_nat (List.length (filter (fun s =>
          Qle_bool (rho p * of_nat (List.length S))
                   (of_nat (eligible_count a S s))) G)).
Proof.
  intros Hrun Hf. cbv zeta.
  destruct (feasible_parts dat lic p m a Hrun Hf)
    as (_ & _ & _ & Hcell & Hseg & _ & Herr).
  pose proof (feasible_declared_more dat lic p m a Hrun Hf) as D.
  cbv zeta in D. destruct D as (_ & _ & Dall & _).
  set (S := unique (map sample dat)) in *.
  set (G := unique (map segment dat)) in *.
  assert (E : a (Global n_clonal)
              == of_nat (List.length
                   (filter (fun s => is_true a (allmatch s)) G))).
  { rewrite <- (sum_flags a allmatch).
    - refine (holds_eq a (fun a => a (Global n_clonal))
                (quicksum (map (fun s a => a (allmatch s)) G)) _).
      apply Herr. apply errors_members.
    - intros s Hs. split; [apply Dall; exact Hs|].
      symmetry. apply is_true_iff. }
  split; [exact E|]. rewrite E. apply of_nat_le.
  apply filter_length_le. intros s Hs Hall. apply is_true_iff in Hall.
  apply Qle_bool_iff. unfold eligible_count.
  rewrite <- (sum_flags a
               (fun t => Cell match_both_and_large_enough_and_cna t s)).
  - apply (holds_indicator_ge a (allmatch s)
             (quicksum (map (fun t a =>
                a (Cell match_both_and_large_enough_and_cna t s)) S)));
      [|exact Hall].
    apply (Hseg s _ Hs). left. reflexivity.
  - intros t Ht. split.
    + apply (feasible_declared dat lic p m a t s Hrun Hf Ht Hs).
    + destruct (Hcell t s Ht Hs) as (r & Hr & Hc).
      rewrite eligible_iff.
      apply (cell_flags _ p _ t s r a Hr Hc).
Qed.

(** X14.  In a feasible assignment, a sample's [n_cna_segments_per_sample]
    is the number of its segments flagged [is_cna], which is therefore at
    least [min_cna_segments_per_sample]; its [homdel_mb] is the total
    length of its segments flagged [is_homdel], which is therefore at
    most [max_homdel_mb]. *)
Theorem per_sample_totals dat lic p m a t :
  CNAlign dat lic p new_model = (m, inr tt) ->
  feasible m a = true ->
  In t (unique (map sample dat)) ->
  let G := unique (map segment dat) in
  let len s :=
    match loc (recode dat) t s with inr r => mb r | inl _ => 0 end in
  let n_cna :=
    of_nat (List.length (filter (fun s => is_true a (Cell is_cna t s)) G)) in
  let homdel :=
    quicksum (map (fun s _ => len s)
                  (filter (fun s => is_true a (Cell is_homdel t s)) G)) a in
  a (Sample n_cna_segments_per_sample t) == n_cna
  /\ min_cna_segments_per_sample p <= n_cna
  /\ a (Sample homdel_mb t) == homdel
  /\ homdel <= max_homdel_mb p.
Proof.
  intros Hrun Hf Ht. cbv zeta.
  destruct (feasible_parts dat lic p m a Hrun Hf)
    as (_ & _ & _ & Hcell & _ & Hsam & _).
  pose proof (feasible_declared_more dat lic p m a Hrun Hf) as D.
  cbv zeta in D. destruct D as (Dc & Ds & _).
  destruct (Ds t Ht) as (_ & Nlo & _ & _ & Hhi).
  set (S := unique (map sample dat)) in *.
  set (G := unique (map segment dat)) in *.
  destruct (traverse_succeeds (fun s => fmap mb (loc (recode dat) t s)) G)
    as [mbs E].
  { intros s Hs. destruct (Hcell t s Ht Hs) as (r & -> & _).
    simpl. eauto. }
  assert (C1 : In (Lin (fun a => a (Sample homdel_mb t)) EQUAL
                (quicksum (map (fun sl a =>
                   snd sl * a (Cell is_homdel t (fst sl))) (combine G mbs))))
               (out_constrs (sample_level (recode dat) G t))).
  { unfold out_constrs, sample_level. rewrite E. cell_steps. pick. }
  assert (C2 : In (Lin (fun a => a (Sample n_cna_segments_per_sample t)) EQUAL
                (quicksum (map (fun s a => a (Cell is_cna t s)) G)))
               (out_constrs (sample_level (recode dat) G t))).
  { unfold out_constrs, sample_level. rewrite E. cell_steps. pick. }
  apply (Hsam t _ Ht) in C1. apply (Hsam t _ Ht) in C2.
  apply holds_eq in C1. apply holds_eq in C2.
  assert (En : a (Sample n_cna_segments_per_sample t)
               == of_nat (List.length
                    (filter (fun s => is_true a (Cell is_cna t s)) G))).
  { rewrite C2.
    apply (sum_flags a (fun s => Cell is_cna t s)
             (fun s => is_true a (Cell is_cna t s))).
    intros s Hs. split; [apply (Dc t s Ht Hs)|].
    symmetry. apply is_true_iff. }
  assert (Eh : a (Sample homdel_mb t)
               == quicksum (map (fun s _ =>
                     match loc (recode dat) t s with
                     | inr r => mb r | inl _ => 0 end)
                    (filter (fun s => is_true a (Cell is_homdel t s)) G)) a).
  { rewrite C1.
    rewrite (sum_over_combine (recode dat) t a
               (fun s => Cell is_homdel t s) G mbs E).
    apply (sum_weighted_flags a (fun s => Cell is_homdel t s)).
    intros s Hs. apply (Dc t s Ht Hs). }
  split; [exact En|]. split; [rewrite <- En; exact Nlo|].
  split; [exact Eh|]. rewrite <- Eh. exact Hhi.
Qed.

(** X15.  With [obj2_clonalonly] false, in a feasible assignment
    [tcn_error_clonal] and [mcn_error_clonal] are the sums over all cells
    of the error variables, and each is at least the sum over all cells
    of the distance between the copy number and its rounded value. *)
Theorem error_totals_over_all_cells dat lic p m a :
  CNAlign dat lic p new_model = (m, inr tt) ->
  feasible m a = true ->
  obj2_clonalonly p = false ->
  let cells := pairs (unique (map sample dat)) (unique (map segment dat)) in
  let total (f : cell_var) :=
    quicksum (map (fun ts a => a (Cell f (fst ts) (snd ts))) cells) a in
  let distance (f f_int : cell_var) :=
    quicksum (map (fun ts a =>
                Qabs (a (Cell f_int (fst ts) (snd ts))
                      - a (Cell f (fst ts) (snd ts)))) cells) a in
  a (Global tcn_error_clonal) == total tcn_int_err
  /\ a (Global mcn_error_clonal) == total mcn_int_err
  /\ distance tcn tcn_int <= a (Global tcn_error_clonal)
  /\ distance mcn mcn_int <= a (Global mcn_error_clonal).
Proof.
  intros Hrun Hf Hmode. cbv zeta.
  destruct (feasible_parts dat lic p m a Hrun Hf)
    as (_ & _ & _ & Hcell & _ & _ & Herr).
  set (S := unique (map sample dat)) in *.
  set (G := unique (map segment dat)) in *.
  destruct (errors_members p S G) as (_ & Hm & _).
  destruct (Hm Hmode) as [Ct Cm].
  apply Herr in Ct. apply Herr in Cm.
  apply holds_eq in Ct. apply holds_eq in Cm.
  split; [exact Ct|]. split; [exact Cm|].
  split.
  - rewrite Ct. apply quicksum_le. intros [t s] Hin. cbn [fst snd].
    apply in_pairs in Hin. destruct Hin as [Ht Hs].
    destruct (Hcell t s Ht Hs) as (r & Hr & Hc).
    pose proof (cell_numbers _ p _ t s r a Hr Hc) as N. cbv zeta in N.
    apply N.
  - rewrite Cm. apply quicksum_le. intros [t s] Hin. cbn [fst snd].
    apply in_pairs in Hin. destruct Hin as [Ht Hs].
    destruct (Hcell t s Ht Hs) as (r & Hr & Hc).
    pose proof (cell_numbers _ p _ t s r a Hr Hc) as N. cbv zeta in N.
    apply N.
Qed.

(** X16.  With [obj2_clonalonly] true, in a feasible assignment the error
    term of a cell is its error variable when the segment's [allmatch] is
    set and 0 otherwise, the totals are the sums of these terms, that is
    of the errors over the cells of the segments with [allmatch] set, and
    every error variable is at most 1. *)
Theorem error_totals_over_clonal_cells dat lic p m a :
  CNAlign dat lic p new_model = (m, inr tt) ->
  feasible m a = true ->
  obj2_clonalonly p = true ->
  let S := unique (map sample dat) in
  let G := unique (map segment dat) in
  let masked (f : cell_var) :=
    quicksum (map (fun ts a =>
                a (allmatch (snd ts)) * a (Cell f (fst ts) (snd ts)))
                (pairs S G)) a in
  (forall t s, In t S -> In s G ->
     a (Cell tcn_int_err_term t s)
     == a (allmatch s) * a (Cell tcn_int_err t s)
     /\ a (Cell mcn_int_err_term t s)
        == a (allmatch s) * a (Cell mcn_int_err t s)
     /\ a (Cell tcn_int_err t s) <= 1
     /\ a (Cell mcn_int_err t s) <= 1)
  /\ a (Global tcn_error_clonal) == masked tcn_int_err
  /\ a (Global mcn_error_clonal) == masked mcn_int_err.
Proof.
  intros Hrun Hf Hmode. cbv zeta.
  destruct (feasible_parts dat lic p m a Hrun Hf)
    as (_ & _ & _ & _ & _ & _ & Herr).
  pose proof (feasible_declared_more dat lic p m a Hrun Hf) as D.
  cbv zeta in D. destruct D as (_ & _ & Dall & _).
  set (S := unique (map sample dat)) in *.
  set (G := unique (map segment dat)) in *.
  destruct (errors_members p S G) as (_ & _ & Hm).
  destruct (Hm Hmode) as (Ct & Cm & Hterm). clear Hm.
  apply Herr in Ct. apply Herr in Cm.
  apply holds_eq in Ct. apply holds_eq in Cm.
  assert (Hcells : forall t s, In t S -> In s G ->
     a (Cell tcn_int_err_term t s)
     == a (allmatch s) * a (Cell tcn_int_err t s)
     /\ a (Cell mcn_int_err_term t s)
        == a (allmatch s) * a (Cell mcn_int_err t s)
     /\ a (Cell tcn_int_err t s) <= 1
     /\ a (Cell mcn_int_err t s) <= 1).
  { intros t s Ht Hs.
    assert (T1 := Herr _ (Hterm t s Ht Hs _ (or_introl eq_refl))).
    assert (T2 := Herr _ (Hterm t s Ht Hs _ (or_intror (or_introl eq_refl)))).
    assert (T3 := Herr _ (Hterm t s Ht Hs _
                   (or_intror (or_intror (or_introl eq_refl))))).
    assert (T4 := Herr _ (Hterm t s Ht Hs _
                   (or_intror (or_intror (or_intror (or_introl eq_refl)))))).
    assert (M1 := Herr _ (Hterm t s Ht Hs _
                   (or_intror (or_intror (or_intror (or_intror
                     (or_introl eq_refl))))))).
    assert (M2 := Herr _ (Hterm t s Ht Hs _
                   (or_intror (or_intror (or_intror (or_intror
                     (or_intror (or_introl eq_refl)))))))).
    assert (M3 := Herr _ (Hterm t s Ht Hs _
                   (or_intror (or_intror (or_intror (or_intror
                     (or_intror (or_intror (or_introl eq_refl))))))))).
    assert (M4 := Herr _ (Hterm t s Ht Hs _
                   (or_intror (or_intror (or_intror (or_intror
                     (or_intror (or_intror (or_intror
                       (or_introl eq_refl)))))))))).
    apply holds_le in T1. apply holds_le in T2.
    apply holds_ge in T3. apply holds_ge in T4.
    apply holds_le in M1. apply holds_le in M2.
    apply holds_ge in M3. apply holds_ge in M4.
    cbv beta in *.
    destruct (Dall s Hs) as [Ha|Ha]; rewrite Ha in *;
      (split; [lra|split; [lra|split; lra]]). }
  split; [exact Hcells|]. split.
  - rewrite Ct. apply quicksum_ext. intros [t s] Hin. cbn [fst snd].
    apply in_pairs in Hin. destruct Hin as [Ht Hs].
    apply (Hcells t s Ht Hs).
  - rewrite Cm. apply quicksum_ext. intros [t s] Hin. cbn [fst snd].
    apply in_pairs in Hin. destruct Hin as [Ht Hs].
    apply (Hcells t s Ht Hs).
Qed.

End Aggregates.

Section FeasibleSolutionWitnesses.
Import Model CNAlign Examples.

Lemma clonal_only_builds :
  @CNAlign.CNAlign platform dat license_file arguments_clonal_only new_model
  = (built_clonal_only, inr tt).
Proof.
  unfold built_clonal_only.
  assert (E : snd (@CNAlign.CNAlign platform dat license_file
                     arguments_clonal_only new_model) = inr tt)
    by (vm_compute; reflexivity).
  revert E.
  generalize (@CNAlign.CNAlign platform dat license_file
                arguments_clonal_only new_model).
  intros [m r] E. simpl in E. subst r. reflexivity.
Qed.

Lemma clonal_only_feasible : feasible built_clonal_only (solution 1) = true.
Proof. vm_compute. reflexivity. Qed.

Lemma rounded_to_nearest_integer_witness :
  Qabs (solution 1 (Cell tcn_int "A" "s1") - solution 1 (Cell tcn "A" "s1"))
  <= 1#2.
Proof.
  pose proof (@rounded_to_nearest_integer platform dat license_file
                (arguments 1) (built 1) (solution 1) "A"%string "s1"%string
                (example_builds 1) example_feasible_clonal in_A in_s1) as W.
  cbv zeta in W. destruct W as ((_ & W & _) & _). exact W.
Defined.

Lemma segment_average_shared_witness :
  solution 1 (Cell tcn_avg "A" "s1")
  * of_nat (List.length (unique (map sample dat)))
  == quicksum (map (fun u a => a (Cell tcn u "s1"))
                   (unique (map sample dat))) (solution 1).
Proof.
  pose proof (@segment_average_shared platform dat license_file
                (arguments 1) (built 1) (solution 1)
                "A"%string "A"%string "s1"%string
                (example_builds 1) example_feasible_clonal in_A in_A in_s1)
    as W.
  cbv zeta in W. destruct W as (_ & _ & W & _). exact W.
Defined.

Lemma matching_cell_is_aligned_witness :
  solution 1 (Cell match_both_and_large_enough_and_cna "A" "s1") == 1
  /\ exists r,
       loc (recode dat) "A" "s1" = inr r
       /\ Qabs (solution 1 (Cell tcn_int "A" "s1")
                - solution 1 (Cell tcn "A" "s1"))
          <= delta_tcn_to_int (arguments 1).
Proof.
  split; [reflexivity|].
  destruct (@matching_cell_is_aligned platform dat license_file
              (arguments 1) (built 1) (solution 1) "A"%string "s1"%string
              (example_builds 1) example_feasible_clonal in_A in_s1
              ltac:(reflexivity)) as (r & Hr & W & _).
  exists r. split; [exact Hr|exact W].
Defined.


Lemma gain_and_loss_flags_witness :
  solution 1 (Cell tcn_gain "A" "s1") == 1
  /\ exists r,
       loc (recode dat) "A" "s1" = inr r
       /\ GC r + (1#2) <= solution 1 (Cell tcn "A" "s1").
Proof.
  split; [reflexivity|].
  destruct (@gain_and_loss_flags platform dat license_file
              (arguments 1) (built 1) (solution 1) "A"%string "s1"%string
              (example_builds 1) example_feasible_clonal in_A in_s1)
    as (r & Hr & W & _).
  exists r. split; [exact Hr|]. apply W. reflexivity.
Defined.

Lemma n_clonal_counts_clonal_segments_witness :
  solution 1 (Global n_clonal)
  == of_nat (List.length (filter (fun s => is_true (solution 1) (allmatch s))
                                 (unique (map segment dat)))).
Proof.
  pose proof (@n_clonal_counts_clonal_segments platform dat license_file
                (arguments 1) (built 1) (solution 1)
                (example_builds 1) example_feasible_clonal) as W.
  cbv zeta in W. destruct W as (W & _). exact W.
Defined.

Lemma per_sample_totals_witness :
  solution 1 (Sample n_cna_segments_per_sample "A")
  == of_nat (List.length
       (filter (fun s => is_true (solution 1) (Cell is_cna "A" s))
               (unique (map segment dat)))).
Proof.
  pose proof (@per_sample_totals platform dat license_file
                (arguments 1) (built 1) (solution 1) "A"%string
                (example_builds 1) example_feasible_clonal in_A) as W.
  cbv zeta in W. destruct W as (W & _). exact W.
Defined.

Lemma error_totals_over_all_cells_witness :
  obj2_clonalonly (arguments 1) = false
  /\ solution 1 (Global tcn_error_clonal)
     == quicksum (map (fun ts a => a (Cell tcn_int_err (fst ts) (snd ts)))
                      (pairs (unique (map sample dat))
                             (unique (map segment dat)))) (solution 1).
Proof.
  split; [reflexivity|].
  pose proof (@error_totals_over_all_cells platform dat license_file
                (arguments 1) (built 1) (solution 1)
                (example_builds 1) example_feasible_clonal eq_refl) as W.
  cbv zeta in W. destruct W as (W & _). exact W.
Defined.

Lemma error_totals_over_clonal_cells_witness :
  obj2_clonalonly arguments_clonal_only = true
  /\ solution 1 (Global tcn_error_clonal)
     == quicksum (map (fun ts a =>
                         a (allmatch (snd ts))
                         * a (Cell tcn_int_err (fst ts) (snd ts)))
                      (pairs (unique (map sample dat))
                             (unique (map segment dat)))) (solution 1).
Proof.
  split; [reflexivity|].
  pose proof (@error_totals_over_clonal_cells platform dat license_file
                arguments_clonal_only built_clonal_only (solution 1)
                clonal_only_builds clonal_only_feasible eq_refl) as W.
  cbv zeta in W. destruct W as (_ & W & _). exact W.
Defined.

End FeasibleSolutionWitnesses.

(** ** The ranges given for ploidy and purity *)

Section Ranges.
Import Model CNAlign.
Context `{Platform}.

(** X17.  With positive purity bounds, in every feasible assignment each
    sample's ploidy lies in [[min_ploidy, max_ploidy]], its [z] is
    positive and the purity [1/z] lies in [[min_purity, max_purity]];
    [avg_ploidy] is the mean of the ploidies and lies in the same range
    as they do. *)
Theorem ploidy_and_purity_in_range dat lic p m a t :
  CNAlign dat lic p new_model = (m, inr tt) ->
  feasible m a = true ->
  In t (unique (map sample dat)) ->
  0 < min_purity p -> 0 < max_purity p ->
  let S := unique (map sample dat) in
  min_ploidy p <= a (Sample pl t) <= max_ploidy p
  /\ 0 < a (Sample z t)
  /\ min_purity p <= 1 / a (Sample z t) <= max_purity p
  /\ a (Global avg_ploidy) * of_nat (List.length S)
     == quicksum (map (fun t a => a (Sample pl t)) S) a
  /\ min_ploidy p <= a (Global avg_ploidy) <= max_ploidy p.
Proof.
  intros Hrun Hf Ht Hmin Hmax. cbv zeta.
  destruct (feasible_parts dat lic p m a Hrun Hf) as (Hd & _ & Hdc & _).
  pose proof (feasible_declared_more dat lic p m a Hrun Hf) as D.
  cbv zeta in D.
  destruct D as (_ & _ & Dall & _ & _ & _ & Alo & Ahi & _).
  assert (HG : unique (map segment dat) <> []).
  { apply CNAlign_ok in Hrun. destruct Hrun as (_ & Hres & _).
    intros E. apply build_ok in Hres. destruct Hres as (Hd' & _).
    clear - Ht E. destruct dat as [|r0 d0]; [destruct Ht|].
    unfold unique in E. simpl in E. discriminate E. }
  destruct (unique (map segment dat)) as [|s0 G0] eqn:EG; [congruence|].
  assert (Hs0 : In s0 (unique (map segment dat)))
    by (rewrite EG; left; reflexivity).
  destruct (feasible_declared dat lic p m a t s0 Hrun Hf Ht Hs0)
    as (_ & Hpl & Hz & _).
  pose proof (of_nat_pos _ _ Ht) as Hn.
  set (S := unique (map sample dat)) in *.
  assert (Hmean : a (Global avg_ploidy)
                  == quicksum (map (fun t a => a (Sample pl t)) S) a
                     / of_nat (List.length S)).
  { refine (holds_eq a (fun a => a (Global avg_ploidy))
              (fun a => quicksum (map (fun t a => a (Sample pl t)) S) a
                        / of_nat (List.length S)) _).
    apply Hdc.
    destruct (declare_result _ _ _ Hd) as (zl & zu & Hl & Hu & Hne).
    unfold out_constrs, declare. rewrite Hl, Hu, Hne.
    cbv [bind lift ret addVars2 addVars1 addVar add_vars add_constr
         addConstr vars constrs objectives ModelSense PoolSolutions fst
         new_model app].
    left. reflexivity. }
  split; [exact Hpl|].
  assert (Hzpos : 0 < a (Sample z t)).
  { eapply Qlt_le_trans; [|apply Hz].
    apply Qlt_shift_div_l; [exact Hmax|]. lra. }
  split; [exact Hzpos|].
  destruct Hz as [Hz1 Hz2].
  split.
  { split.
    - apply Qle_shift_div_l; [exact Hzpos|].
      setoid_replace 1 with (1 / min_purity p * min_purity p)
        by (field; lra).
      rewrite (Qmult_comm (min_purity p)).
      apply Qmult_le_compat_r; [exact Hz2|lra].
    - apply Qle_shift_div_r; [exact Hzpos|].
      setoid_replace 1 with (1 / max_purity p * max_purity p)
        by (field; lra).
      rewrite (Qmult_comm (max_purity p)).
      apply Qmult_le_compat_r; [exact Hz1|lra]. }
  split; [rewrite Hmean; field; lra|].
  split; [exact Alo|exact Ahi].
Qed.

(** X18.  Bounds given upside down are not rejected, but the model built
    with them has no feasible assignment: this holds when [max_ploidy] is
    below [min_ploidy], when [1/min_purity] is below [1/max_purity], when
    [max_homdel_mb] is negative, and when [min_cna_segments_per_sample]
    exceeds the number of segments. *)
Theorem swapped_ranges_leave_no_solution dat lic p m :
  CNAlign dat lic p new_model = (m, inr tt) ->
  max_ploidy p < min_ploidy p
  \/ 1 / min_purity p < 1 / max_purity p
  \/ max_homdel_mb p < 0
  \/ of_nat (List.length (unique (map segment dat)))
     < min_cna_segments_per_sample p ->
  forall a, feasible m a = false.
Proof.
  intros Hrun Hbad a.
  destruct (feasible m a) eqn:Hf; [exfalso|reflexivity].
  pose proof (feasible_declared_more dat lic p m a Hrun Hf) as D.
  cbv zeta in D.
  destruct D as (_ & Ds & _ & _ & _ & _ & Alo & Ahi & _).
  assert (HS : exists t, In t (unique (map sample dat))).
  { destruct (feasible_parts dat lic p m a Hrun Hf) as (Hd & _).
    destruct (declare_result _ _ _ Hd) as (_ & _ & _ & _ & Hne).
    destruct (unique (map sample dat)) as [|t0 S0]; [discriminate Hne|].
    exists t0. left. reflexivity. }
  destruct HS as [t Ht].
  assert (HG : exists s, In s (unique (map segment dat))).
  { destruct dat as [|r0 d0]; [destruct Ht|].
    exists (segment r0). unfold unique. simpl. left. reflexivity. }
  destruct HG as [s Hs].
  destruct (feasible_declared dat lic p m a t s Hrun Hf Ht Hs)
    as (_ & Hpl & Hz & _).
  destruct (Ds t Ht) as (_ & N1 & N2 & H1 & H2).
  destruct Hbad as [B|[B|[B|B]]]; lra.
Qed.

End Ranges.

Section RangesWitnesses.
Import Model CNAlign Examples.

Lemma swapped_builds :
  @CNAlign.CNAlign platform dat license_file arguments_swapped new_model
  = (built_swapped, inr tt).
Proof.
  unfold built_swapped.
  assert (E : snd (@CNAlign.CNAlign platform dat license_file
                     arguments_swapped new_model) = inr tt)
    by (vm_compute; reflexivity).
  revert E.
  generalize (@CNAlign.CNAlign platform dat license_file
                arguments_swapped new_model).
  intros [m r] E. simpl in E. subst r. reflexivity.
Qed.

Lemma ploidy_and_purity_in_range_witness :
  0 < min_purity (arguments 1) /\ 0 < max_purity (arguments 1)
  /\ min_purity (arguments 1) <= 1 / solution 1 (Sample z "A")
     <= max_purity (arguments 1).
Proof.
  split; [reflexivity|]. split; [reflexivity|].
  pose proof (@ploidy_and_purity_in_range platform dat license_file
                (arguments 1) (built 1) (solution 1) "A"%string
                (example_builds 1) example_feasible_clonal in_A
                eq_refl eq_refl) as W.
  cbv zeta in W. destruct W as (_ & _ & W & _). exact W.
Defined.

Lemma swapped_ranges_leave_no_solution_witness :
  max_ploidy arguments_swapped < min_ploidy arguments_swapped
  /\ feasible built_swapped (solution 1) = false.
Proof.
  split; [reflexivity|].
  apply (@swapped_ranges_leave_no_solution platform dat license_file
           arguments_swapped built_swapped swapped_builds).
  left. reflexivity.
Defined.

End RangesWitnesses.

(** ** The cap on homozygous deletions *)

Section HomdelCap.
Import Model CNAlign.
Context `{Platform}.

Ltac calls :=
  unfold addConstr, addGenConstrIndicator, addGenConstrAnd, addGenConstrOr,
    addVar, addVars1, addVars2.

Lemma bind_ok_constrs {A B} (c : M A) (f : A -> M B) x :
  Uniform c -> (forall x, Uniform (f x)) ->
  result c = inr x ->
  out_constrs (bind c f) = out_constrs c ++ out_constrs (f x).
Proof.
  intros Hc Hf Hr. pose proof (bind_out c f Hc Hf) as Ho.
  rewrite Hr in Ho. apply Ho.
Qed.

Lemma cmp_ext sn x y x' y' :
  x' == x -> y' == y -> cmp sn x y = true -> cmp sn x' y' = true.
Proof.
  intros Hx Hy. destruct sn; simpl; intros Hc.
  - apply Qle_bool_iff. apply Qle_bool_iff in Hc. rewrite Hx, Hy. exact Hc.
  - apply Qle_bool_iff. apply Qle_bool_iff in Hc. rewrite Hx, Hy. exact Hc.
  - apply Qeq_bool_iff. apply Qeq_bool_iff in Hc. rewrite Hx, Hy. exact Hc.
Qed.

Lemma holds_lin_ext a a' l sn r :
  l a' == l a -> r a' == r a ->
  holds a (Lin l sn r) = true -> holds a' (Lin l sn r) = true.
Proof. intros Hl Hr. simpl. apply cmp_ext; assumption. Qed.

Lemma holds_indicator_ext a a' b v l sn r :
  a' b = a b -> l a' == l a ->
  holds a (Indicator b v l sn r) = true ->
  holds a' (Indicator b v l sn r) = true.
Proof.
  intros Hb Hl. simpl. rewrite Hb.
  destruct (Qeq_bool (a b) v); [|reflexivity].
  apply cmp_ext; [exact Hl|reflexivity].
Qed.

Lemma quicksum_zero {X} (f : X -> expr) l a :
  (forall x, In x l -> f x a == 0) -> quicksum (map f l) a == 0.
Proof.
  induction l as [|x l IH]; intros Hall; [reflexivity|].
  cbn [map]. rewrite quicksum_cons.
  rewrite (Hall x (or_introl eq_refl)), IH; [reflexivity|].
  intros y Hy. apply Hall. right. exact Hy.
Qed.

Lemma quicksum_same {X} (f : X -> expr) l a a' :
  (forall x, f x a' = f x a) ->
  quicksum (map f l) a' == quicksum (map f l) a.
Proof.
  intros Hall. induction l as [|x l IH]; [reflexivity|].
  cbn [map]. rewrite !quicksum_cons, Hall, IH. reflexivity.
Qed.

Ltac same_constraint :=
  first
    [ exact (fun h => h)
    | intros _; reflexivity
    | apply holds_lin_ext;
      [reflexivity
      |cbv beta;
       match goal with
       | |- context [quicksum (map ?f ?l) (without_homdel ?a)] =>
           rewrite (quicksum_same f l a (without_homdel a));
           [reflexivity|intros; reflexivity]
       end] ].

Lemma cell_without_homdel dat p S t s r a :
  loc dat t s = inr r ->
  forall c, In c (out_constrs (cell dat p S t s)) ->
  holds a c = true -> holds (without_homdel a) c = true.
Proof.
  intros Hr c. unfold out_constrs, cell. rewrite Hr. cell_steps.
  destruct (Qeq_bool (BAF r) (-9)); cell_steps; intros Hin;
    repeat (destruct Hin as [<-|Hin]; [same_constraint|]);
    destruct Hin.
Qed.

Ltac same_decl Hin :=
  first
    [ solve [destruct Hin]
    | apply in_flat_map in Hin; destruct Hin as (? & _ & Hin);
      apply in_map_iff in Hin; destruct Hin as (? & <- & _);
      first [exact (fun h => h) | intros _; reflexivity]
    | apply in_map_iff in Hin; destruct Hin as (? & <- & _);
      first [exact (fun h => h) | intros _; reflexivity]
    | destruct Hin as [<-|[]];
      first [exact (fun h => h) | intros _; reflexivity] ].

Lemma declare_without_homdel p S G a :
  result (declare p S G) = inr tt ->
  0 <= max_homdel_mb p ->
  forall d, In d (out_vars (declare p S G)) ->
  within a d = true -> within (without_homdel a) d = true.
Proof.
  intros Hd Hcap d.
  destruct (declare_result _ _ _ Hd) as (zl & zu & Hl & Hu & Hn).
  unfold out_vars, declare. rewrite Hl, Hu, Hn.
  cbv [bind lift ret addVars2 addVars1 addVar add_vars add_constr addConstr
       vars constrs objectives ModelSense PoolSolutions fst new_model].
  intros Hin.
  repeat (apply in_app_or in Hin; destruct Hin as [Hin|Hin]);
    try (same_decl Hin).
  apply in_map_iff in Hin. destruct Hin as (t & <- & _). intros _.
  unfold within. cbn [v_id v_type v_lb v_ub without_homdel].
  apply andb_true_iff. split; apply Qle_bool_iff; [apply Qle_refl|exact Hcap].
Qed.

Lemma errors_vars_without_homdel p S G a :
  forall d, In d (out_vars (errors p S G)) ->
  within a d = true -> within (without_homdel a) d = true.
Proof.
  intros d. rewrite errors_out_vars.
  destruct (obj2_clonalonly p); intros Hin; [|destruct Hin].
  apply in_app_or in Hin. destruct Hin as [Hin|Hin]; same_decl Hin.
Qed.

Lemma declare_constrs_without_homdel p S G a :
  result (declare p S G) = inr tt ->
  forall c, In c (out_constrs (declare p S G)) ->
  holds a c = true -> holds (without_homdel a) c = true.
Proof.
  intros Hd c.
  destruct (declare_result _ _ _ Hd) as (zl & zu & Hl & Hu & Hn).
  unfold out_constrs, declare. rewrite Hl, Hu, Hn.
  cbv [bind lift ret addVars2 addVars1 addVar add_vars add_constr addConstr
       vars constrs objectives ModelSense PoolSolutions fst new_model app].
  intros [<-|[]]. same_constraint.
Qed.

Lemma segment_level_without_homdel p S s a :
  forall c, In c (out_constrs (segment_level p S s)) ->
  holds a c = true -> holds (without_homdel a) c = true.
Proof.
  intros c [<-|[]]. apply holds_indicator_ext; [reflexivity|].
  apply (quicksum_same
           (fun t a => a (Cell match_both_and_large_enough_and_cna t s))).
  intros; reflexivity.
Qed.

Lemma sample_level_without_homdel dat G t a :
  result (sample_level dat G t) = inr tt ->
  forall c, In c (out_constrs (sample_level dat G t)) ->
  holds a c = true -> holds (without_homdel a) c = true.
Proof.
  intros Hres c. unfold result, out_constrs, sample_level in *.
  destruct (traverse (fun s => fmap mb (loc dat t s)) G) as [e|mbs];
    [cbv [bind lift snd] in Hres; discriminate Hres|].
  cell_steps. intros [<-|[<-|[]]].
  - intros _. apply Qeq_bool_iff. cbv beta.
    change (without_homdel a (Sample homdel_mb t)) with 0.
    symmetry. apply quicksum_zero. intros [s0 l0] _. cbn [fst snd].
    change (without_homdel a (Cell is_homdel t s0)) with 0. ring.
  - apply holds_lin_ext; [reflexivity|].
    apply (quicksum_same (fun s a => a (Cell is_cna t s))).
    intros; reflexivity.
Qed.

Ltac step_constrs :=
  rewrite (bind_ok_constrs _ _ tt);
  [|calls; uniform|intros _; calls; uniform|].

Lemma errors_constrs_without_homdel p S G a :
  forall c, In c (out_constrs (errors p S G)) ->
  holds a c = true -> holds (without_homdel a) c = true.
Proof.
  intros c. unfold errors. destruct (obj2_clonalonly p); cbv [negb].
  - assert (Hinner : forall t,
      result (forM_ G (fun s =>
        addConstr (fun a => a (Cell tcn_int_err_term t s)) LESS_EQUAL
                  (fun a => a (Cell tcn_int_err t s)) ;;
        addConstr (fun a => a (Cell tcn_int_err_term t s)) LESS_EQUAL
                  (fun a => a (allmatch s)) ;;
        addConstr (fun a => a (Cell tcn_int_err_term t s)) GREATER_EQUAL
                  (fun a => a (Cell tcn_int_err t s) - (1 - a (allmatch s))) ;;
        addConstr (fun a => a (Cell tcn_int_err_term t s)) GREATER_EQUAL
                  (fun _ => 0) ;;
        addConstr (fun a => a (Cell mcn_int_err_term t s)) LESS_EQUAL
                  (fun a => a (Cell mcn_int_err t s)) ;;
        addConstr (fun a => a (Cell mcn_int_err_term t s)) LESS_EQUAL
                  (fun a => a (allmatch s)) ;;
        addConstr (fun a => a (Cell mcn_int_err_term t s)) GREATER_EQUAL
                  (fun a => a (Cell mcn_int_err t s) - (1 - a (allmatch s))) ;;
        addConstr (fun a => a (Cell mcn_int_err_term t s)) GREATER_EQUAL
                  (fun _ => 0))%model) = inr tt).
    { intros t. apply forM_result; [intros; calls; uniform|].
      intros s _. reflexivity. }
    step_constrs; [|reflexivity].
    step_constrs; [|reflexivity].
    step_constrs; [|reflexivity].
    step_constrs;
      [|apply forM_result; [intros; calls; uniform|intros t _; apply Hinner]].
    step_constrs; [|reflexivity].
    intros Hin.
    apply in_app_or in Hin. destruct Hin as [Hin|Hin].
    { destruct Hin as [<-|[]]. same_constraint. }
    apply in_app_or in Hin. destruct Hin as [Hin|Hin]; [destruct Hin|].
    apply in_app_or in Hin. destruct Hin as [Hin|Hin]; [destruct Hin|].
    apply in_app_or in Hin. destruct Hin as [Hin|Hin].
    { match type of Hin with
      | In _ (out_constrs (forM_ _ ?body)) =>
          destruct (forM_ok S body) as (_ & _ & E);
          [intros; calls; uniform
          |apply forM_result; [intros; calls; uniform|intros t _; apply Hinner]
          |]
      end.
      rewrite E in Hin. clear E.
      apply in_flat_map in Hin. destruct Hin as (t & _ & Hin).
      match type of Hin with
      | In _ (out_constrs (forM_ _ ?body)) =>
          destruct (forM_ok G body) as (_ & _ & E);
          [intros; calls; uniform|apply Hinner|]
      end.
      rewrite E in Hin. clear E.
      apply in_flat_map in Hin. destruct Hin as (s & _ & Hin).
      unfold out_constrs in Hin.
      cbv [bind lift ret add_constr addConstr constrs vars new_model fst snd
           app objectives ModelSense PoolSolutions] in Hin.
      repeat (destruct Hin as [<-|Hin]; [exact (fun h => h)|]).
      destruct Hin. }
    apply in_app_or in Hin. destruct Hin as [Hin|Hin].
    + destruct Hin as [<-|[]]. apply holds_lin_ext; [reflexivity|].
      apply (quicksum_same
               (fun ts a => a (Cell tcn_int_err_term (fst ts) (snd ts)))).
      intros; reflexivity.
    + destruct Hin as [<-|[]]. apply holds_lin_ext; [reflexivity|].
      apply (quicksum_same
               (fun ts a => a (Cell mcn_int_err_term (fst ts) (snd ts)))).
      intros; reflexivity.
  - unfold out_constrs. cell_steps. intros [<-|[<-|[<-|[]]]].
    + same_constraint.
    + apply holds_lin_ext; [reflexivity|].
      apply (quicksum_same
               (fun ts a => a (Cell tcn_int_err (fst ts) (snd ts)))).
      intros; reflexivity.
    + apply holds_lin_ext; [reflexivity|].
      apply (quicksum_same
               (fun ts a => a (Cell mcn_int_err (fst ts) (snd ts)))).
      intros; reflexivity.
Qed.

(** X19.  Clearing every [is_homdel] flag and setting every [homdel_mb]
    to zero in a feasible assignment gives a feasible assignment with the
    same ploidies, purities, copy numbers, flags and objective
    variables: the cap [max_homdel_mb] rules out no copy-number
    solution. *)
Theorem homdel_cap_never_binds dat lic p m a :
  CNAlign dat lic p new_model = (m, inr tt) ->
  feasible m a = true ->
  feasible m (without_homdel a) = true
  /\ (forall t, without_homdel a (Sample homdel_mb t) == 0)
  /\ (forall v, (forall t s, v <> Cell is_homdel t s) ->
                (forall t, v <> Sample homdel_mb t) ->
                without_homdel a v = a v).
Proof.
  intros Hrun Hf.
  split; [|split].
  - pose proof (feasible_declared_more dat lic p m a Hrun Hf) as D.
    cbv zeta in D. destruct D as (_ & Ds & _).
    pose proof Hrun as Hok. apply CNAlign_ok in Hok.
    destruct Hok as (_ & Hres & _).
    apply build_ok in Hres. destruct Hres as (Hd & Hcells & _).
    destruct (feasible_parts dat lic p m a Hrun Hf)
      as (_ & _ & _ & Hcell & _).
    assert (Hcap : 0 <= max_homdel_mb p).
    { destruct (declare_result _ _ _ Hd) as (_ & _ & _ & _ & Hne).
      destruct (unique (map sample dat)) as [|t0 S0] eqn:ES;
        [discriminate Hne|].
      destruct (Ds t0 (or_introl eq_refl)) as (_ & _ & _ & H1 & H2).
      eapply Qle_trans; [exact H1|exact H2]. }
    apply (feasible_blocks dat lic p m a Hrun) in Hf.
    apply (feasible_blocks dat lic p m _ Hrun).
    destruct Hf as (Hvd & Hve & Hcd & Hcc & Hcs & Hcm & Hce).
    split.
    { intros v Hin. apply (declare_without_homdel _ _ _ a Hd Hcap v Hin).
      apply Hvd. exact Hin. }
    split.
    { intros v Hin. apply (errors_vars_without_homdel _ _ _ a v Hin).
      apply Hve. exact Hin. }
    split.
    { intros c Hin. apply (declare_constrs_without_homdel _ _ _ a Hd c Hin).
      apply Hcd. exact Hin. }
    split.
    { intros t s Ht Hs c Hin. destruct (Hcell t s Ht Hs) as (r & Hr & _).
      apply (cell_without_homdel _ _ _ t s r a Hr c Hin).
      apply (Hcc t s Ht Hs c Hin). }
    split.
    { intros s c Hs Hin. apply (segment_level_without_homdel _ _ s a c Hin).
      apply (Hcs s c Hs Hin). }
    split.
    { intros t c Ht Hin.
      refine (sample_level_without_homdel _ _ t a _ c Hin (Hcm t c Ht Hin)).
      assert (Hall : forall s, In s (unique (map segment dat)) ->
                exists r, loc (recode dat) t s = inr r).
      { intros s Hs. destruct (Hcell t s Ht Hs) as (r & Hr & _). eauto. }
      destruct (sample_level_counts (recode dat) _ t Hall)
        as (_ & [[] Hr] & _).
      exact Hr. }
    intros c Hin. apply (errors_constrs_without_homdel _ _ _ a c Hin).
    apply Hce. exact Hin.
  - intros t. reflexivity.
  - intros v H1 H2. destruct v as [f t s|s|f t|f]; try reflexivity.
    + destruct f; try reflexivity. elim (H1 t s). reflexivity.
    + destruct f; try reflexivity. elim (H2 t). reflexivity.
Qed.

End HomdelCap.

Section HomdelCapWitness.
Import Model CNAlign Examples.

Lemma homdel_cap_never_binds_witness :
  feasible (built 1) (without_homdel (solution 1)) = true.
Proof.
  exact (proj1 (@homdel_cap_never_binds platform dat license_file
                  (arguments 1) (built 1) (solution 1)
                  (example_builds 1) example_feasible_clonal)).
Defined.

End HomdelCapWitness.

(** ** The stagnation callback over a whole level *)

Section CallbackRuns.
Import Callback.

Lemma call_ignored self now w :
  ignored w = true -> call self now w = (self, None).
Proof.
  destruct w as [k|[c|]|]; simpl; intros Hi; try discriminate Hi;
    try reflexivity.
  apply negb_true_iff in Hi. rewrite Hi. reflexivity.
Qed.

(** X20.  Invocations with a code other than [MULTIOBJ] and [MIP], with a
    read that raised, or with a report not below [GRB.INFINITY] have no
    effect: removing them from a run changes neither the final state nor
    the stop signals. *)
Theorem ignored_events_change_nothing evs : forall self,
  run self (filter (fun e => negb (ignored (snd e))) evs) = run self evs.
Proof.
  induction evs as [|[now w] evs IH]; intros self; [reflexivity|].
  cbn [filter snd]. destruct (ignored w) eqn:Hi; cbn [negb].
  - rewrite IH. rewrite (run_cons self now w evs).
    rewrite (call_ignored self now w Hi). cbn [fst snd].
    destruct (run self evs) as [final sigs]. reflexivity.
  - rewrite !run_cons, IH. reflexivity.
Qed.

Lemma run_steady M t1 c1 k rest : forall self,
  best_obj self = Fin c1 -> last_improve_time self = t1 ->
  obj_count self = k -> max_stagnation self = M ->
  (forall r, In r rest -> snd r < GRB_INFINITY /\ Qabs (snd r - c1) <= eps) ->
  snd (run self (map (fun r => (fst r, MIP (Some (snd r)))) rest))
  = if stagnated self then []
    else match find (fun r => Qlt_bool M (fst r - t1)) rest with
         | Some r => [(fst r, k)]
         | None => []
         end.
Proof.
  induction rest as [|[t c] rest IH]; intros self Hb Hl Hk Hm Hall.
  - simpl. destruct (stagnated self); reflexivity.
  - destruct (Hall (t, c) (or_introl eq_refl)) as [Hinf Hnear].
    cbn [fst snd] in Hinf, Hnear.
    apply Qlt_bool_iff in Hinf. apply differs_near in Hnear.
    cbn [map fst snd find]. rewrite run_cons.
    assert (Hall' : forall r, In r rest ->
              snd r < GRB_INFINITY /\ Qabs (snd r - c1) <= eps)
      by (intros r Hr; apply Hall; right; exact Hr).
    assert (Hcall : call self t (MIP (Some c))
              = if Qlt_bool M (t - t1) && negb (stagnated self)
                then ({| max_stagnation := M; obj_count := k;
                         last_improve_time := t1; best_obj := Fin c1;
                         stagnated := true |}, Some k)
                else (self, None)).
    { unfold call. rewrite Hinf, Hb, Hnear, Hm, Hl, Hk. reflexivity. }
    rewrite Hcall. clear Hcall.
    destruct (stagnated self) eqn:Hs.
    + rewrite andb_false_r. cbn [fst snd].
      rewrite (IH self Hb Hl Hk Hm Hall'), Hs. reflexivity.
    + rewrite andb_true_r. destruct (Qlt_bool M (t - t1)); cbn [fst snd].
      * rewrite IH; [reflexivity|reflexivity|reflexivity|reflexivity
                     |reflexivity|exact Hall'].
      * rewrite (IH self Hb Hl Hk Hm Hall'), Hs. reflexivity.
Qed.

(** X21.  A level whose reports all stay within [1e-5] of its first
    report is stopped exactly once, at the first report made more than
    [max_stagnation] seconds after the first report of the level, and the
    stop names that level; with no such report it is never stopped. *)
Theorem steady_level_stops_once self t0 k t1 c1 rest :
  c1 < GRB_INFINITY ->
  (forall r, In r rest -> snd r < GRB_INFINITY /\ Qabs (snd r - c1) <= eps) ->
  snd (run self ((t0, MULTIOBJ k) :: (t1, MIP (Some c1))
                 :: map (fun r => (fst r, MIP (Some (snd r)))) rest))
  = match find (fun r => Qlt_bool (max_stagnation self) (fst r - t1)) rest with
    | Some r => [(fst r, k)]
    | None => []
    end.
Proof.
  intros Hinf Hall. apply Qlt_bool_iff in Hinf.
  rewrite run_cons. cbn [call fst snd].
  rewrite run_cons.
  assert (Hcall : call {| max_stagnation := max_stagnation self;
                          obj_count := k; last_improve_time := t0;
                          best_obj := PInf; stagnated := false |}
                       t1 (MIP (Some c1))
            = ({| max_stagnation := max_stagnation self; obj_count := k;
                  last_improve_time := t1; best_obj := Fin c1;
                  stagnated := false |}, None)).
  { unfold call. rewrite Hinf. reflexivity. }
  rewrite Hcall. cbn [fst snd].
  rewrite (run_steady (max_stagnation self) t1 c1 k rest);
    [reflexivity|reflexivity|reflexivity|reflexivity|reflexivity|exact Hall].
Qed.

(** X22.  Every stop signal of a run is raised at the time of a [MIP]
    report of that run, and names either the level of a [MULTIOBJ]
    invocation of the run or the level the callback held at the start,
    which is 0 for a new callback. *)
Theorem stops_name_a_started_level evs : forall self t k,
  In (t, k) (snd (run self evs)) ->
  (k = obj_count self \/ exists t', In (t', MULTIOBJ k) evs)
  /\ exists c, In (t, MIP (Some c)) evs.
Proof.
  induction evs as [|[now w] evs IH]; intros self t k Hin; [destruct Hin|].
  rewrite run_cons in Hin. cbn [snd] in Hin.
  assert (Hrest : In (t, k) (snd (run (fst (call self now w)) evs)) ->
            (k = obj_count self \/ exists t', In (t', MULTIOBJ k) ((now, w) :: evs))
            /\ exists c, In (t, MIP (Some c)) ((now, w) :: evs)).
  { intros Hr. destruct (IH _ t k Hr) as [Hk [c Hc]]. split.
    - destruct Hk as [Hk|[t' Ht']].
      + destruct w as [j|[c0|]|]; simpl in Hk.
        * right. exists now. left. rewrite Hk. reflexivity.
        * left. revert Hk. simpl.
          destruct (Qlt_bool c0 GRB_INFINITY); [|tauto].
          destruct (differs c0 (best_obj self)); [tauto|].
          destruct (Qlt_bool (max_stagnation self)
                             (now - last_improve_time self)
                    && negb (stagnated self)); tauto.
        * left. exact Hk.
        * left. exact Hk.
      + right. exists t'. right. exact Ht'.
    - exists c. right. exact Hc. }
  destruct (snd (call self now w)) as [j|] eqn:Hs; [|exact (Hrest Hin)].
  destruct Hin as [E|Hin]; [|exact (Hrest Hin)].
  injection E as -> ->.
  destruct (call_stop self t w k Hs) as (_ & _ & Hk & _).
  split; [left; exact Hk|].
  destruct w as [j|[c0|]|]; simpl in Hs; try discriminate Hs.
  exists c0. left. reflexivity.
Qed.

End CallbackRuns.

Section CallbackRunsWitnesses.
Import Callback.

Lemma steady_level_stops_once_witness :
  snd (run (init 60 0)
           ((0, MULTIOBJ 1) :: (1, MIP (Some 10))
            :: map (fun r => (fst r, MIP (Some (snd r))))
                   [(30, 10); (62, 10); (100, 10)]))
  = [(62, 1%Z)].
Proof.
  apply (steady_level_stops_once (init 60 0) 0 1 1 10
           [(30, 10); (62, 10); (100, 10)]).
  - reflexivity.
  - intros r [<-|[<-|[<-|[]]]]; split;
      (reflexivity || (vm_compute; discriminate)).
Defined.

Lemma stops_name_a_started_level_witness :
  (1%Z = obj_count (init 60 0)
   \/ exists t',
        In (t', MULTIOBJ 1)
           [(0, MULTIOBJ 1); (1, MIP (Some 10)); (62, MIP (Some 10))])
  /\ exists c,
       In (62, MIP (Some c))
          [(0, MULTIOBJ 1); (1, MIP (Some 10)); (62, MIP (Some 10))].
Proof.
  apply (stops_name_a_started_level
           [(0, MULTIOBJ 1); (1, MIP (Some 10)); (62, MIP (Some 10))]
           (init 60 0) 62 1%Z).
  vm_compute. left. reflexivity.
Defined.

End CallbackRunsWitnesses.

(** ** When the table of solutions can be assembled *)

Section Extraction.
Import Model CNAlign Pool.
Context `{Platform}.

Lemma pool_traverse_length {A B} (f : A -> Pool.error + B) l ys :
  Pool.traverse f l = inr ys -> List.length ys = List.length l.
Proof.
  revert ys. induction l as [|x l IH]; intros ys E; simpl in E.
  - injection E as <-. reflexivity.
  - destruct (f x) as [e|y]; [discriminate E|].
    destruct (Pool.traverse f l) as [e|ys']; [discriminate E|].
    injection E as <-. simpl. rewrite (IH ys' eq_refl). reflexivity.
Qed.

(** The reciprocals of one solution: all taken, or the division by zero
    at the first [z] that is 0. *)
Lemma inv_row sol (S : list string) :
  (exists row, Pool.traverse (inv_Xn sol) (map (Sample z) S) = inr row
               /\ forall t, In t S -> ~ sol (Sample z t) == 0)
  \/ (Pool.traverse (inv_Xn sol) (map (Sample z) S) = inl ZeroDivisionError
      /\ exists t, In t S /\ sol (Sample z t) == 0).
Proof.
  induction S as [|t S IH]; simpl.
  - left. exists []. split; [reflexivity|intros t []].
  - unfold inv_Xn at 1 3.
    destruct (Qeq_bool (sol (Sample z t)) 0) eqn:E.
    + right. split; [reflexivity|]. exists t. split; [left; reflexivity|].
      apply Qeq_bool_iff. exact E.
    + destruct IH as [(row & -> & Hall)|(-> & t' & Ht' & Hz)].
      * left. eexists. split; [reflexivity|].
        intros t' [<-|Ht'] Hz; [|exact (Hall t' Ht' Hz)].
        apply Qeq_bool_iff in Hz. rewrite Hz in E. discriminate E.
      * right. split; [reflexivity|]. exists t'. split; [right; exact Ht'|].
        exact Hz.
Qed.

Lemma inv_rows pool (S : list string) :
  (exists cols,
     Pool.traverse (fun sol => Pool.traverse (inv_Xn sol) (map (Sample z) S))
                   pool = inr cols
     /\ forall sol t, In sol pool -> In t S -> ~ sol (Sample z t) == 0)
  \/ (Pool.traverse (fun sol => Pool.traverse (inv_Xn sol) (map (Sample z) S))
                    pool = inl ZeroDivisionError
      /\ exists sol t, In sol pool /\ In t S /\ sol (Sample z t) == 0).
Proof.
  induction pool as [|sol pool IH]; simpl.
  - left. exists []. split; [reflexivity|intros sol t []].
  - destruct (inv_row sol S) as [(row & -> & Hrow)|(-> & t & Ht & Hz)].
    + destruct IH as [(cols & -> & Hall)|(-> & sol' & t & Hs & Ht & Hz)].
      * left. eexists. split; [reflexivity|].
        intros sol' t [<-|Hs] Ht; [apply Hrow; exact Ht|].
        apply (Hall sol' t Hs Ht).
      * right. split; [reflexivity|]. exists sol', t.
        split; [right; exact Hs|]. split; [exact Ht|exact Hz].
    + right. split; [reflexivity|]. exists sol, t.
      split; [left; reflexivity|]. split; [exact Ht|exact Hz].
Qed.

(** The table of a built model is decided by the reciprocals of [z]. *)
Lemma extract_form dat lic p m w pool :
  CNAlign dat lic p new_model = (m, inr tt) ->
  let S := unique (map sample dat) in
  (forall cols,
     Pool.traverse (fun sol => Pool.traverse (inv_Xn sol) (map (Sample z) S))
                   pool = inr cols ->
     exists T, ExtractSolutions m w pool = inr T
               /\ column_count T = List.length pool)
  /\ (forall e,
        Pool.traverse (fun sol =>
          Pool.traverse (inv_Xn sol) (map (Sample z) S)) pool = inl e ->
        ExtractSolutions m w pool = inl e).
Proof.
  intros Hrun. cbv zeta.
  destruct (getVars_groups dat lic p m Hrun)
    as (Gpl & Gz & Gall & Gtcn & Gmcn & Nt & Nm).
  set (S := unique (map sample dat)) in *.
  set (G := unique (map segment dat)) in *.
  assert (Eobj : obj_frame m w pool
    = inr {| Variable_ := ["Obj1"; "Obj2"]%string;
             Solution_ := map (fun sol =>
               [ sol (Global n_clonal);
                 - (1 - w) * sol (Global tcn_error_clonal)
                 - w * sol (Global mcn_error_clonal) ]) pool |}).
  { unfold obj_frame.
    rewrite (traverse_all _ (fun sol =>
               [ sol (Global n_clonal);
                 - (1 - w) * sol (Global tcn_error_clonal)
                 - w * sol (Global mcn_error_clonal) ]));
      [reflexivity|].
    intros sol _. unfold obj_column, Xn_by_name. rewrite Nt, Nm.
    reflexivity. }
  assert (Epl := block_ok m pool "pl[" (fun n => n) Xn (fun sol v => sol v)
                   _ Gpl (fun _ _ _ _ => eq_refl)).
  assert (Eall := block_ok m pool "allmatch[" (fun n => n) Xn
                    (fun sol v => sol v) _ Gall (fun _ _ _ _ => eq_refl)).
  assert (Etcn := block_ok m pool "tcn[" (fun n => n) Xn
                    (fun sol v => sol v) _ Gtcn (fun _ _ _ _ => eq_refl)).
  assert (Emcn := block_ok m pool "mcn[" (fun n => n) Xn
                    (fun sol v => sol v) _ Gmcn (fun _ _ _ _ => eq_refl)).
  split.
  - intros cols E. unfold ExtractSolutions. rewrite Eobj, Epl.
    unfold block at 1. rewrite Gz, E, Eall, Etcn, Emcn.
    eexists. split; [reflexivity|].
    apply pool_traverse_length in E.
    unfold column_count, round_frame, concat2. cbn [Variable_ Solution_].
    repeat first [rewrite length_map|rewrite length_combine].
    rewrite E, !Nat.min_id. reflexivity.
  - intros e E. unfold ExtractSolutions. rewrite Eobj, Epl.
    unfold block at 1. rewrite Gz, E. reflexivity.
Qed.

(** X23.  For a built model the assembly of the table raises exactly
    when some pooled solution has a [z] equal to 0, and the exception is
    then [ZeroDivisionError]; the two variables looked up by name are
    always found. *)
Theorem extraction_fails_only_on_zero_z dat lic p m w pool :
  CNAlign dat lic p new_model = (m, inr tt) ->
  (ExtractSolutions m w pool = inl ZeroDivisionError <->
   exists sol t, In sol pool /\ In t (unique (map sample dat))
                 /\ sol (Sample z t) == 0)
  /\ ExtractSolutions m w pool <> inl AttributeError.
Proof.
  intros Hrun.
  pose proof (extract_form dat lic p m w pool Hrun) as F. cbv zeta in F.
  destruct F as [Fok Ferr].
  destruct (inv_rows pool (unique (map sample dat)))
    as [(cols & E & Hall)|(E & Hzero)].
  - destruct (Fok cols E) as (T & -> & _). split; [|discriminate].
    split; [discriminate|].
    intros (sol & t & Hs & Ht & Hz). destruct (Hall sol t Hs Ht Hz).
  - rewrite (Ferr _ E). split; [|discriminate].
    split; [intros _; exact Hzero|reflexivity].
Qed.

(** X24.  With a positive [max_purity], a pool of feasible solutions of
    a built model always gives a table, with one column per solution. *)
Theorem extraction_succeeds_on_feasible_pool dat lic p m pool :
  CNAlign dat lic p new_model = (m, inr tt) ->
  0 < max_purity p ->
  (forall sol, In sol pool -> feasible m sol = true) ->
  exists T, ExtractSolutions m (mcn_weight p) pool = inr T
            /\ column_count T = List.length pool.
Proof.
  intros Hrun Hmax Hfeas.
  pose proof (extract_form dat lic p m (mcn_weight p) pool Hrun) as F.
  cbv zeta in F. destruct F as [Fok _].
  destruct (inv_rows pool (unique (map sample dat)))
    as [(cols & E & _)|(_ & sol & t & Hs & Ht & Hz)];
    [exact (Fok cols E)|exfalso].
  specialize (Hfeas sol Hs).
  assert (HG : exists s, In s (unique (map segment dat))).
  { destruct dat as [|r0 d0]; [destruct Ht|].
    exists (segment r0). unfold unique. simpl. left. reflexivity. }
  destruct HG as [s Hs'].
  destruct (feasible_declared dat lic p m sol t s Hrun Hfeas Ht Hs')
    as (_ & _ & [Hz1 _] & _).
  assert (Hpos : 0 < 1 / max_purity p)
    by (apply Qlt_shift_div_l; [exact Hmax|lra]).
  rewrite Hz in Hz1. lra.
Qed.

End Extraction.

Section ExtractionWitnesses.
Import Model CNAlign Pool Examples.

Lemma extraction_fails_only_on_zero_z_witness :
  @ExtractSolutions platform (built 1) (1#2) [solution 1]
  <> inl AttributeError.
Proof.
  exact (proj2 (@extraction_fails_only_on_zero_z platform dat license_file
                  (arguments 1) (built 1) (1#2) [solution 1]
                  (example_builds 1))).
Defined.

Lemma extraction_succeeds_on_feasible_pool_witness :
  0 < max_purity (arguments 1)
  /\ exists T,
       @ExtractSolutions platform (built 1) (mcn_weight (arguments 1))
                         [solution 1]
       = inr T
       /\ column_count T = 1%nat.
Proof.
  split; [reflexivity|].
  apply (@extraction_succeeds_on_feasible_pool platform dat license_file
           (arguments 1) (built 1) [solution 1] (example_builds 1)).
  - reflexivity.
  - intros sol [<-|[]]. exact example_feasible_clonal.
Defined.

End ExtractionWitnesses.

(** ** Parameters under which no segment can be clonal *)

Section NoClonalSegment.
Import Model CNAlign.
Context `{Platform}.




End NoClonalSegment.

Section NoClonalSegmentWitness.
Import Model CNAlign Examples.


End NoClonalSegmentWitness.

(** ** Loosening the parameters *)

Section Relaxation.
Import Model CNAlign.
Context `{Platform}.

Lemma recip_antitone x y : 0 < x -> x <= y -> 1 / y <= 1 / x.
Proof.
  intros Hx Hxy. apply Qle_shift_div_l; [exact Hx|].
  setoid_replace (1 / y * x) with (x / y) by (field; lra).
  apply Qle_shift_div_r; lra.
Qed.

Lemma within_relax a d d' :
  v_id d' = v_id d -> v_type d' = v_type d -> v_lb d' <= v_lb d ->
  match v_ub d, v_ub d' with
  | _, None => True
  | Some u, Some u' => u <= u'
  | None, Some _ => False
  end ->
  within a d = true -> within a d' = true.
Proof.
  unfold within. intros -> -> Hlb Hub.
  assert (L : Qle_bool (v_lb d) (a (v_id d)) = true ->
              Qle_bool (v_lb d') (a (v_id d)) = true).
  { intros Hl. apply Qle_bool_iff. apply Qle_bool_iff in Hl.
    eapply Qle_trans; [exact Hlb|exact Hl]. }
  assert (U : match v_ub d with
              | None => true | Some u => Qle_bool (a (v_id d)) u end = true ->
              match v_ub d' with
              | None => true | Some u => Qle_bool (a (v_id d)) u end = true).
  { destruct (v_ub d) as [u|], (v_ub d') as [u'|]; try tauto.
    intros Hu. apply Qle_bool_iff. apply Qle_bool_iff in Hu.
    eapply Qle_trans; [exact Hu|exact Hub]. }
  destruct (v_type d); rewrite !andb_true_iff; intuition.
Qed.

Lemma holds_indicator_relax_le a b v l r r' :
  r <= r' ->
  holds a (Indicator b v l LESS_EQUAL r) = true ->
  holds a (Indicator b v l LESS_EQUAL r') = true.
Proof.
  intros Hr. simpl. destruct (Qeq_bool (a b) v); [|reflexivity].
  intros Hh. apply Qle_bool_iff. apply Qle_bool_iff in Hh.
  eapply Qle_trans; [exact Hh|exact Hr].
Qed.

Lemma holds_indicator_relax_ge a b v l r r' :
  r' <= r ->
  holds a (Indicator b v l GREATER_EQUAL r) = true ->
  holds a (Indicator b v l GREATER_EQUAL r') = true.
Proof.
  intros Hr. simpl. destruct (Qeq_bool (a b) v); [|reflexivity].
  intros Hh. apply Qle_bool_iff. apply Qle_bool_iff in Hh.
  eapply Qle_trans; [exact Hr|exact Hh].
Qed.

Lemma errors_same_mode p p' S G :
  obj2_clonalonly p' = obj2_clonalonly p -> errors p' S G = errors p S G.
Proof. unfold errors. intros ->. reflexivity. Qed.

Ltac walk Hc :=
  repeat (apply andb_true_iff in Hc;
          let Hx := fresh "Hx" in
          destruct Hc as [Hx Hc];
          apply andb_true_iff; split;
          [first [ exact Hx
                 | revert Hx; apply holds_indicator_relax_le; assumption
                 | revert Hx; apply holds_indicator_relax_ge; assumption ]
          |clear Hx]).

Lemma cell_relaxed dat p p' S t s r a :
  relaxes p p' ->
  loc dat t s = inr r ->
  (forall c, In c (out_constrs (cell dat p S t s)) -> holds a c = true) ->
  forall c, In c (out_constrs (cell dat p' S t s)) -> holds a c = true.
Proof.
  intros R Hr Hc.
  destruct R as (_ & _ & _ & _ & _ & _ & R1 & _ & R2 & R3 & R4 & R5 & R6
                 & R7 & _).
  apply forallb_forall. apply forallb_forall in Hc. revert Hc.
  unfold out_constrs, cell. rewrite Hr. cell_steps.
  destruct (Qeq_bool (BAF r) (-9)); cell_steps; cbn [forallb];
    intros Hc; walk Hc; reflexivity.
Qed.

Lemma recip_value x y : recip x = inr y -> y = 1 / x.
Proof.
  unfold recip. destruct (Qeq_bool x 0); intros E; [discriminate E|].
  injection E as <-. reflexivity.
Qed.

Ltac declared_at Hl Hu Hn :=
  unfold out_vars, declare; rewrite Hl, Hu, Hn;
  cbv [bind lift ret addVars2 addVars1 addVar add_vars add_constr
       addConstr vars constrs objectives ModelSense PoolSolutions fst
       new_model].

Lemma declare_relaxed p p' S G a :
  relaxes p p' ->
  result (declare p S G) = inr tt ->
  result (declare p' S G) = inr tt ->
  (forall d, In d (out_vars (declare p S G)) -> within a d = true) ->
  forall d, In d (out_vars (declare p' S G)) -> within a d = true.
Proof.
  intros R Hd Hd' Hvd d'.
  destruct R as (R1 & R2 & R3 & R4 & R5 & R6 & _ & R7 & _ & _ & _ & _ & _
                 & _ & _ & R8 & _).
  destruct (declare_result _ _ _ Hd) as (zl & zu & Hl & Hu & Hn).
  destruct (declare_result _ _ _ Hd') as (zl' & zu' & Hl' & Hu' & _).
  assert (Hzl : zl' <= zl).
  { rewrite (recip_value _ _ Hl), (recip_value _ _ Hl').
    apply recip_antitone; assumption. }
  assert (Hzu : zu <= zu').
  { rewrite (recip_value _ _ Hu), (recip_value _ _ Hu').
    apply recip_antitone; assumption. }
  declared_at Hl' Hu' Hn.
  intros Hin.
  repeat (apply in_app_or in Hin; destruct Hin as [Hin|Hin]);
    try (solve
      [ destruct Hin
      | apply in_flat_map in Hin; destruct Hin as (t & Ht & Hin);
        apply in_map_iff in Hin; destruct Hin as (s & <- & Hs);
        apply Hvd; declared_at Hl Hu Hn; in_decls t s Ht Hs
      | apply in_map_iff in Hin; destruct Hin as (t & <- & Ht);
        apply Hvd; declared_at Hl Hu Hn; in_decls t t Ht Ht
      | destruct Hin as [<-|[]];
        apply Hvd; declared_at Hl Hu Hn;
        in_decls EmptyString EmptyString I I ]).
  - apply in_map_iff in Hin. destruct Hin as (t & <- & Ht).
    apply (within_relax a {| v_id := Sample pl t; v_type := CONTINUOUS;
                             v_lb := min_ploidy p;
                             v_ub := Some (max_ploidy p) |});
      [reflexivity|reflexivity|exact R1|exact R2|].
    apply Hvd. declared_at Hl Hu Hn. in_decls t t Ht Ht.
  - apply in_map_iff in Hin. destruct Hin as (t & <- & Ht).
    apply (within_relax a {| v_id := Sample z t; v_type := CONTINUOUS;
                             v_lb := zl; v_ub := Some zu |});
      [reflexivity|reflexivity|exact Hzl|exact Hzu|].
    apply Hvd. declared_at Hl Hu Hn. in_decls t t Ht Ht.
  - apply in_map_iff in Hin. destruct Hin as (t & <- & Ht).
    apply (within_relax a {| v_id := Sample homdel_mb t;
                             v_type := CONTINUOUS; v_lb := 0;
                             v_ub := Some (max_homdel_mb p) |});
      [reflexivity|reflexivity|apply Qle_refl|exact R7|].
    apply Hvd. declared_at Hl Hu Hn. in_decls t t Ht Ht.
  - apply in_map_iff in Hin. destruct Hin as (t & <- & Ht).
    apply (within_relax a {| v_id := Sample n_cna_segments_per_sample t;
                             v_type := INTEGER;
                             v_lb := min_cna_segments_per_sample p;
                             v_ub := Some (of_nat (List.length G)) |});
      [reflexivity|reflexivity|exact R8|apply Qle_refl|].
    apply Hvd. declared_at Hl Hu Hn. in_decls t t Ht Ht.
  - destruct Hin as [<-|[]].
    apply (within_relax a {| v_id := Global avg_ploidy; v_type := CONTINUOUS;
                             v_lb := min_ploidy p;
                             v_ub := Some (max_ploidy p) |});
      [reflexivity|reflexivity|exact R1|exact R2|].
    apply Hvd. declared_at Hl Hu Hn.
    in_decls EmptyString EmptyString I I.
Qed.

Lemma declare_constrs_same p p' S G :
  result (declare p S G) = inr tt ->
  result (declare p' S G) = inr tt ->
  out_constrs (declare p' S G) = out_constrs (declare p S G).
Proof.
  intros Hd Hd'.
  destruct (declare_result _ _ _ Hd) as (zl & zu & Hl & Hu & Hn).
  destruct (declare_result _ _ _ Hd') as (zl' & zu' & Hl' & Hu' & _).
  unfold out_constrs, declare. rewrite Hl, Hu, Hl', Hu', Hn.
  cbv [bind lift ret addVars2 addVars1 addVar add_vars add_constr addConstr
       vars constrs objectives ModelSense PoolSolutions fst new_model app].
  reflexivity.
Qed.

(** X26.  Loosening the parameters loses no solution: when [p'] has wider
    ploidy and purity ranges and tolerances, a lower quorum and minimum
    segment length, a higher cap on deleted length and a lower minimum of
    altered segments than [p], every feasible assignment of the model
    built with [p] is feasible for the model built with [p'] on the same
    table, so the best [n_clonal] under [p'] is at least that under
    [p]. *)
Theorem relaxed_parameters_keep_solutions dat lic p p' m m' :
  relaxes p p' ->
  CNAlign dat lic p new_model = (m, inr tt) ->
  CNAlign dat lic p' new_model = (m', inr tt) ->
  (forall a, feasible m a = true -> feasible m' a = true)
  /\ (forall best a,
        feasible m' best = true ->
        (forall a', feasible m' a' = true ->
                    a' (Global n_clonal) <= best (Global n_clonal)) ->
        feasible m a = true ->
        a (Global n_clonal) <= best (Global n_clonal)).
Proof.
  intros R Hrun Hrun'.
  assert (Hsub : forall a, feasible m a = true -> feasible m' a = true).
  { intros a Hf.
    destruct (feasible_parts dat lic p m a Hrun Hf) as (Hd & _ & _ & Hcell & _).
    pose proof Hrun' as Hok. apply CNAlign_ok in Hok.
    destruct Hok as (_ & Hres' & _).
    apply build_ok in Hres'. destruct Hres' as (Hd' & _).
    apply (feasible_blocks dat lic p m a Hrun) in Hf.
    apply (feasible_blocks dat lic p' m' a Hrun').
    destruct Hf as (Hvd & Hve & Hcd & Hcc & Hcs & Hcm & Hce).
    assert (Hmode : obj2_clonalonly p' = obj2_clonalonly p) by apply R.
    assert (Hrho : rho p' <= rho p) by apply R.
    unfold blocks_hold.
    rewrite (errors_same_mode p p' _ _ Hmode).
    rewrite (declare_constrs_same p p' _ _ Hd Hd').
    split; [exact (declare_relaxed p p' _ _ a R Hd Hd' Hvd)|].
    split; [exact Hve|]. split; [exact Hcd|].
    split.
    { intros t s Ht Hs. destruct (Hcell t s Ht Hs) as (r & Hr & _).
      apply (cell_relaxed _ p p' _ t s r a R Hr). apply (Hcc t s Ht Hs). }
    split; [|split; [exact Hcm|exact Hce]].
    intros s c Hs [<-|[]].
    specialize (Hcs s _ Hs (or_introl eq_refl)).
    revert Hcs. apply holds_indicator_relax_ge.
    apply Qmult_le_compat_r; [exact Hrho|apply of_nat_nonneg]. }
  split; [exact Hsub|].
  intros best a _ Hbest Hf. apply Hbest. apply Hsub. exact Hf.
Qed.

End Relaxation.

Section RelaxationWitness.
Import Model CNAlign Examples.

Lemma relaxed_builds :
  @CNAlign.CNAlign platform dat license_file arguments_relaxed new_model
  = (built_relaxed, inr tt).
Proof.
  unfold built_relaxed.
  assert (E : snd (@CNAlign.CNAlign platform dat license_file
                     arguments_relaxed new_model) = inr tt)
    by (vm_compute; reflexivity).
  revert E.
  generalize (@CNAlign.CNAlign platform dat license_file
                arguments_relaxed new_model).
  intros [m r] E. simpl in E. subst r. reflexivity.
Qed.

Lemma arguments_relaxed_relaxes : relaxes (arguments 1) arguments_relaxed.
Proof.
  unfold relaxes.
  repeat (split; [vm_compute; first [reflexivity|discriminate]|]).
  reflexivity.
Qed.

Lemma relaxed_parameters_keep_solutions_witness :
  relaxes (arguments 1) arguments_relaxed
  /\ feasible built_relaxed (solution 1) = true.
Proof.
  split; [exact arguments_relaxed_relaxes|].
  apply (proj1 (@relaxed_parameters_keep_solutions platform dat license_file
                  (arguments 1) arguments_relaxed (built 1) built_relaxed
                  arguments_relaxed_relaxes (example_builds 1)
                  relaxed_builds)).
  exact example_feasible_clonal.
Defined.

End RelaxationWitness.

(** ** The total copy number *)

Section TotalCopyNumber.
Import Model CNAlign.
Context `{Platform}.

(** X27.  When the platform's power satisfies [2**(r+1) = 2 * 2**r] at
    the row's [logR], the total copy number of a cell in a feasible
    assignment is [2**logR * pl + (z - 1) * (2 * 2**logR - GC)], with or
    without a BAF: the BAF only splits the total into [n1] and [mcn]. *)
Theorem total_copy_number_ignores_BAF dat lic p m a t s :
  CNAlign dat lic p new_model = (m, inr tt) ->
  feasible m a = true ->
  In t (unique (map sample dat)) ->
  In s (unique (map segment dat)) ->
  exists r,
    loc (recode dat) t s = inr r
    /\ (pow2 (logR r + 1) == 2 * pow2 (logR r) ->
        a (Cell tcn t s)
        == pow2 (logR r) * a (Sample pl t)
           + (a (Sample z t) - 1) * (2 * pow2 (logR r) - GC r)).
Proof.
  intros Hrun Hf Ht Hs.
  destruct (feasible_parts dat lic p m a Hrun Hf) as (_ & _ & _ & Hcell & _).
  destruct (Hcell t s Ht Hs) as (r & Hr & Hc).
  exists r. split; [exact Hr|]. intros Hpow.
  assert (Hsum : a (Cell tcn t s) == a (Cell n1 t s) + a (Cell mcn t s)).
  { refine (holds_eq a (fun a => a (Cell tcn t s))
              (fun a => a (Cell n1 t s) + a (Cell mcn t s)) _).
    apply Hc. cell_in Hr r. }
  destruct (Qeq_bool (BAF r) (-9)) eqn:Hb.
  - assert (H1 : a (Cell n1 t s)
                 == a (Sample z t) * pow2 (logR r) * 2
                    + pow2 (logR r) * a (Sample pl t) - 2 * pow2 (logR r)
                    - GC r * a (Sample z t) + GC r).
    { refine (holds_eq a (fun a => a (Cell n1 t s))
                (fun a => a (Sample z t) * pow2 (logR r) * 2
                          + pow2 (logR r) * a (Sample pl t)
                          - 2 * pow2 (logR r)
                          - GC r * a (Sample z t) + GC r) _).
      apply Hc. unfold out_constrs, cell. rewrite Hr. cell_steps.
      rewrite Hb. cell_steps. pick. }
    assert (H2 : a (Cell mcn t s) == 0).
    { refine (holds_eq a (fun a => a (Cell mcn t s)) (fun _ => 0) _).
      apply Hc. unfold out_constrs, cell. rewrite Hr. cell_steps.
      rewrite Hb. cell_steps. pick. }
    rewrite Hsum, H1, H2. ring.
  - assert (H1 : a (Cell n1 t s)
                 == - BAF r * pow2 (logR r) * a (Sample pl t)
                    + BAF r * pow2 (logR r + 1)
                    - BAF r * pow2 (logR r + 1) * a (Sample z t)
                    + pow2 (logR r) * a (Sample pl t) - pow2 (logR r + 1)
                    + pow2 (logR r + 1) * a (Sample z t) + GC r
                    - GC r * a (Sample z t) - 1 + a (Sample z t)).
    { refine (holds_eq a (fun a => a (Cell n1 t s))
                (fun a => - BAF r * pow2 (logR r) * a (Sample pl t)
                          + BAF r * pow2 (logR r + 1)
                          - BAF r * pow2 (logR r + 1) * a (Sample z t)
                          + pow2 (logR r) * a (Sample pl t)
                          - pow2 (logR r + 1)
                          + pow2 (logR r + 1) * a (Sample z t) + GC r
                          - GC r * a (Sample z t) - 1 + a (Sample z t)) _).
      apply Hc. unfold out_constrs, cell. rewrite Hr. cell_steps.
      rewrite Hb. cell_steps. pick. }
    assert (H2 : a (Cell mcn t s)
                 == BAF r * pow2 (logR r) * a (Sample pl t)
                    - BAF r * pow2 (logR r + 1)
                    + BAF r * pow2 (logR r + 1) * a (Sample z t)
                    + 1 - a (Sample z t)).
    { refine (holds_eq a (fun a => a (Cell mcn t s))
                (fun a => BAF r * pow2 (logR r) * a (Sample pl t)
                          - BAF r * pow2 (logR r + 1)
                          + BAF r * pow2 (logR r + 1) * a (Sample z t)
                          + 1 - a (Sample z t)) _).
      apply Hc. unfold out_constrs, cell. rewrite Hr. cell_steps.
      rewrite Hb. cell_steps. pick. }
    rewrite Hsum, H1, H2, Hpow. ring.
Qed.

End TotalCopyNumber.

Section TotalCopyNumberWitness.
Import Model CNAlign Examples.

Lemma total_copy_number_ignores_BAF_witness :
  exists r,
    loc (recode dat) "A" "s1" = inr r
    /\ @pow2 platform (logR r + 1) == 2 * @pow2 platform (logR r)
    /\ solution 1 (Cell tcn "A" "s1")
       == @pow2 platform (logR r) * solution 1 (Sample pl "A")
          + (solution 1 (Sample z "A") - 1)
            * (2 * @pow2 platform (logR r) - GC r).
Proof.
  destruct (@total_copy_number_ignores_BAF platform dat license_file
              (arguments 1) (built 1) (solution 1) "A"%string "s1"%string
              (example_builds 1) example_feasible_clonal in_A in_s1)
    as (r & Hr & W).
  exists r. split; [exact Hr|].
  assert (E : @pow2 platform (logR r + 1) == 2 * @pow2 platform (logR r)).
  { vm_compute in Hr. injection Hr as <-. vm_compute. reflexivity. }
  split; [exact E|exact (W E)].
Defined.

End TotalCopyNumberWitness.
